(** * Docstring parser of the API generator: segmentation and extraction

    A shallow embedding of the text-processing core of
    [tools/tensorflow_docs/api_generator/parser.py]:

    - [_AddDoctestFences]            (parser.py, lines 131-148)
    - [_handle_compatibility]        (parser.py, lines 194-211)
    - [_pairs]                       (parser.py, lines 214-224)
    - [TitleBlock.split_string]      (parser.py, lines 366-448)
    - [parse_md_docstring]           (parser.py, lines 552-569)

    The source is written against Python's [re] module, so the development
    first gives a backtracking matcher for the fragment of the pattern
    language that the source uses (ordered alternation, greedy and lazy
    repetition of a character set, capture groups, look-ahead, [^] and [$]
    under the MULTILINE and DOTALL flags), together with the library
    functions built on it ([match], [finditer], [sub], [split], [findall]) and [textwrap.dedent].  The patterns of the source are then
    transcribed one for one.

    Text is a list of characters.  A character is a code point below 256;
    the classes [\s] and [\w] are Python's (Unicode) classes on that range. *)

From Stdlib Require Import Ascii String List Arith Bool Lia.
From stdpp Require Import gmap strings list.

Open Scope nat_scope.

Abbreviation str := (list ascii).

(** [txt "abc"] is the Python literal ['abc']. *)
Definition txt (s : string) : str := list_ascii_of_string s.

Definition NL : ascii := ascii_of_nat 10.
Definition TAB : ascii := ascii_of_nat 9.
Definition SP : ascii := ascii_of_nat 32.

(** ** Python string primitives *)

(** [strip_prefix p s] is [Some rest] when [s = p ++ rest]. *)
Fixpoint strip_prefix (p s : str) : option str :=
  match p with
  | [] => Some s
  | x :: p' =>
      match s with
      | y :: s' => if Ascii.eqb x y then strip_prefix p' s' else None
      | [] => None
      end
  end.

(** [s.startswith(p)] *)
Definition startswith (s p : str) : bool :=
  match strip_prefix p s with Some _ => true | None => false end.

(** [needle in hay] *)
Fixpoint contains (needle hay : str) : bool :=
  if startswith hay needle then true
  else match hay with
       | [] => false
       | _ :: hay' => contains needle hay'
       end.

(** [s[i:j]] for [0 <= i], [0 <= j]. *)
Definition slice (s : str) (i j : nat) : str := firstn (j - i) (skipn i s).

(** [s.split(sep)] for a one-character separator: the result is never empty. *)
Fixpoint split_on (sep : ascii) (s : str) : list str :=
  match s with
  | [] => [[]]
  | a :: s' =>
      if Ascii.eqb a sep then [] :: split_on sep s'
      else match split_on sep s' with
           | [] => [[a]]
           | l :: ls => (a :: l) :: ls
           end
  end.

(** [sep.join(parts)] *)
Fixpoint join (sep : str) (parts : list str) : str :=
  match parts with
  | [] => []
  | [p] => p
  | p :: ps => p ++ sep ++ join sep ps
  end.

(** ** Character classes *)

Definition code (a : ascii) : nat := nat_of_ascii a.

Definition in_range (lo hi : nat) (a : ascii) : bool :=
  (lo <=? code a) && (code a <=? hi).

(** [\s]: the characters for which [str.isspace] holds. *)
Definition is_space (a : ascii) : bool :=
  in_range 9 13 a || in_range 28 32 a
  || (code a =? 133) || (code a =? 160).

(** [\w]: alphanumeric characters and the underscore. *)
Definition is_word (a : ascii) : bool :=
  in_range 48 57 a || in_range 65 90 a || (code a =? 95) || in_range 97 122 a
  || (code a =? 170) || in_range 178 179 a || (code a =? 181)
  || in_range 185 186 a || in_range 188 190 a
  || in_range 192 214 a || in_range 216 246 a || in_range 248 255 a.

(** One member of a bracketed set. *)
Inductive citem :=
  | Ch (a : ascii)           (* a literal character *)
  | Rg (lo hi : ascii)       (* lo-hi *)
  | Space                    (* \s *)
  | Word.                    (* \w *)

(** A pattern element that consumes exactly one character. *)
Inductive cset :=
  | One (i : citem)
  | OneOf (l : list citem)   (* [...] *)
  | NoneOf (l : list citem)  (* [^...] *)
  | NotSpace                 (* \S *)
  | Dot.                     (* . *)

Record flags := { MULTILINE : bool; DOTALL : bool }.

Definition citem_mem (i : citem) (a : ascii) : bool :=
  match i with
  | Ch b => Ascii.eqb a b
  | Rg lo hi => in_range (code lo) (code hi) a
  | Space => is_space a
  | Word => is_word a
  end.

Definition cset_mem (fl : flags) (cs : cset) (a : ascii) : bool :=
  match cs with
  | One i => citem_mem i a
  | OneOf l => existsb (fun i => citem_mem i a) l
  | NoneOf l => negb (existsb (fun i => citem_mem i a) l)
  | NotSpace => negb (is_space a)
  | Dot => DOTALL fl || negb (Ascii.eqb a NL)
  end.

(** ** Patterns *)

Inductive regex :=
  | Empty
  | Set_ (cs : cset)
  | Lit (s : str)
  | Seq (r1 r2 : regex)
  | Alt (r1 r2 : regex)
  | Rep (cs : cset) (mn : nat) (mx : option nat) (greedy : bool)
  | Group (n : nat) (r : regex)
  | Ahead (r : regex)          (* (?=...) *)
  | Bol                        (* ^ *)
  | Eol.                       (* $ *)

(** Concatenation and ordered alternation of several patterns. *)
Fixpoint Cat (l : list regex) : regex :=
  match l with
  | [] => Empty
  | [r] => r
  | r :: l' => Seq r (Cat l')
  end.

Fixpoint Alts (l : list regex) : regex :=
  match l with
  | [] => Empty
  | [r] => r
  | r :: l' => Alt r (Alts l')
  end.

Definition star (cs : cset) : regex := Rep cs 0 None true.       (* x*  *)
Definition star_lazy (cs : cset) : regex := Rep cs 0 None false. (* x*? *)
Definition plus (cs : cset) : regex := Rep cs 1 None true.       (* x+  *)
Definition plus_lazy (cs : cset) : regex := Rep cs 1 None false. (* x+? *)
Definition opt (cs : cset) : regex := Rep cs 0 (Some 1) true.    (* x?  *)

(** Number of capture groups of a pattern. *)
Fixpoint ngroups (r : regex) : nat :=
  match r with
  | Seq r1 r2 | Alt r1 r2 => Nat.max (ngroups r1) (ngroups r2)
  | Group n r1 => Nat.max n (ngroups r1)
  | Ahead r1 => ngroups r1
  | _ => 0
  end.

Record pattern := Pattern { p_re : regex; p_flags : flags }.

(** ** The matcher

    A cursor is a position in the subject: the characters before it, last
    first, and the characters after it.  Capture marks are the spans
    [(start, end)] of the groups, [None] for a group that has not taken part. *)

Abbreviation cursor := (str * str)%type.
Abbreviation marks := (list (option (nat * nat))).
Definition pos (c : cursor) : nat := length c.1.

Definition at_bol (fl : flags) (c : cursor) : bool :=
  match c.1 with
  | [] => true
  | a :: _ => MULTILINE fl && Ascii.eqb a NL
  end.

Definition at_eol (fl : flags) (c : cursor) : bool :=
  match c.2 with
  | [] => true
  | a :: rest =>
      Ascii.eqb a NL && (MULTILINE fl || match rest with [] => true | _ => false end)
  end.

Definition can_more (mx : option nat) : bool :=
  match mx with Some 0 => false | _ => true end.

Definition dec_max (mx : option nat) : option nat :=
  match mx with Some n => Some (Nat.pred n) | None => None end.

Section Matcher.
Context {A : Type}.

(** Repetition of a one-character set between [mn] and [mx] times, followed
    by the rest of the pattern [k].  Greedy: take as many as possible and
    give back one at a time.  Lazy: take as few as possible and add one at
    a time. *)
Fixpoint rep (greedy : bool) (p : ascii -> bool) (mn : nat) (mx : option nat)
    (bef aft : str) (k : str -> str -> option A) : option A :=
  if greedy then
    match
      match aft with
      | a :: aft' =>
          if p a && can_more mx
          then rep greedy p (Nat.pred mn) (dec_max mx) (a :: bef) aft' k
          else None
      | [] => None
      end
    with
    | Some x => Some x
    | None => match mn with 0 => k bef aft | S _ => None end
    end
  else
    match match mn with 0 => k bef aft | S _ => None end with
    | Some x => Some x
    | None =>
        match aft with
        | a :: aft' =>
            if p a && can_more mx
            then rep greedy p (Nat.pred mn) (dec_max mx) (a :: bef) aft' k
            else None
        | [] => None
        end
    end.
End Matcher.

Definition K : Type := cursor -> marks -> option (cursor * marks).

Fixpoint m (fl : flags) (r : regex) (c : cursor) (g : marks) (k : K)
    : option (cursor * marks) :=
  match r with
  | Empty => k c g
  | Set_ cs =>
      match c.2 with
      | a :: aft' => if cset_mem fl cs a then k (a :: c.1, aft') g else None
      | [] => None
      end
  | Lit s =>
      match strip_prefix s c.2 with
      | Some aft' => k (rev s ++ c.1, aft') g
      | None => None
      end
  | Seq r1 r2 => m fl r1 c g (fun c1 g1 => m fl r2 c1 g1 k)
  | Alt r1 r2 =>
      match m fl r1 c g k with
      | Some x => Some x
      | None => m fl r2 c g k
      end
  | Rep cs mn mx greedy =>
      rep greedy (cset_mem fl cs) mn mx c.1 c.2 (fun bef aft => k (bef, aft) g)
  | Group n r1 =>
      m fl r1 c g (fun c1 g1 => k c1 (<[Nat.pred n := Some (pos c, pos c1)]> g1))
  | Ahead r1 =>
      match m fl r1 c g (fun c1 g1 => Some (c1, g1)) with
      | Some (_, g1) => k c g1
      | None => None
      end
  | Bol => if at_bol fl c then k c g else None
  | Eol => if at_eol fl c then k c g else None
  end.

(** The end of the whole pattern.  After an empty match the next scan must
    not return an empty match at the place it starts from ([must_advance]). *)
Definition accept (start : nat) (must_advance : bool) : K :=
  fun c g => if must_advance && (pos c =? start) then None else Some (c, g).

(** A match at one given position. *)
Definition match_here (p : pattern) (c : cursor) (must_advance : bool)
    : option (cursor * marks) :=
  m (p_flags p) (p_re p) c (replicate (ngroups (p_re p)) None)
    (accept (pos c) must_advance).

(** The scan of [search]: try every start position from the cursor on, the
    end of the subject included; [must_advance] holds for the first only. *)
Fixpoint scan (p : pattern) (bef aft : str) (must_advance : bool)
    : option (nat * (cursor * marks)) :=
  match match_here p (bef, aft) must_advance with
  | Some res => Some (length bef, res)
  | None =>
      match aft with
      | [] => None
      | a :: aft' => scan p (a :: bef) aft' false
      end
  end.

(** ** Match objects and the functions of [re] *)

Record Match := { m_string : str; m_start : nat; m_end : nat; m_marks : marks }.

(** [mo.group(n)] for [n >= 1]: [None] when the group did not take part. *)
Definition group (mo : Match) (n : nat) : option str :=
  match m_marks mo !! Nat.pred n with
  | Some (Some (i, j)) => Some (slice (m_string mo) i j)
  | _ => None
  end.

Definition subject (c : cursor) : str := rev c.1 ++ c.2.

Definition mk_match (s : str) (r : nat * (cursor * marks)) : Match :=
  {| m_string := s; m_start := r.1; m_end := pos r.2.1; m_marks := r.2.2 |}.

(** [p.match(s)] *)
Definition re_match (p : pattern) (s : str) : option Match :=
  (fun r => mk_match s (0, r)) <$> match_here p ([], s) false.

(** The loop shared by [finditer], [sub], [split] and [findall]: scan from
    the end of the previous match.  At most [limit] matches are taken when a
    limit is given.  Every round either moves the cursor forward or sets
    [must_advance], so [2 * length s + 2] rounds are never used up
    (lemma [matches_loop_run]). *)
Fixpoint matches_loop (fuel : nat) (p : pattern) (s : str) (limit : option nat)
    (c : cursor) (must_advance : bool) : list Match :=
  match fuel with
  | 0 => []
  | S fuel' =>
      if can_more limit then
        match scan p c.1 c.2 must_advance with
        | None => []
        | Some r =>
            mk_match s r
              :: matches_loop fuel' p s (dec_max limit) r.2.1 (pos r.2.1 =? r.1)
        end
      else []
  end.

Definition matches_upto (p : pattern) (limit : option nat) (s : str) : list Match :=
  matches_loop (2 * length s + 2) p s limit ([], s) false.

(** [p.finditer(s)] *)
Definition finditer (p : pattern) (s : str) : list Match := matches_upto p None s.

(** The text between the matches, with [f mo] put in for each match. *)
Fixpoint splice {B : Type} (s : str) (last : nat) (ms : list Match)
    (gap : str -> B) (f : Match -> list B) : list B :=
  match ms with
  | [] => [gap (skipn last s)]
  | mo :: ms' => gap (slice s last (m_start mo)) :: f mo ++ splice s (m_end mo) ms' gap f
  end.

(** [p.sub(repl, s)] for a function [repl] *)
Definition re_sub (p : pattern) (repl : Match -> str) (s : str) : str :=
  concat (splice s 0 (finditer p s) id (fun mo => [repl mo])).

(** [p.split(s, maxsplit)]; [maxsplit = 0] means no limit.  The groups of
    each match are listed between the pieces. *)
Definition re_split (p : pattern) (s : str) (maxsplit : nat) : list (option str) :=
  let limit := match maxsplit with 0 => None | S _ => Some maxsplit end in
  splice s 0 (matches_upto p limit s) Some
    (fun mo => map (group mo) (seq 1 (ngroups (p_re p)))).

(** [p.findall(s)] for a pattern with exactly one group: the text of the
    group, empty when it did not take part. *)
Definition findall1 (p : pattern) (s : str) : list str :=
  map (fun mo => default [] (group mo 1)) (finditer p s).

(** [p.sub('', s)] *)
Definition re_delete (p : pattern) (s : str) : str := re_sub p (fun _ => []) s.

(** ** [textwrap.dedent] (Python standard library) *)

Module textwrap.

Definition blank : cset := OneOf [Ch SP; Ch TAB].

(* re.compile('^[ \t]+$', re.MULTILINE) *)
Definition _whitespace_only_re : pattern :=
  Pattern (Cat [Bol; plus blank; Eol]) {| MULTILINE := true; DOTALL := false |}.

(* re.compile('(^[ \t]* )(?:[^ \t\n])', re.MULTILINE), no space after the star *)
Definition _leading_whitespace_re : pattern :=
  Pattern (Cat [Group 1 (Seq Bol (star blank)); Set_ (NoneOf [Ch SP; Ch TAB; Ch NL])])
          {| MULTILINE := true; DOTALL := false |}.

(** [margin[:i]] for the first [i] where [margin] and [indent] differ;
    [margin] itself when the loop over [zip(margin, indent)] ends without
    a difference. *)
Fixpoint cut_at_difference (margin indent : str) : str :=
  match margin, indent with
  | x :: margin', y :: indent' =>
      if Ascii.eqb x y then x :: cut_at_difference margin' indent' else []
  | _, _ => margin
  end.

Definition next_margin (margin : option str) (indent : str) : option str :=
  match margin with
  | None => Some indent
  | Some mg =>
      if startswith indent mg then Some mg
      else if startswith mg indent then Some indent
      else Some (cut_at_difference mg indent)
  end.

Definition dedent (text : str) : str :=
  let text := re_delete _whitespace_only_re text in
  let indents := findall1 _leading_whitespace_re text in
  match fold_left next_margin indents None with
  | Some (a :: mg) =>
      (* re.sub(r'(?m)^' + margin, '', text) *)
      re_delete (Pattern (Seq Bol (Lit (a :: mg))) {| MULTILINE := true; DOTALL := false |}) text
  | _ => text
  end.

End textwrap.

(** ** The patterns of parser.py *)

Definition DQUOTE : ascii := ascii_of_nat 34.
Definition ch (s : string) : citem :=
  Ch (match s with String a _ => a | EmptyString => zero end).
Definition rg (lo hi : string) : citem :=
  match ch lo, ch hi with
  | Ch a, Ch b => Rg a b
  | _, _ => Ch zero
  end.

(** The flags of the patterns.  [re.VERBOSE] only changes how a pattern is
    written down (white space and comments in it are skipped). *)
Definition F_DOTALL : flags := {| MULTILINE := false; DOTALL := true |}.
Definition F_MULTILINE : flags := {| MULTILINE := true; DOTALL := false |}.
Definition NOFLAGS : flags := {| MULTILINE := false; DOTALL := false |}.

(** *** [_AddDoctestFences] *)

(*  \n
    (?P<indent>\ * )(?P<content>\>\>\>.*?)
    \n\s*?(?=\n|$)                            re.VERBOSE | re.DOTALL *)
Definition CARET_BLOCK_RE : pattern :=
  Pattern
    (Cat [ Lit [NL];
           Group 1 (star (One (Ch SP)));
           Group 2 (Seq (Lit (txt ">>>")) (star_lazy Dot));
           Lit [NL]; star_lazy (One Space);
           Ahead (Alt (Lit [NL]) Eol) ])
    F_DOTALL.

(** A group of a match as text.  Every group of the patterns below lies on
    every path through its pattern, so it has taken part in every match
    (lemma [Found_group]). *)
Definition group_text (mo : Match) (n : nat) : str := default [] (group mo n).

Definition _sub (mo : Match) : str :=
  let indent := group_text mo 1 in
  let fence := [NL] ++ indent ++ txt "```" ++ [NL] in
  let content := indent ++ group_text mo 2 in
  concat [fence; content; fence].

Definition _AddDoctestFences (content : str) : str :=
  re_sub CARET_BLOCK_RE _sub content.

(** *** [_handle_compatibility] *)

(*  r'[ \t]*@compatibility\(([^\n]+?)\)\s*\n'
    r'(.*?)'
    r'[ \t]*@end_compatibility'               re.DOTALL *)
Definition OPEN_MARKER : str := txt "@compatibility(".
Definition CLOSE_MARKER : str := txt "@end_compatibility".

Definition match_compatibility : pattern :=
  Pattern
    (Cat [ star (OneOf [Ch SP; Ch TAB]); Lit OPEN_MARKER;
           Group 1 (plus_lazy (NoneOf [Ch NL]));
           Lit (txt ")"); star (One Space); Lit [NL];
           Group 2 (star_lazy Dot);
           star (OneOf [Ch SP; Ch TAB]); Lit CLOSE_MARKER ])
    F_DOTALL.

(** [compatibility_notes[f.group(1)] = f.group(2)] for each match in turn. *)
Definition add_note (notes : gmap str str) (f : Match) : gmap str str :=
  <[group_text f 1 := group_text f 2]> notes.

Definition _handle_compatibility (doc : str) : str * gmap str str :=
  let compatibility_notes := fold_left add_note (finditer match_compatibility doc) ∅ in
  (re_delete match_compatibility doc, compatibility_notes).

(** *** Outcomes of a call that can raise *)

Inductive result (A : Type) :=
  | Ok (a : A)
  | AssertionError          (* the [assert] of [_pairs] *)
  | IndexError              (* [pop] from an empty list *)
  | ValueError              (* unpacking a list of the wrong length *)
  | UnsetGroup              (* a piece of [split] that is [None] *)
  | OutOfFuel.              (* the loop bound of the model was reached *)
Arguments Ok {A} a.
Arguments AssertionError {A}.
Arguments IndexError {A}.
Arguments ValueError {A}.
Arguments UnsetGroup {A}.
Arguments OutOfFuel {A}.

#[global] Instance result_bind : MBind result := fun A B f r =>
  match r with
  | Ok a => f a
  | AssertionError => AssertionError
  | IndexError => IndexError
  | ValueError => ValueError
  | UnsetGroup => UnsetGroup
  | OutOfFuel => OutOfFuel
  end.

(** The pieces of a [split] as strings. *)
Fixpoint texts (l : list (option str)) : result (list str) :=
  match l with
  | [] => Ok []
  | Some s :: l' => ss ← texts l'; Ok (s :: ss)
  | None :: _ => UnsetGroup
  end.

(** *** [_pairs] *)

(** [items[::2]] *)
Fixpoint every_other {A : Type} (items : list A) : list A :=
  match items with
  | a :: _ :: rest => a :: every_other rest
  | [a] => [a]
  | [] => []
  end.

Definition _pairs {A : Type} (items : list A) : result (list (A * A)) :=
  if length items mod 2 =? 0
  then Ok (combine (every_other items) (every_other (skipn 1 items)))
  else AssertionError.

(** *** [TitleBlock] *)

Record TitleBlock := { title : str; text : str; items : list (str * str) }.

(** An element of [docstring_parts]: a [str] or a [TitleBlock]. *)
Inductive part :=
  | Prose (s : str)
  | Block (b : TitleBlock).

(* The group [title] of BLOCK_RE:  [A-Z][\s\w]{0,20} *)
Definition TITLE_RE : regex :=
  Seq (Set_ (OneOf [rg "A" "Z"])) (Rep (OneOf [Space; Word]) 0 (Some 20) true).

(*  (?:^|^\n|\n\n)
      (?P<title>[A-Z][\s\w]{0,20})
        \s*:\s*?(?=\n)
    (?P<content>.*?)
      (?=\n\S|$)                              re.VERBOSE | re.DOTALL *)
Definition BLOCK_RE : pattern :=
  Pattern
    (Cat [ Alts [Bol; Seq Bol (Lit [NL]); Lit [NL; NL]];
           Group 1 TITLE_RE;
           star (One Space); Lit (txt ":"); star_lazy (One Space); Ahead (Lit [NL]);
           Group 2 (star_lazy Dot);
           Ahead (Alt (Seq (Lit [NL]) (Set_ NotSpace)) Eol) ])
    F_DOTALL.

(*  ^(\*?\*?'?Q?
        \w[\w.'Q]*?
    )\s*:\s                                   re.MULTILINE | re.VERBOSE
    where Q stands for the double quote character *)
Definition ITEM_RE : pattern :=
  Pattern
    (Cat [ Bol;
           Group 1 (Cat [ opt (One (ch "*")); opt (One (ch "*"));
                          opt (One (ch "'")); opt (One (Ch DQUOTE));
                          Set_ (One Word);
                          star_lazy (OneOf [Word; ch "."; ch "'"; Ch DQUOTE]) ]);
           star (One Space); Lit (txt ":"); Set_ (One Space) ])
    F_MULTILINE.

(** One round of the [while] loop of [split_string]: the parts to append,
    and the rest of the docstring when the loop goes on. *)
Definition split_step (docstring : str) : result (list part * option str) :=
  split ← texts (re_split BLOCK_RE docstring 1);
  match split with
  | [] => IndexError
  | before :: split =>
      match split with
      | [] => Ok ([Prose before], None)
      | [title; content; docstring] =>
          let content := textwrap.dedent content in
          split ← texts (re_split ITEM_RE content 0);
          match split with
          | [] => IndexError
          | text :: split =>
              items ← _pairs split;
              let title_block := {| title := title; text := text; items := items |} in
              Ok ([Prose before; Block title_block], Some docstring)
          end
      | _ => ValueError
      end
  end.

Fixpoint split_string_loop (fuel : nat) (parts : list part) (docstring : str)
    : result (list part) :=
  match docstring with
  | [] => Ok parts
  | _ :: _ =>
      match fuel with
      | 0 => OutOfFuel
      | S fuel' =>
          step ← split_step docstring;
          match step.2 with
          | None => Ok (parts ++ step.1)
          | Some docstring' => split_string_loop fuel' (parts ++ step.1) docstring'
          end
      end
  end.

(** Every round removes at least the title letter from [docstring], so
    [length docstring] rounds are enough. *)
Definition split_string (docstring : str) : result (list part) :=
  split_string_loop (length docstring) [] docstring.

(** *** [parse_md_docstring] *)

Record DocstringInfo := {
  brief : str;
  docstring_parts : list part;
  compatibility : gmap str str
}.

(* re.compile(r' *@@[a-zA-Z_.0-9]+ *$') *)
Definition atat_re : pattern :=
  Pattern
    (Cat [ star (One (Ch SP)); Lit (txt "@@");
           plus (OneOf [rg "a" "z"; rg "A" "Z"; ch "_"; ch "."; rg "0" "9"]);
           star (One (Ch SP)); Eol ])
    NOFLAGS.

Definition GENERATED_BY : str := txt "Generated by: tensorflow/tools/api/generator".

(** [parse_md_docstring] from line 552 on: [raw_docstring] is the text that
    the reference resolver has returned. *)
Definition parse_md_docstring (raw_docstring : str) : result DocstringInfo :=
  let raw_docstring :=
    join [NL] (filter (fun line => re_match atat_re line = None)
                      (split_on NL raw_docstring)) in
  let '(docstring, compatibility) := _handle_compatibility raw_docstring in
  let docstring := if contains GENERATED_BY docstring then [] else docstring in
  (* Remove the first-line "brief" docstring. *)
  let lines := split_on NL docstring in
  let brief := hd [] lines in
  let docstring := join [NL] (tl lines) in
  docstring_parts ← split_string docstring;
  Ok {| brief := brief; docstring_parts := docstring_parts;
        compatibility := compatibility |}.

(** ** What a match means

    The matcher is related to a reading of patterns as relations between
    cursors: [Matches fl r c g c' g'] says that [r] can match the text
    between [c] and [c'] and turn the marks [g] into [g']. *)

(** Going from [c] to [c'] passes over the text [l]. *)
Definition Consumes (l : str) (c c' : cursor) : Prop :=
  c.2 = l ++ c'.2 ∧ c'.1 = rev l ++ c.1.

Definition within (mx : option nat) (n : nat) : Prop :=
  match mx with Some b => n ≤ b | None => True end.

Fixpoint Matches (fl : flags) (r : regex) (c : cursor) (g : marks)
    (c' : cursor) (g' : marks) : Prop :=
  match r with
  | Empty => c' = c ∧ g' = g
  | Set_ cs => ∃ a, Consumes [a] c c' ∧ cset_mem fl cs a = true ∧ g' = g
  | Lit s => Consumes s c c' ∧ g' = g
  | Seq r1 r2 => ∃ c1 g1, Matches fl r1 c g c1 g1 ∧ Matches fl r2 c1 g1 c' g'
  | Alt r1 r2 => Matches fl r1 c g c' g' ∨ Matches fl r2 c g c' g'
  | Rep cs mn mx _ =>
      ∃ l, Consumes l c c' ∧ Forall (λ a, cset_mem fl cs a = true) l
           ∧ mn ≤ length l ∧ within mx (length l) ∧ g' = g
  | Group n r1 =>
      ∃ g1, Matches fl r1 c g c' g1 ∧ g' = <[Nat.pred n := Some (pos c, pos c')]> g1
  | Ahead r1 => ∃ c1, Matches fl r1 c g c1 g' ∧ c' = c
  | Bol => at_bol fl c = true ∧ c' = c ∧ g' = g
  | Eol => at_eol fl c = true ∧ c' = c ∧ g' = g
  end.

(** The marks at the start of a match. *)
Definition no_marks (p : pattern) : marks := replicate (ngroups (p_re p)) None.

(** *** The loop over successive matches

    [Run p s limit c adv ms]: the loop, started at [c], returns the matches
    [ms] and stops because the limit is reached or the scan finds no
    further match. *)

Inductive Run (p : pattern) (s : str)
    : option nat → cursor → bool → list Match → Prop :=
  | Run_limit limit c adv :
      can_more limit = false → Run p s limit c adv []
  | Run_done limit c adv :
      can_more limit = true → scan p c.1 c.2 adv = None → Run p s limit c adv []
  | Run_step limit c adv r ms :
      can_more limit = true → scan p c.1 c.2 adv = Some r →
      Run p s (dec_max limit) r.2.1 (pos r.2.1 =? r.1) ms →
      Run p s limit c adv (mk_match s r :: ms).

(** A bound on the rounds that the loop can still make. *)
Definition rounds_left (c : cursor) (adv : bool) : nat :=
  2 * length c.2 + (if adv then 0 else 1).

(** Length of the shortest text a pattern can match. *)
Fixpoint min_len (r : regex) : nat :=
  match r with
  | Set_ _ => 1
  | Lit s => length s
  | Seq r1 r2 => min_len r1 + min_len r2
  | Alt r1 r2 => Nat.min (min_len r1) (min_len r2)
  | Rep _ mn _ _ => mn
  | Group _ r1 => min_len r1
  | _ => 0
  end.

(** Group [n] lies on every path through the pattern. *)
Fixpoint sets_group (n : nat) (r : regex) : bool :=
  match r with
  | Seq r1 r2 => sets_group n r1 || sets_group n r2
  | Alt r1 r2 => sets_group n r1 && sets_group n r2
  | Group i r1 => (i =? n) || sets_group n r1
  | Ahead r1 => sets_group n r1
  | _ => false
  end.

Definition is_set (g : marks) (n : nat) : Prop :=
  ∃ span, g !! Nat.pred n = Some (Some span).

(** What [scan] reports about the match it returns: where it lies in the
    subject and that the pattern matches there. *)
Definition Found (p : pattern) (s : str) (mo : Match) : Prop :=
  ∃ pre l post,
    s = pre ++ l ++ post ∧ m_string mo = s
    ∧ m_start mo = length pre ∧ m_end mo = length pre + length l
    ∧ Matches (p_flags p) (p_re p) (rev pre, l ++ post) (no_marks p)
        (rev l ++ rev pre, post) (m_marks mo).

(** ** Title boundaries *)

Definition is_upper (a : ascii) : bool := in_range 65 90 a.            (* [A-Z] *)
Definition is_title_char (a : ascii) : bool := is_space a || is_word a. (* [\s\w] *)

(** [title_boundary s i]: position [i] of [s] is the start of the text
    ([nl] empty), the start of a text that begins with a line break, or is
    followed by two line breaks; then come an upper-case letter [u], at
    most 20 title characters [tail], white space [ws1], a colon, white
    space [ws2] and a line break. *)
Definition title_boundary (s : str) (i : nat) : Prop :=
  ∃ pre nl u tail ws1 ws2 rest,
    s = pre ++ nl ++ [u] ++ tail ++ ws1 ++ txt ":" ++ ws2 ++ [NL] ++ rest
    ∧ length pre = i
    ∧ (pre = [] ∧ nl = [] ∨ pre = [] ∧ nl = [NL] ∨ nl = [NL; NL])
    ∧ is_upper u = true
    ∧ length tail ≤ 20 ∧ forallb is_title_char tail = true
    ∧ forallb is_space ws1 = true ∧ forallb is_space ws2 = true.

(** ** Matches of the compatibility pattern *)

(** The match object [mo] is what [match_here] has returned at some
    position of [s]. *)
Definition MatchedAt (p : pattern) (s : str) (mo : Match) : Prop :=
  ∃ pre post adv c',
    s = pre ++ post ∧ m_string mo = s
    ∧ m_start mo = length pre ∧ m_end mo = pos c'
    ∧ match_here p (rev pre, post) adv = Some (c', m_marks mo).

(** [needle] occurs in [hay]. *)
Definition occurs (needle hay : str) : Prop := ∃ a b, hay = a ++ needle ++ b.

(** ** Appending text to the subject *)









(** ** Example texts *)

(** [lines [l1; ...; ln]] is the text [l1 \n ... \n ln]. *)
Definition lines (l : list string) : str := join [NL] (map txt l).

(** The docstring of property P2 of the specification. *)
Definition P2_docstring : str :=
  lines [ "Computes max."; "";
          "Args:";
          "  x: input value.";
          "  y: another."; "";
          "Done."; "" ].

(** The blocks that the specification gives for [P2_docstring]. *)
Definition P2_claimed : DocstringInfo :=
  {| brief := txt "Computes max.";
     docstring_parts :=
       [ Block {| title := txt "Args"; text := [];
                  items := [ (txt "x", txt "input value."); (txt "y", txt "another.") ] |};
         Prose (txt "Done.") ];
     compatibility := ∅ |}.

(** The blocks that [parse_md_docstring] returns for it. *)
Definition P2_parsed : DocstringInfo :=
  {| brief := txt "Computes max.";
     docstring_parts :=
       [ Prose [];
         Block {| title := txt "Args"; text := [NL];
                  items := [ (txt "x", lines ["input value."; ""]);
                             (txt "y", lines ["another."; ""]) ] |};
         Prose (lines [""; "Done."; ""]) ];
     compatibility := ∅ |}.

(** An interactive example, the same text with the example between
    fences, and with the example fenced twice. *)
Definition plain_example : str :=
  lines [ "a"; ""; ">>> x"; ""; "b" ].

Definition fenced_example : str :=
  lines [ "a"; ""; "```"; ">>> x"; "```"; ""; "b" ].

Definition twice_fenced_example : str :=
  lines [ "a"; ""; "```"; "```"; ">>> x"; "```"; "```"; ""; "b" ].

(** A text whose only title line is indented. *)
Definition indented_title : str := lines [ "  Args:"; "  x: 1" ].

(** The boundary condition in the words of the specification: as
    [title_boundary], with optional white space [indent] before the
    upper-case letter. *)
Definition spec_title_boundary (s : str) (i : nat) : Prop :=
  ∃ pre nl indent u tail ws1 ws2 rest,
    s = pre ++ nl ++ indent ++ [u] ++ tail ++ ws1 ++ txt ":" ++ ws2 ++ [NL] ++ rest
    ∧ length pre = i
    ∧ (pre = [] ∧ nl = [] ∨ pre = [] ∧ nl = [NL] ∨ nl = [NL; NL])
    ∧ forallb is_space indent = true
    ∧ is_upper u = true
    ∧ length tail ≤ 20 ∧ forallb is_title_char tail = true
    ∧ forallb is_space ws1 = true ∧ forallb is_space ws2 = true.

(** A generated docstring that also holds a compatibility block. *)
Definition generated_with_note : str :=
  lines [ "Brief."; "";
          "Generated by: tensorflow/tools/api/generator"; "";
          "@compatibility(numpy)";
          "Same as np.max.";
          "@end_compatibility" ].

(** Two compatibility blocks with the same tag. *)
Definition two_notes : str :=
  lines [ "@compatibility(TensorFlow)"; "first";  "@end_compatibility";
          "@compatibility(TensorFlow)"; "second"; "@end_compatibility" ].

(** An open marker before a complete block. *)
Definition nested_open : str :=
  lines [ "@compatibility(a)";
          "@compatibility(b)";
          "foo";
          "@end_compatibility" ].





(** A title that runs over two lines. *)
Definition two_line_title : str := lines [ "A"; "B:"; " x" ].

(** * More of parser.py

    Further functions of the same file, and what the properties at the end
    of the development need to speak about their results:

    - [is_class_attr]                (parser.py, lines 54-68)
    - [documentation_path]           (parser.py, lines 71-97)
    - [_get_raw_docstring]           (parser.py, lines 124-128)
    - [_StripTODOs]                  (parser.py, lines 151-155)
    - [_StripPylintAndPyformat]      (parser.py, lines 158-162)
    - [_DowngradeH1Keywords]         (parser.py, lines 165-191)

    with [posixpath.join], [str.rsplit], [str.splitlines] and [str.strip] of
    the Python standard library. *)

(** ** Shapes of the results *)

(** [[a1; b1; a2; b2; ...]] for the pairs [[(a1, b1); (a2, b2); ...]]. *)
Fixpoint interleave {A : Type} (ps : list (A * A)) : list A :=
  match ps with
  | [] => []
  | (a, b) :: ps' => a :: b :: interleave ps'
  end.

(** The parts [Prose p1; Block b1; ...; Prose pn; Block bn]. *)
Fixpoint prose_block_pairs (l : list (str * TitleBlock)) : list part :=
  match l with
  | [] => []
  | (p, b) :: l' => Prose p :: Block b :: prose_block_pairs l'
  end.

(** A title as BLOCK_RE captures it. *)
Definition title_shape (t : str) : Prop :=
  ∃ u tail, t = u :: tail ∧ is_upper u = true
            ∧ length tail ≤ 20 ∧ forallb is_title_char tail = true.

(** The characters of an item name: [*], the two quote characters, word
    characters and the dot. *)
Definition is_name_char (a : ascii) : bool :=
  Ascii.eqb a "*" || Ascii.eqb a "'" || Ascii.eqb a DQUOTE
  || is_word a || Ascii.eqb a ".".

(** The names and descriptions that [ITEM_RE.split] lays out after the
    leading text: for each match its group and the text up to the next
    match, or to the end for the last one. *)
Fixpoint item_pairs (s : str) (ms : list Match) : list (str * str) :=
  match ms with
  | [] => []
  | mo :: ms' =>
      (group_text mo 1,
       match ms' with
       | [] => skipn (m_end mo) s
       | mo' :: _ => slice s (m_end mo) (m_start mo')
       end) :: item_pairs s ms'
  end.

(** An item name as ITEM_RE captures it, and a block whose title and item
    names have these shapes. *)
Definition name_shape (name : str) : Prop :=
  name ≠ [] ∧ forallb is_name_char name = true.

Definition block_shape (b : TitleBlock) : Prop :=
  title_shape (title b) ∧ Forall (λ item, name_shape item.1) (items b).

(** A line that [atat_re] matches: spaces, [@@], a name of letters, digits,
    [_] and [.], spaces. *)
Definition is_atat_name_char (a : ascii) : bool :=
  in_range 97 122 a || in_range 65 90 a || Ascii.eqb a "_" || Ascii.eqb a "."
  || in_range 48 57 a.

Definition atat_line (line : str) : Prop :=
  ∃ sp1 name sp2,
    line = sp1 ++ txt "@@" ++ name ++ sp2
    ∧ forallb (Ascii.eqb SP) sp1 = true
    ∧ name ≠ [] ∧ forallb is_atat_name_char name = true
    ∧ forallb (Ascii.eqb SP) sp2 = true.

(** ** Paths and names *)

(** Exceptions of the path helpers. *)
Inductive exception :=
  | TypeError       (* a call without a required argument *)
  | KeyError        (* a key that is not in the dictionary *)
  | EmptyList.      (* IndexError: the last item of an empty list *)

Inductive outcome (A : Type) :=
  | Returns (a : A)
  | Raises (e : exception).
Arguments Returns {A} a.
Arguments Raises {A} e.

#[global] Instance outcome_bind : MBind outcome := fun A B f r =>
  match r with
  | Returns a => f a
  | Raises e => Raises e
  end.

(** [s.endswith(p)] *)
Definition endswith (s p : str) : bool := startswith (rev s) (rev p).

(** One round of the loop of [posixpath.join] (Python standard library):
    a component that starts with a slash replaces the path, another one is
    appended, after a slash unless the path is empty or ends with one. *)
Definition join_component (path b : str) : str :=
  if startswith b (txt "/") then b
  else if bool_decide (path = []) || endswith path (txt "/") then path ++ b
  else path ++ txt "/" ++ b.

(** [posixpath.join( *parts)]: the first component is a required argument. *)
Definition posixpath_join (parts : list str) : outcome str :=
  match parts with
  | [] => Raises TypeError
  | a :: p => Returns (fold_left join_component p a)
  end.

(** [parts[:-1], parts[-1]] *)
Definition init_and_last (parts : list str) : outcome (list str * str) :=
  match last parts with
  | Some fragment => Returns (removelast parts, fragment)
  | None => Raises EmptyList
  end.

Definition documentation_path (full_name : str) (is_fragment : bool) : outcome str :=
  let parts := split_on "." full_name in
  '(parts, fragment) ←
    (if is_fragment then init_and_last parts else Returns (parts, []));
  result ← posixpath_join parts;
  let result := result ++ txt ".md" in
  Returns (if is_fragment then result ++ txt "#" ++ fragment else result).

(** [s.rsplit(sep, 1)]: the text before and after the last [sep], the text
    itself when it has no [sep]. *)
Fixpoint rsplit1 (sep : ascii) (s : str) : list str :=
  match s with
  | [] => [[]]
  | a :: s' =>
      match rsplit1 sep s' with
      | [t] => if Ascii.eqb a sep then [[]; t] else [a :: t]
      | h :: ts => (a :: h) :: ts
      | [] => [[a]]
      end
  end.

Section Index.
(** The objects of the index, of which only [inspect.isclass] is observed. *)
Context {py_object : Type} (isclass : py_object → bool).

Definition is_class_attr (full_name : str) (index : gmap str py_object)
    : outcome bool :=
  match rsplit1 "." full_name with
  | [] => Raises EmptyList
  | parent_name :: _ =>
      match index !! parent_name with
      | None => Raises KeyError
      | Some parent => Returns (if isclass parent then true else false)
      end
  end.
End Index.

(** [s.replace(a, b)] for single characters. *)
Definition replace_char (a b : ascii) (s : str) : str :=
  map (λ x, if Ascii.eqb x a then b else x) s.

(** ** Patterns that delete to the end of the line *)

(** No anchor and no look-ahead: whether the pattern matches a text does
    not depend on what is around it. *)
Fixpoint plain (r : regex) : bool :=
  match r with
  | Bol | Eol | Ahead _ => false
  | Seq r1 r2 | Alt r1 r2 => plain r1 && plain r2
  | Group _ r1 => plain r1
  | _ => true
  end.

(** No part of the pattern can consume a line break. *)
Fixpoint one_line (fl : flags) (r : regex) : bool :=
  match r with
  | Set_ cs | Rep cs _ _ _ => negb (cset_mem fl cs NL)
  | Lit s => forallb (λ a, negb (Ascii.eqb a NL)) s
  | Seq r1 r2 | Alt r1 r2 => one_line fl r1 && one_line fl r2
  | Group _ r1 | Ahead r1 => one_line fl r1
  | _ => true
  end.

(** Every path through the pattern ends with a greedy [.*]. *)
Fixpoint to_eol (r : regex) : bool :=
  match r with
  | Seq _ r2 => to_eol r2
  | Alt r1 r2 => to_eol r1 && to_eol r2
  | Group _ r1 => to_eol r1
  | Rep Dot _ None true => true
  | _ => false
  end.

(** Every path through the pattern has a literal that contains [lit]. *)
Fixpoint requires (lit : str) (r : regex) : bool :=
  match r with
  | Lit s => contains lit s
  | Seq r1 r2 => requires lit r1 || requires lit r2
  | Alt r1 r2 => requires lit r1 && requires lit r2
  | Group _ r1 => requires lit r1
  | _ => false
  end.

(** The cursor is at the end of the text or before a line break. *)
Definition at_line_end (c : cursor) : bool :=
  match c.2 with
  | [] => true
  | a :: _ => Ascii.eqb a NL
  end.

(** The pattern matches the whole of [l]. *)
Definition matchable (p : pattern) (l : str) : Prop :=
  ∃ g', Matches (p_flags p) (p_re p) ([], l) (no_marks p) (rev l, []) g'.

(** The pattern matches nowhere in [t]. *)
Definition match_free (p : pattern) (t : str) : Prop :=
  ∀ pre l post, t = pre ++ l ++ post → ¬ matchable p l.

(** A continuation that returns the cursor it is given and succeeds at
    every position after [st]: what [accept] is, whatever happens to the
    marks on the way. *)
Definition accepting (st : nat) (k : K) : Prop :=
  (∀ c g res, k c g = Some res → res.1 = c) ∧ (∀ c g, st < pos c → is_Some (k c g)).

(** ** The clean-up of a raw docstring *)

(** *** [_StripTODOs] *)

(* re.compile('#? *TODO.*') *)
Definition TODO_RE : pattern :=
  Pattern
    (Cat [ opt (One (ch "#")); star (One (Ch SP)); Lit (txt "TODO"); star Dot ])
    NOFLAGS.

Definition _StripTODOs (content : str) : str := re_delete TODO_RE content.

(** *** [_StripPylintAndPyformat] *)

(** The other case of an ASCII letter. *)
Definition swapcase (a : ascii) : ascii :=
  if in_range 97 122 a then ascii_of_nat (code a - 32)
  else if in_range 65 90 a then ascii_of_nat (code a + 32)
  else a.

(** A word under [re.I]: each letter in either case.  (For the letters of
    the two words below and code points under 256 this is all that
    [re.I] adds.) *)
Definition anycase (s : string) : regex :=
  Cat (map (λ a, Set_ (OneOf [Ch a; Ch (swapcase a)])) (txt s)).

(* re.compile('# *?(pylint|pyformat):.*', re.I) *)
Definition STRIP_RE : pattern :=
  Pattern
    (Cat [ Lit (txt "#"); star_lazy (One (Ch SP));
           Group 1 (Alt (anycase "pylint") (anycase "pyformat"));
           Lit (txt ":"); star Dot ])
    NOFLAGS.

Definition _StripPylintAndPyformat (content : str) : str := re_delete STRIP_RE content.

(** *** [_DowngradeH1Keywords] *)

(* Args|Arguments|Returns|Raises|Yields|Examples?|Notes? *)
Definition KEYWORD_ALTS : regex :=
  Alts [ Lit (txt "Args"); Lit (txt "Arguments");
         Lit (txt "Returns"); Lit (txt "Raises");
         Lit (txt "Yields");
         Seq (Lit (txt "Example")) (opt (One (ch "s")));
         Seq (Lit (txt "Note")) (opt (One (ch "s"))) ].

(*  ^
    (?P<indent>\s* )
    \#\s*
    (?P<keyword>Args|Arguments|Returns|Raises|Yields|Examples?|Notes?)
    \s*:?                                     re.VERBOSE *)
Definition KEYWORD_H1_RE : pattern :=
  Pattern
    (Cat [ Bol; Group 1 (star (One Space)); Lit (txt "#"); star (One Space);
           Group 2 KEYWORD_ALTS; star (One Space); opt (One (ch ":")) ])
    NOFLAGS.

(** The characters at which [str.splitlines] ends a line, among the code
    points under 256. *)
Definition is_linebreak (a : ascii) : bool :=
  in_range 10 13 a || in_range 28 30 a || (code a =? 133).

Definition CR : ascii := ascii_of_nat 13.

(** [s.splitlines()]: a carriage return and the line feed after it end one
    line; there is no empty last line after a final line break. *)
Fixpoint splitlines (s : str) : list str :=
  match s with
  | [] => []
  | a :: s' =>
      if is_linebreak a then
        [] :: (if Ascii.eqb a CR
               then match s' with
                    | b :: s'' => if Ascii.eqb b NL then splitlines s'' else splitlines s'
                    | [] => []
                    end
               else splitlines s')
      else
        match splitlines s' with
        | [] => [[a]]
        | l :: ls => (a :: l) :: ls
        end
  end.

(** [s.lstrip()] and [s.strip()] *)
Fixpoint lstrip (s : str) : str :=
  match s with
  | a :: s' => if is_space a then lstrip s' else s
  | [] => []
  end.

Definition strip (s : str) : str := rev (lstrip (rev (lstrip s))).

(** The replacement [\g<indent>\g<keyword>:] *)
Definition keyword_repl (mo : Match) : str :=
  group_text mo 1 ++ group_text mo 2 ++ txt ":".

(** One round of the loop over the lines: the state is [is_code] and
    [new_lines]. *)
Definition downgrade_line (st : bool * list str) (line : str) : bool * list str :=
  let '(is_code, new_lines) := st in
  if startswith (strip line) (txt "```") then (negb is_code, new_lines ++ [line])
  else if negb is_code
       then (is_code, new_lines ++ [re_sub KEYWORD_H1_RE keyword_repl line])
       else (is_code, new_lines ++ [line]).

Definition _DowngradeH1Keywords (docstring : str) : str :=
  let lines := splitlines docstring in
  let '(_, new_lines) := fold_left downgrade_line lines (false, []) in
  join [NL] new_lines.

(** *** [_get_raw_docstring]

    From line 124 on: [result] is the docstring that [inspect.getdoc] has
    given, or the empty text. *)
Definition _get_raw_docstring (result : str) : str :=
  let result := _StripTODOs result in
  let result := _StripPylintAndPyformat result in
  let result := _AddDoctestFences (result ++ [NL]) in
  let result := _DowngradeH1Keywords result in
  result.

(** A pylint or pyformat directive: a hash, spaces, the word in any mix of
    cases and a colon. *)
Definition same_letter (a b : ascii) : Prop := a = b ∨ a = swapcase b.

Definition directive (l : str) : Prop :=
  ∃ sp w, l = txt "#" ++ sp ++ w ++ txt ":"
    ∧ forallb (Ascii.eqb SP) sp = true
    ∧ (Forall2 same_letter w (txt "pylint") ∨ Forall2 same_letter w (txt "pyformat")).

(** Text in which lines end with a line feed only. *)
Definition unix_lines (s : str) : bool :=
  forallb (λ a, negb (is_linebreak a) || Ascii.eqb a NL) s.

(** The keywords of [KEYWORD_H1_RE]. *)
Definition KEYWORDS : list str :=
  map txt [ "Args"; "Arguments"; "Returns"; "Raises"; "Yields";
            "Example"; "Examples"; "Note"; "Notes" ]%string.

(** White space that does not end a line. *)
Definition is_blank (a : ascii) : bool := is_space a && negb (is_linebreak a).

(** ** Doctest blocks *)

(** Every line feed of the text is followed by a character that is not
    white space: the text has no blank line, no indented line but the
    first, and does not end with a line feed. *)
Fixpoint unbroken (c : str) : bool :=
  match c with
  | [] => true
  | a :: c' =>
      (if Ascii.eqb a NL
       then match c' with b :: _ => negb (is_space b) | [] => false end
       else true)
      && unbroken c'
  end.

(** The line that opens or closes a fence, with the line feeds around it. *)
Definition fence_of (indent : str) : str := [NL] ++ indent ++ txt "```" ++ [NL].

(** What follows the content in [CARET_BLOCK_RE]. *)
Definition CARET_END : regex :=
  Seq (Lit [NL]) (Seq (star_lazy (One Space)) (Ahead (Alt (Lit [NL]) Eol))).

(** * Properties of the matcher *)

Lemma strip_prefix_Some p s rest : strip_prefix p s = Some rest ↔ s = p ++ rest.
Proof.
  revert s. induction p as [|x p IH]; intros s; simpl.
  - split; [intros [= ->]; done | intros ->; done].
  - destruct s as [|y s]; [split; [done | intros [=]] |].
    destruct (Ascii.eqb_spec x y) as [->|Hne].
    + rewrite IH. split; [intros ->; done | intros [= ->]; done].
    + split; [done | intros [= <- _]; done].
Qed.

Lemma strip_prefix_app p rest : strip_prefix p (p ++ rest) = Some rest.
Proof. by apply strip_prefix_Some. Qed.

Lemma within_dec mx n : can_more mx = true → within (dec_max mx) n → within mx (S n).
Proof. destruct mx as [[|b]|]; simpl; try done; lia. Qed.

Lemma within_dec_inv mx n : within mx (S n) → can_more mx = true ∧ within (dec_max mx) n.
Proof. destruct mx as [[|b]|]; simpl; try done; lia. Qed.

Lemma within_0 mx : within mx 0.
Proof. destruct mx; simpl; [lia | done]. Qed.

Section RepFacts.
Context {A : Type}.
Implicit Types (k : str → str → option A) (p : ascii → bool).

Lemma rep_sound greedy p mn mx bef aft k x :
  rep greedy p mn mx bef aft k = Some x →
  ∃ l aft', aft = l ++ aft' ∧ Forall (λ a, p a = true) l
            ∧ mn ≤ length l ∧ within mx (length l)
            ∧ k (rev l ++ bef) aft' = Some x.
Proof.
  revert mn mx bef. induction aft as [|a aft IH]; intros mn mx bef H.
  - exists [], [].
    assert (mn = 0 ∧ k bef [] = Some x) as [-> Hk].
    { destruct greedy, mn; simpl in H; try done.
      by destruct (k bef []). }
    refine (conj _ (conj _ (conj _ (conj _ _))));
      [done | by apply Forall_nil | simpl; lia | exact (within_0 _) | done].
  - assert (Hstop : mn = 0 → k bef (a :: aft) = Some x →
      ∃ l aft', a :: aft = l ++ aft' ∧ Forall (λ a, p a = true) l
            ∧ mn ≤ length l ∧ within mx (length l)
            ∧ k (rev l ++ bef) aft' = Some x).
    { intros -> Hk. exists [], (a :: aft).
      refine (conj _ (conj _ (conj _ (conj _ _))));
        [done | by apply Forall_nil | simpl; lia | exact (within_0 _) | done]. }
    assert (Hmore : p a && can_more mx = true →
      rep greedy p (Nat.pred mn) (dec_max mx) (a :: bef) aft k = Some x →
      ∃ l aft', a :: aft = l ++ aft' ∧ Forall (λ a, p a = true) l
            ∧ mn ≤ length l ∧ within mx (length l)
            ∧ k (rev l ++ bef) aft' = Some x).
    { intros [Hp Hc]%andb_true_iff Hr.
      destruct (IH _ _ _ Hr) as (l & aft' & -> & Hall & Hmn & Hmx & Hk).
      exists (a :: l), aft'. simpl. rewrite <- app_assoc.
      refine (conj _ (conj _ (conj _ (conj _ _))));
        [done | by apply Forall_cons | simpl; lia | by apply within_dec | done]. }
    simpl in H. destruct greedy.
    + destruct (p a && can_more mx) eqn:E.
      * destruct (rep true p (Nat.pred mn) (dec_max mx) (a :: bef) aft k) eqn:E2.
        -- injection H as ->. by apply Hmore.
        -- destruct mn; [by apply Hstop | done].
      * destruct mn; [by apply Hstop | done].
    + destruct mn as [|mn'].
      * destruct (k bef (a :: aft)) eqn:E0.
        -- injection H as ->. by apply Hstop.
        -- destruct (p a && can_more mx) eqn:E; [by apply Hmore | done].
      * destruct (p a && can_more mx) eqn:E; [by apply Hmore | done].
Qed.

Lemma rep_complete greedy p mn mx bef l aft' k :
  Forall (λ a, p a = true) l → mn ≤ length l → within mx (length l) →
  is_Some (k (rev l ++ bef) aft') →
  is_Some (rep greedy p mn mx bef (l ++ aft') k).
Proof.
  revert mn mx bef. induction l as [|a l IH]; intros mn mx bef Hall Hmn Hmx Hk.
  - simpl in *. assert (mn = 0) as -> by lia.
    destruct aft' as [|b aft']; destruct greedy; simpl.
    + done.
    + destruct (k bef []); [eauto | by destruct Hk].
    + destruct (p b && can_more mx); [|done].
      destruct (rep true p _ _ _ _ _); eauto.
    + destruct (k bef (b :: aft')); [eauto | by destruct Hk].
  - apply Forall_cons in Hall as [Hp Hall]. simpl in Hmn, Hmx.
    apply within_dec_inv in Hmx as [Hc Hmx].
    assert (is_Some (rep greedy p (Nat.pred mn) (dec_max mx) (a :: bef) (l ++ aft') k))
      as [x Hx].
    { apply IH; auto; [lia |]. simpl in Hk. by rewrite <- app_assoc in Hk. }
    simpl. rewrite Hp, Hc. simpl. destruct greedy.
    + rewrite Hx. eauto.
    + destruct mn; [destruct (k bef (a :: l ++ aft')); eauto | eauto].
Qed.

(** A lazy repetition stops at the first place where the rest succeeds. *)
Lemma rep_lazy_first p mx bef aft k x :
  rep false p 0 mx bef aft k = Some x →
  ∃ l aft', aft = l ++ aft' ∧ k (rev l ++ bef) aft' = Some x
            ∧ ∀ l1 l2, l = l1 ++ l2 → l2 ≠ [] → k (rev l1 ++ bef) (l2 ++ aft') = None.
Proof.
  revert mx bef. induction aft as [|a aft IH]; intros mx bef H.
  - simpl in H. exists [], []. destruct (k bef []) eqn:E; [|done].
    split; [done|]. split; [by injection H as ->|].
    intros l1 l2 Hl. by destruct l1, l2.
  - simpl in H. destruct (k bef (a :: aft)) eqn:E.
    + injection H as ->. exists [], (a :: aft). repeat split; auto.
      intros l1 l2 Hl. by destruct l1, l2.
    + destruct (p a && can_more mx); [|done].
      destruct (IH _ _ H) as (l & aft' & -> & Hk & Hmin).
      exists (a :: l), aft'. simpl. rewrite <- app_assoc. repeat split; auto.
      intros l1 l2 Hl Hne. destruct l1 as [|b l1]; simpl in *.
      * by subst l2.
      * injection Hl as <- ->. rewrite <- app_assoc. simpl. by apply Hmin.
Qed.
End RepFacts.

Lemma Consumes_subject l c c' : Consumes l c c' → subject c' = subject c.
Proof.
  intros [H1 H2]. unfold subject. rewrite H1, H2, rev_app_distr, rev_involutive.
  by rewrite <- app_assoc.
Qed.

Lemma Consumes_pos l c c' : Consumes l c c' → pos c' = pos c + length l.
Proof.
  intros [H1 H2]. unfold pos. rewrite H2, length_app, length_rev. lia.
Qed.

Lemma Consumes_nil c : Consumes [] c c.
Proof. by split. Qed.

Lemma Consumes_app l1 l2 c c1 c2 :
  Consumes l1 c c1 → Consumes l2 c1 c2 → Consumes (l1 ++ l2) c c2.
Proof.
  intros [H1 H2] [H3 H4]. split.
  - by rewrite H1, H3, <- app_assoc.
  - by rewrite H4, H2, rev_app_distr, <- app_assoc.
Qed.

Ltac consumes_inv H c c' :=
  destruct c as [?bef ?aft], c' as [?bef ?aft];
  destruct H as [?HC1 ?HC2]; simpl in *; subst.

Section MatcherFacts.
Variable fl : flags.

Lemma m_sound r : ∀ c g k res,
  m fl r c g k = Some res →
  ∃ c' g', Matches fl r c g c' g' ∧ k c' g' = Some res.
Proof.
  induction r as [|cs|s|r1 IH1 r2 IH2|r1 IH1 r2 IH2|cs mn mx gr|n r IH|r IH| |];
    intros [bef aft] g k res H; simpl in H.
  - by exists (bef, aft), g.
  - destruct aft as [|a aft']; [done|].
    destruct (cset_mem fl cs a) eqn:E; [|done].
    exists (a :: bef, aft'), g. split; [|done]. by exists a.
  - destruct (strip_prefix s aft) as [aft'|] eqn:E; [|done].
    apply strip_prefix_Some in E as ->.
    exists (rev s ++ bef, aft'), g. by split.
  - destruct (IH1 _ _ _ _ H) as (c1 & g1 & HM1 & H1).
    destruct (IH2 _ _ _ _ H1) as (c2 & g2 & HM2 & H2).
    exists c2, g2. split; [|done]. by exists c1, g1.
  - destruct (m fl r1 (bef, aft) g k) as [x|] eqn:E.
    + injection H as ->. destruct (IH1 _ _ _ _ E) as (c' & g' & HM & Hk).
      exists c', g'. split; [by left | done].
    + destruct (IH2 _ _ _ _ H) as (c' & g' & HM & Hk).
      exists c', g'. split; [by right | done].
  - apply rep_sound in H as (l & aft' & -> & Hall & Hmn & Hmx & Hk).
    exists (rev l ++ bef, aft'), g. split; [|done]. by exists l.
  - destruct (IH _ _ _ _ H) as (c' & g' & HM & Hk).
    eexists c', _. split; [|exact Hk]. by exists g'.
  - destruct (m fl r (bef, aft) g (λ c1 g1, Some (c1, g1))) as [[c1 g1]|] eqn:E; [|done].
    destruct (IH _ _ _ _ E) as (c' & g' & HM & [= -> ->]).
    exists (bef, aft), g1. split; [|done]. by exists c1.
  - destruct (at_bol fl (bef, aft)) eqn:E; [|done]. by exists (bef, aft), g.
  - destruct (at_eol fl (bef, aft)) eqn:E; [|done]. by exists (bef, aft), g.
Qed.

Lemma m_complete r : ∀ c g c' g' g0 k,
  Matches fl r c g c' g' → (∀ g1, is_Some (k c' g1)) → is_Some (m fl r c g0 k).
Proof.
  induction r as [|cs|s|r1 IH1 r2 IH2|r1 IH1 r2 IH2|cs mn mx gr|n r IH|r IH| |];
    intros c g c' g' g0 k HM Hk; simpl in HM |- *.
  - destruct HM as [-> _]. apply Hk.
  - destruct HM as (a & HC & Hin & _). consumes_inv HC c c'.
    rewrite Hin. apply Hk.
  - destruct HM as (HC & _). consumes_inv HC c c'.
    rewrite strip_prefix_app. apply Hk.
  - destruct HM as (c1 & g1 & HM1 & HM2).
    eapply IH1; [exact HM1|]. intros g2. eapply IH2; [exact HM2 | exact Hk].
  - destruct HM as [HM|HM].
    + destruct (IH1 _ _ _ _ g0 k HM Hk) as [x ->]. eauto.
    + destruct (m fl r1 c g0 k); [eauto|]. by eapply IH2.
  - destruct HM as (l & HC & Hall & Hmn & Hmx & _).
    consumes_inv HC c c'.
    apply rep_complete; auto.
  - destruct HM as (g1 & HM & _). eapply IH; [exact HM|]. intros g2. apply Hk.
  - destruct HM as (c1 & HM & ->).
    destruct (IH _ _ _ _ g0 (λ c1 g1, Some (c1, g1)) HM) as [[c2 g2] ->]; [eauto|].
    apply Hk.
  - destruct HM as (-> & -> & _). apply Hk.
  - destruct HM as (-> & -> & _). apply Hk.
Qed.

Lemma Matches_consumes r : ∀ c g c' g',
  Matches fl r c g c' g' → ∃ l, Consumes l c c'.
Proof.
  induction r as [|cs|s|r1 IH1 r2 IH2|r1 IH1 r2 IH2|cs mn mx gr|n r IH|r IH| |];
    intros c g c' g' HM; simpl in HM.
  - destruct HM as [-> _]. exists []. apply Consumes_nil.
  - destruct HM as (a & HC & _). by exists [a].
  - destruct HM as (HC & _). by exists s.
  - destruct HM as (c1 & g1 & HM1 & HM2).
    destruct (IH1 _ _ _ _ HM1) as [l1 H1]. destruct (IH2 _ _ _ _ HM2) as [l2 H2].
    exists (l1 ++ l2). by eapply Consumes_app.
  - destruct HM as [HM|HM]; eauto.
  - destruct HM as (l & HC & _). by exists l.
  - destruct HM as (g1 & HM & _). eauto.
  - destruct HM as (c1 & _ & ->). exists []. apply Consumes_nil.
  - destruct HM as (_ & -> & _). exists []. apply Consumes_nil.
  - destruct HM as (_ & -> & _). exists []. apply Consumes_nil.
Qed.
End MatcherFacts.

(** *** One match *)

Lemma match_here_sound p c adv c' g' :
  match_here p c adv = Some (c', g') →
  Matches (p_flags p) (p_re p) c (no_marks p) c' g'
  ∧ (adv = true → pos c' ≠ pos c).
Proof.
  unfold match_here. intros H. apply m_sound in H as (c1 & g1 & HM & Hk).
  unfold accept in Hk. destruct (adv && (pos c1 =? pos c)) eqn:E; [done|].
  injection Hk as -> ->. split; [done|]. intros ->. simpl in E.
  by apply Nat.eqb_neq in E.
Qed.

Lemma match_here_complete p c c' g' :
  Matches (p_flags p) (p_re p) c (no_marks p) c' g' →
  is_Some (match_here p c false).
Proof.
  intros HM. unfold match_here. eapply m_complete; [exact HM|].
  intros g1. unfold accept. simpl. eauto.
Qed.

(** *** The scan *)

Lemma scan_Some p bef aft adv st res :
  scan p bef aft adv = Some (st, res) →
  ∃ l aft1, aft = l ++ aft1 ∧ st = length bef + length l
    ∧ match_here p (rev l ++ bef, aft1) (adv && bool_decide (l = [])) = Some res
    ∧ ∀ l1 l2, l = l1 ++ l2 → l2 ≠ [] →
        match_here p (rev l1 ++ bef, l2 ++ aft1) (adv && bool_decide (l1 = [])) = None.
Proof.
  revert bef adv. induction aft as [|a aft IH]; intros bef adv H; simpl in H.
  - destruct (match_here p (bef, []) adv) as [r|] eqn:E; [|done].
    injection H as <- <-. exists [], []. simpl. rewrite andb_true_r, Nat.add_0_r.
    split_and!; try done. intros l1 l2 Hl. by destruct l1, l2.
  - destruct (match_here p (bef, a :: aft) adv) as [r|] eqn:E.
    + injection H as <- <-. exists [], (a :: aft). simpl.
      rewrite andb_true_r, Nat.add_0_r.
      split_and!; try done. intros l1 l2 Hl. by destruct l1, l2.
    + destruct (IH _ _ H) as (l & aft1 & -> & -> & Hm & Hmin).
      exists (a :: l), aft1. simpl. rewrite <- app_assoc. simpl in Hm |- *.
      rewrite andb_false_r. split_and!; [done | lia | done |].
      intros l1 l2 Hl Hne. destruct l1 as [|b l1]; simpl in *.
      * subst l2. by rewrite andb_true_r.
      * injection Hl as <- ->. rewrite andb_false_r, <- app_assoc.
        by apply (Hmin l1 l2).
Qed.

Lemma scan_None p bef aft adv :
  scan p bef aft adv = None →
  ∀ l aft1, aft = l ++ aft1 →
    match_here p (rev l ++ bef, aft1) (adv && bool_decide (l = [])) = None.
Proof.
  revert bef adv. induction aft as [|a aft IH]; intros bef adv H l aft1 Hl; simpl in H.
  - destruct (match_here p (bef, []) adv) eqn:E; [done|].
    destruct l, aft1; try done. simpl. by rewrite andb_true_r.
  - destruct (match_here p (bef, a :: aft) adv) eqn:E; [done|].
    destruct l as [|b l]; simpl in *.
    + subst aft1. by rewrite andb_true_r.
    + injection Hl as <- ->. rewrite andb_false_r, <- app_assoc.
      by apply (IH _ _ H l aft1).
Qed.

Section MatcherFacts2.
Variable fl : flags.

Lemma Matches_min_len r c g c' g' :
  Matches fl r c g c' g' → pos c + min_len r ≤ pos c'.
Proof.
  revert c g c' g'.
  induction r as [|cs|s|r1 IH1 r2 IH2|r1 IH1 r2 IH2|cs mn mx gr|n r IH|r IH| |];
    intros c g c' g' HM; simpl in HM |- *.
  - destruct HM as [-> _]. lia.
  - destruct HM as (a & HC & _). apply Consumes_pos in HC. simpl in HC. lia.
  - destruct HM as (HC & _). apply Consumes_pos in HC. lia.
  - destruct HM as (c1 & g1 & HM1 & HM2).
    apply IH1 in HM1. apply IH2 in HM2. lia.
  - destruct HM as [HM|HM]; [apply IH1 in HM | apply IH2 in HM]; lia.
  - destruct HM as (l & HC & _ & Hmn & _). apply Consumes_pos in HC. lia.
  - destruct HM as (g1 & HM & _). by apply IH in HM.
  - destruct HM as (c1 & _ & ->). lia.
  - destruct HM as (_ & -> & _). lia.
  - destruct HM as (_ & -> & _). lia.
Qed.

Lemma is_set_insert g i n span :
  is_set g n → is_set (<[i := Some span]> g) n.
Proof.
  intros [sp H]. unfold is_set.
  destruct (decide (i = Nat.pred n)) as [->|Hne].
  - exists span. apply list_lookup_insert_eq. by eapply lookup_lt_Some.
  - exists sp. by rewrite list_lookup_insert_ne.
Qed.

Lemma Matches_marks r c g c' g' :
  Matches fl r c g c' g' →
  length g' = length g
  ∧ (∀ n, is_set g n → is_set g' n)
  ∧ (∀ n, 1 ≤ n ≤ length g → sets_group n r = true → is_set g' n).
Proof.
  revert c g c' g'.
  induction r as [|cs|s|r1 IH1 r2 IH2|r1 IH1 r2 IH2|cs mn mx gr|n r IH|r IH| |];
    intros c g c' g' HM; simpl in HM |- *.
  - by destruct HM as [_ ->].
  - by destruct HM as (a & _ & _ & ->).
  - by destruct HM as (_ & ->).
  - destruct HM as (c1 & g1 & HM1 & HM2).
    destruct (IH1 _ _ _ _ HM1) as (Hl1 & Hk1 & Hs1).
    destruct (IH2 _ _ _ _ HM2) as (Hl2 & Hk2 & Hs2).
    split_and!; [congruence | auto |].
    intros n Hn [H|H]%orb_true_iff; [apply Hk2, Hs1 | apply Hs2]; auto; lia.
  - destruct HM as [HM|HM];
      [destruct (IH1 _ _ _ _ HM) as (Hl & Hk & Hs)
      |destruct (IH2 _ _ _ _ HM) as (Hl & Hk & Hs)];
      (split_and!; [done | done |]); intros n Hn [H1 H2]%andb_true_iff; auto.
  - by destruct HM as (l & _ & _ & _ & _ & ->).
  - destruct HM as (g1 & HM & ->).
    destruct (IH _ _ _ _ HM) as (Hl & Hk & Hs).
    split_and!.
    + by rewrite length_insert.
    + intros i Hi. by apply is_set_insert, Hk.
    + intros i Hi [H|H]%orb_true_iff.
      * apply Nat.eqb_eq in H as ->. eexists.
        apply list_lookup_insert_eq. lia.
      * by apply is_set_insert, Hs.
  - destruct HM as (c1 & HM & _). by apply IH in HM.
  - by destruct HM as (_ & _ & ->).
  - by destruct HM as (_ & _ & ->).
Qed.
End MatcherFacts2.

Lemma scan_span p bef aft adv st c' g' :
  scan p bef aft adv = Some (st, (c', g')) →
  ∃ l l', aft = l ++ l' ++ c'.2 ∧ c'.1 = rev l' ++ rev l ++ bef
    ∧ st = length bef + length l
    ∧ Matches (p_flags p) (p_re p) (rev l ++ bef, l' ++ c'.2) (no_marks p) c' g'
    ∧ (adv = true → l = [] → l' ≠ []).
Proof.
  intros H. apply scan_Some in H as (l & aft1 & -> & -> & Hm & _).
  apply match_here_sound in Hm as [HM Hadv].
  destruct (Matches_consumes _ _ _ _ _ _ HM) as [l' HC].
  pose proof (Consumes_pos _ _ _ HC) as Hpos.
  destruct c' as [bef' aft']. destruct HC as [HC1 HC2]. simpl in *. subst.
  exists l, l'. split_and!; try done.
  intros -> -> ->. simpl in *. apply Hadv; [done|]. unfold pos in *. simpl in *. lia.
Qed.

Lemma scan_rounds p c adv r :
  scan p c.1 c.2 adv = Some r →
  rounds_left r.2.1 (pos r.2.1 =? r.1) < rounds_left c adv.
Proof.
  destruct r as [st [c' g']], c as [bef aft]. simpl. intros H.
  apply scan_span in H as (l & l' & -> & Hbef & -> & _ & Hadv).
  unfold rounds_left, pos. simpl. rewrite Hbef, !length_app, !length_rev.
  destruct l as [|a l], l' as [|b l']; simpl; try (case_match; lia).
  rewrite (Nat.add_0_r (length bef)), Nat.eqb_refl. destruct adv; [|lia].
  by destruct Hadv.
Qed.

Lemma matches_loop_run p s fuel : ∀ limit c adv,
  rounds_left c adv < fuel → Run p s limit c adv (matches_loop fuel p s limit c adv).
Proof.
  induction fuel as [|fuel IH]; intros limit c adv Hlt; [lia|].
  simpl. destruct (can_more limit) eqn:El; [|by apply Run_limit].
  destruct (scan p c.1 c.2 adv) as [r|] eqn:E; [|by apply Run_done].
  apply Run_step; [done | done |]. apply IH.
  pose proof (scan_rounds _ _ _ _ E). lia.
Qed.

Lemma matches_upto_run p limit s :
  Run p s limit ([], s) false (matches_upto p limit s).
Proof. apply matches_loop_run. unfold rounds_left. simpl. lia. Qed.

Lemma Run_Found p s limit c adv ms :
  Run p s limit c adv ms → subject c = s → Forall (Found p s) ms.
Proof.
  induction 1 as [| |limit c adv [st [c' g']] ms Hl Hs _ IH]; intros Hsub;
    [by apply Forall_nil | by apply Forall_nil |].
  destruct c as [bef aft]. simpl in *.
  apply scan_span in Hs as (l & l' & -> & Hbef & -> & HM & _).
  destruct c' as [bef' aft']. simpl in *. subst bef'.
  unfold subject in Hsub. simpl in Hsub.
  apply Forall_cons. split.
  - exists (rev bef ++ l), l', aft'. unfold mk_match, pos. simpl.
    rewrite !length_app, !length_rev, rev_app_distr, rev_involutive, <- !app_assoc.
    split_and!; try done; try lia.
  - apply IH. unfold subject. simpl.
    by rewrite !rev_app_distr, !rev_involutive, <- !app_assoc.
Qed.

Lemma finditer_Found p s : Forall (Found p s) (finditer p s).
Proof. eapply Run_Found; [apply matches_upto_run | done]. Qed.

(** With [maxsplit=1] the loop is one scan from the start of the text. *)
Lemma matches_upto_1 p s :
  matches_upto p (Some 1) s =
  match scan p [] s false with
  | None => []
  | Some r => [mk_match s r]
  end.
Proof.
  unfold matches_upto.
  replace (2 * length s + 2) with (S (S (2 * length s))) by lia.
  simpl. by destruct (scan p [] s false).
Qed.

(** * The title-block segmenter *)

Ltac break :=
  repeat match goal with
  | H : ∃ _, _ |- _ => destruct H as [? H]
  | H : _ ∧ _ |- _ => destruct H as [? ?]
  | H : _ ∨ _ |- _ => destruct H as [H|H]
  end.

Ltac cursors :=
  repeat match goal with
  | c : (str * str)%type |- _ => destruct c as [?bef ?aft]
  end;
  unfold Consumes in *; simpl fst in *; simpl snd in *; break; simplify_eq.

Lemma Forall_forallb (f : ascii → bool) g l :
  (∀ a, g a = f a) → Forall (λ a, g a = true) l ↔ forallb f l = true.
Proof.
  intros Hfg. induction l as [|a l IH]; simpl.
  - by rewrite Forall_nil.
  - rewrite Forall_cons, andb_true_iff, IH, Hfg. done.
Qed.

Lemma upper_mem fl a : cset_mem fl (OneOf [rg "A" "Z"]) a = is_upper a.
Proof. simpl. by rewrite orb_false_r. Qed.

Lemma title_char_mem fl a : cset_mem fl (OneOf [Space; Word]) a = is_title_char a.
Proof. simpl. by rewrite orb_false_r. Qed.

Lemma space_mem fl a : cset_mem fl (One Space) a = is_space a.
Proof. done. Qed.

Lemma at_bol_start (fl : flags) pre post :
  MULTILINE fl = false → at_bol fl (rev pre, post) = true → pre = [].
Proof.
  unfold at_bol. simpl. intros ->. destruct (rev pre) eqn:E; [|done].
  intros _. by rewrite <- (rev_involutive pre), E.
Qed.

Lemma BLOCK_RE_here pre post :
  is_Some (match_here BLOCK_RE (rev pre, post) false)
  ↔ title_boundary (pre ++ post) (length pre).
Proof.
  split.
  - intros [[c' g'] H]. apply match_here_sound in H as [H _].
    unfold BLOCK_RE in H. cbn [p_re p_flags Cat Alts] in H.
    cbn [Matches TITLE_RE star star_lazy] in H.
    break; cursors;
      repeat match goal with
      | H : at_bol _ _ = true |- _ => apply at_bol_start in H; [subst pre | done]
      | H : Forall _ _ |- _ =>
          first [ rewrite (Forall_forallb _ _ _ (title_char_mem _)) in H
                | rewrite (Forall_forallb _ _ _ (space_mem _)) in H ]
      | H : cset_mem _ (OneOf [rg _ _]) _ = true |- _ => rewrite upper_mem in H
      end;
      match goal with
      | |- title_boundary (?pre ++ ?nl ++ [?u] ++ ?tail ++ ?ws1 ++ _ ++ ?ws2 ++ _ ++ ?rest) _ =>
          exists pre, nl, u, tail, ws1, ws2, rest
      | |- title_boundary (?pre ++ [?u] ++ ?tail ++ ?ws1 ++ _ ++ ?ws2 ++ _ ++ ?rest) _ =>
          exists pre, [], u, tail, ws1, ws2, rest
      end; simpl in *; split_and!; auto.
  - intros (pre' & nl & u & tail & ws1 & ws2 & rest & Hs & Hlen & Hnl & Hu & Ht & Htail & Hws1 & Hws2).
    apply app_inj_1 in Hs as [<- ->]; [|done].
    set (content := [NL] ++ rest).
    eapply (match_here_complete BLOCK_RE _
              (rev content ++ rev ws2 ++ rev (txt ":") ++ rev ws1 ++ rev tail
                 ++ rev [u] ++ rev nl ++ rev pre, [])).
    unfold BLOCK_RE. cbn [p_re p_flags Cat Alts].
    cbn [Matches TITLE_RE star star_lazy].
    eexists (rev nl ++ rev pre, [u] ++ tail ++ ws1 ++ txt ":" ++ ws2 ++ content), _.
    split.
    { destruct Hnl as [[-> ->]|[[-> ->]| ->]].
      - left. by split_and!.
      - right. left. eexists (_, _), _. split; [by split_and! | by split ].
      - right. right. by split. }
    eexists (rev tail ++ rev [u] ++ rev nl ++ rev pre, ws1 ++ txt ":" ++ ws2 ++ content), _.
    split.
    { eexists. split; [|done].
      eexists (rev [u] ++ rev nl ++ rev pre, tail ++ ws1 ++ txt ":" ++ ws2 ++ content), _.
      split.
      - exists u. split_and!; try done. by rewrite upper_mem.
      - exists tail. split_and!; try done; try (simpl; lia).
        by apply (Forall_forallb _ _ _ (title_char_mem _)). }
    eexists (rev ws1 ++ _, txt ":" ++ ws2 ++ content), _. split.
    { exists ws1. split_and!; try done; try (simpl; lia).
      by apply (Forall_forallb _ _ _ (space_mem _)). }
    eexists (rev (txt ":") ++ _, ws2 ++ content), _. split; [by split_and!|].
    eexists (rev ws2 ++ _, content), _. split.
    { exists ws2. split_and!; try done; try (simpl; lia).
      by apply (Forall_forallb _ _ _ (space_mem _)). }
    eexists (_, _), _. split.
    { eexists (_, _). split; [split; [by split | done] | done]. }
    eexists (rev content ++ _, []), _. split.
    { eexists. split; [|done]. exists content.
      split; [split; [simpl; by rewrite app_nil_r | done] |].
      split_and!; try done; try (simpl; lia). by apply Forall_forall. }
    eexists (_, _). split; [|simpl; rewrite <- ?app_assoc; done]. right. by split_and!.
Qed.

(** *** The scan of BLOCK_RE *)

Lemma BLOCK_RE_scan_Some s r :
  scan BLOCK_RE [] s false = Some r →
  title_boundary s r.1 ∧ ∀ j, j < r.1 → ¬ title_boundary s j.
Proof.
  destruct r as [st res]. intros H.
  apply scan_Some in H as (l & aft1 & -> & -> & Hm & Hmin). cbn [andb fst length] in *.
  rewrite app_nil_r in Hm. split.
  - apply BLOCK_RE_here. eauto.
  - intros j Hj Hb.
    assert (l = take j l ++ drop j l) as Hl by by rewrite take_drop.
    assert (drop j l ≠ []) as Hne.
    { intros E%(f_equal length). rewrite length_drop in E. simpl in E. lia. }
    specialize (Hmin _ _ Hl Hne). cbn [andb] in Hmin. rewrite app_nil_r in Hmin.
    assert (is_Some (match_here BLOCK_RE (rev (take j l), drop j l ++ aft1) false))
      as [x Hx]; [|congruence].
    apply BLOCK_RE_here. rewrite app_assoc, take_drop, length_take.
    by replace (j `min` length l) with j by lia.
Qed.

Lemma BLOCK_RE_scan_None s :
  scan BLOCK_RE [] s false = None ↔ ∀ i, ¬ title_boundary s i.
Proof.
  split.
  - intros H i Hb. pose proof Hb as (pre & nl & u & tail & ws1 & ws2 & rest & Hs & <- & _).
    rewrite Hs in H, Hb. apply BLOCK_RE_here in Hb as [x Hx].
    pose proof (scan_None _ _ _ _ H pre _ eq_refl) as Hn. cbn [andb] in Hn.
    rewrite app_nil_r in Hn. congruence.
  - intros H. destruct (scan BLOCK_RE [] s false) as [r|] eqn:E; [|done].
    apply BLOCK_RE_scan_Some in E as [Hb _]. by destruct (H _ Hb).
Qed.

(** *** Pieces of a split *)

Lemma bind_Ok {A B} (a : A) (f : A → result B) : (Ok a ≫= f) = f a.
Proof. done. Qed.

Lemma texts_all_Some l :
  Forall is_Some l → ∃ ss, texts l = Ok ss ∧ length ss = length l.
Proof.
  induction 1 as [|o l [s ->] _ (ss & IH & Hlen)]; simpl.
  - by exists [].
  - rewrite IH. exists (s :: ss). simpl. by rewrite Hlen.
Qed.

Lemma splice_all_Some s (f : Match → list (option str)) ms : ∀ last,
  Forall (λ mo, Forall is_Some (f mo)) ms → Forall is_Some (splice s last ms Some f).
Proof.
  induction ms as [|mo ms IH]; intros last H; simpl.
  - apply Forall_cons. split; [eauto | apply Forall_nil; done].
  - apply Forall_cons in H as [H1 H2].
    apply Forall_cons. split; [eauto|]. apply Forall_app. split; [done | by apply IH].
Qed.

Lemma splice_length {B} s (gap : str → B) (f : Match → list B) n ms : ∀ last,
  Forall (λ mo, length (f mo) = n) ms →
  length (splice s last ms gap f) = 1 + (1 + n) * length ms.
Proof.
  induction ms as [|mo ms IH]; intros last H; simpl; [lia|].
  apply Forall_cons in H as [H1 H2]. rewrite length_app, H1, (IH _ H2). lia.
Qed.

Lemma Found_group p s mo n :
  Found p s mo → 1 ≤ n ≤ ngroups (p_re p) → sets_group n (p_re p) = true →
  is_Some (group mo n).
Proof.
  intros (pre & l & post & _ & _ & _ & _ & HM) Hn Hs.
  apply Matches_marks in HM as (_ & _ & Hset).
  destruct (Hset n) as [[i j] Hij]; [by unfold no_marks; rewrite length_replicate | done |].
  unfold group. rewrite Hij. eauto.
Qed.

Lemma Found_groups p s mo :
  Found p s mo →
  forallb (λ n, sets_group n (p_re p)) (seq 1 (ngroups (p_re p))) = true →
  Forall is_Some (map (group mo) (seq 1 (ngroups (p_re p)))).
Proof.
  intros HF Hall. apply Forall_map, Forall_forall. intros n Hn.
  rewrite forallb_forall in Hall.
  apply list_elem_of_In in Hn. pose proof (Hall _ Hn) as Hs.
  apply in_seq in Hn. simpl. eapply Found_group; eauto. lia.
Qed.

Lemma re_split_texts p s maxsplit :
  forallb (λ n, sets_group n (p_re p)) (seq 1 (ngroups (p_re p))) = true →
  ∃ ss (ms : list Match), texts (re_split p s maxsplit) = Ok ss
    ∧ length ss = 1 + (1 + ngroups (p_re p)) * length ms.
Proof.
  intros Hall. unfold re_split.
  set (limit := match maxsplit with 0 => None | S _ => Some maxsplit end).
  pose proof (Run_Found _ _ _ _ _ _ (matches_upto_run p limit s) eq_refl) as HF.
  destruct (texts_all_Some (splice s 0 (matches_upto p limit s) Some
              (λ mo, map (group mo) (seq 1 (ngroups (p_re p)))))) as (ss & Hss & Hlen).
  { apply splice_all_Some. eapply Forall_impl; [exact HF|].
    intros mo Hmo. by apply (Found_groups p s). }
  exists ss, (matches_upto p limit s). split; [done|]. rewrite Hlen.
  apply splice_length. apply Forall_forall. intros mo _.
  by rewrite length_map, length_seq.
Qed.

Lemma _pairs_even {A} (items : list A) n :
  length items = 2 * n → ∃ ps, _pairs items = Ok ps.
Proof.
  intros H. unfold _pairs. rewrite H.
  replace (2 * n) with (n * 2) by lia. rewrite Nat.Div0.mod_mul. simpl. eauto.
Qed.

Lemma ITEM_RE_split content :
  ∃ text rest items,
    texts (re_split ITEM_RE content 0) = Ok (text :: rest)
    ∧ Nat.Even (length rest) ∧ _pairs rest = Ok items.
Proof.
  destruct (re_split_texts ITEM_RE content 0 eq_refl) as (ss & ms & Hss & Hlen).
  destruct ss as [|text rest]; [simpl in Hlen; lia|].
  assert (length rest = 2 * length ms) as Hrest.
  { simpl in Hlen. change (ngroups (p_re ITEM_RE)) with 1 in Hlen. lia. }
  destruct (_pairs_even rest _ Hrest) as [items Hitems].
  exists text, rest, items. split_and!; try done. by exists (length ms).
Qed.

(** *** One round of [split_string] *)

Lemma slice_0 s j : slice s 0 j = take j s.
Proof. unfold slice. by rewrite Nat.sub_0_r. Qed.

Lemma re_split_once p s :
  re_split p s 1 =
  match scan p [] s false with
  | None => [Some s]
  | Some r =>
      Some (take r.1 s)
        :: map (group (mk_match s r)) (seq 1 (ngroups (p_re p)))
        ++ [Some (drop (pos r.2.1) s)]
  end.
Proof.
  unfold re_split. rewrite matches_upto_1.
  destruct (scan p [] s false); [|done]. simpl. by rewrite slice_0.
Qed.

Lemma split_step_None s :
  scan BLOCK_RE [] s false = None → split_step s = Ok ([Prose s], None).
Proof.
  intros H. unfold split_step. by rewrite re_split_once, H.
Qed.

Lemma split_step_Some s r :
  scan BLOCK_RE [] s false = Some r →
  ∃ tb, split_step s = Ok ([Prose (take r.1 s); Block tb], Some (drop (pos r.2.1) s)).
Proof.
  intros H. unfold split_step. rewrite re_split_once, H.
  assert (Found BLOCK_RE s (mk_match s r)) as HF.
  { pose proof (Run_Found _ _ _ _ _ _ (matches_upto_run BLOCK_RE (Some 1) s) eq_refl) as HF.
    rewrite matches_upto_1, H in HF. by apply Forall_cons in HF as [HF _]. }
  destruct (Found_group _ _ _ 1 HF) as [title Ht]; [simpl; lia | done |].
  destruct (Found_group _ _ _ 2 HF) as [content Hc]; [simpl; lia | done |].
  change (ngroups (p_re BLOCK_RE)) with 2. cbn [seq map app].
  rewrite Ht, Hc. cbn [texts]. rewrite !bind_Ok.
  destruct (ITEM_RE_split (textwrap.dedent content)) as (text & rest & items & Hi & _ & Hp).
  rewrite Hi, bind_Ok, Hp, bind_Ok. eauto.
Qed.

Lemma scan_BLOCK_RE_end s r :
  scan BLOCK_RE [] s false = Some r → r.1 ≤ length s ∧ r.1 + 2 ≤ pos r.2.1.
Proof.
  destruct r as [st [c' g']]. intros H.
  apply scan_span in H as (l & l' & -> & Hc & -> & HM & _).
  apply Matches_min_len in HM. unfold pos in *. simpl in *.
  rewrite length_app. split; [lia|].
  rewrite app_nil_r, length_rev in HM. lia.
Qed.

Lemma split_string_loop_total fuel : ∀ parts s,
  length s ≤ fuel → ∃ parts', split_string_loop fuel parts s = Ok parts'.
Proof.
  induction fuel as [|fuel IH]; intros parts s Hlen.
  - destruct s; [by eexists | simpl in Hlen; lia].
  - destruct s as [|a s]; [by eexists|].
    cbn [split_string_loop].
    destruct (scan BLOCK_RE [] (a :: s) false) as [r|] eqn:E.
    + destruct (split_step_Some _ _ E) as [tb ->]. rewrite bind_Ok. simpl snd.
      cbv iota. apply IH. rewrite length_drop.
      apply scan_BLOCK_RE_end in E. simpl in *. lia.
    + rewrite (split_step_None _ E), bind_Ok. simpl. eauto.
Qed.

(** * The compatibility extractor *)

Lemma startswith_true s p : startswith s p = true ↔ ∃ rest, s = p ++ rest.
Proof.
  unfold startswith. destruct (strip_prefix p s) as [rest|] eqn:E.
  - apply strip_prefix_Some in E. split; eauto.
  - split; [done|]. intros [rest ->]. by rewrite strip_prefix_app in E.
Qed.

Lemma contains_occurs needle hay : contains needle hay = true ↔ occurs needle hay.
Proof.
  induction hay as [|x hay IH].
  - simpl. destruct (startswith [] needle) eqn:E.
    + apply startswith_true in E as [rest E]. split; [|done]. intros _.
      by exists [], rest.
    + split; [done|]. intros (a & b & Hab).
      assert (startswith [] needle = true); [|congruence].
      apply startswith_true. exists b.
      symmetry in Hab. apply app_eq_nil in Hab as [-> Hab]. done.
  - simpl. destruct (startswith (x :: hay) needle) eqn:E.
    + apply startswith_true in E as [rest E]. split; [|done]. intros _.
      by exists [], rest.
    + rewrite IH. split.
      * intros (a & b & ->). by exists (x :: a), b.
      * intros (a & b & Hab). destruct a as [|y a].
        -- assert (startswith (x :: hay) needle = true); [|congruence].
           apply startswith_true. by exists b.
        -- injection Hab as -> ->. by exists a, b.
Qed.

Lemma contains_false needle hay :
  contains needle hay = false ↔ ¬ occurs needle hay.
Proof. rewrite <- contains_occurs. by destruct (contains needle hay). Qed.

(** *** The compatibility notes as a fold *)

Lemma fold_add_note_other ms : ∀ notes tag,
  Forall (λ f, group_text f 1 ≠ tag) ms →
  fold_left add_note ms notes !! tag = notes !! tag.
Proof.
  induction ms as [|f ms IH]; intros notes tag H; simpl; [done|].
  apply Forall_cons in H as [Hf Hms].
  rewrite (IH _ _ Hms). unfold add_note. by rewrite lookup_insert_ne.
Qed.

Lemma fold_add_note_last ms : ∀ notes j fj,
  ms !! j = Some fj →
  (∀ k fk, j < k → ms !! k = Some fk → group_text fk 1 ≠ group_text fj 1) →
  fold_left add_note ms notes !! group_text fj 1 = Some (group_text fj 2).
Proof.
  induction ms as [|f ms IH]; intros notes j fj Hj Hlater; [done|].
  destruct j as [|j]; simpl in *.
  - injection Hj as ->. rewrite fold_add_note_other.
    + unfold add_note. by rewrite lookup_insert_eq.
    + apply Forall_forall. intros fk Hk%list_elem_of_lookup. destruct Hk as [k Hk].
      apply (Hlater (S k)); [lia | done].
  - apply (IH _ j); [done|]. intros k fk Hk Hfk. apply (Hlater (S k)); [lia | done].
Qed.

Lemma fold_add_note_from ms : ∀ notes tag body,
  fold_left add_note ms notes !! tag = Some body →
  notes !! tag = Some body
  ∨ ∃ f, f ∈ ms ∧ group_text f 1 = tag ∧ group_text f 2 = body.
Proof.
  induction ms as [|f ms IH]; intros notes tag body H; simpl in *; [by left|].
  destruct (IH _ _ _ H) as [Hn|(f' & Hin & Hf')].
  - unfold add_note in Hn. destruct (decide (group_text f 1 = tag)) as [E|E].
    + rewrite E, lookup_insert_eq in Hn. injection Hn as <-.
      right. exists f. split; [by left | done].
    + rewrite lookup_insert_ne in Hn by done. by left.
  - right. exists f'. split; [by right | done].
Qed.

(** *** Every match returned by the loop comes from [match_here] *)

Lemma Run_MatchedAt p s limit c adv ms :
  Run p s limit c adv ms → subject c = s → Forall (MatchedAt p s) ms.
Proof.
  induction 1 as [| |limit c adv [st [c' g']] ms Hl Hs _ IH]; intros Hsub;
    [by apply Forall_nil | by apply Forall_nil |].
  destruct c as [bef aft]. simpl in *.
  pose proof Hs as (l & l' & -> & Hbef & _ & _ & _)%scan_span.
  apply scan_Some in Hs as (l0 & aft1 & Haft & -> & Hm & _).
  unfold subject in Hsub. simpl in Hsub.
  apply Forall_cons. split.
  - exists (rev bef ++ l0), aft1, (adv && bool_decide (l0 = [])), c'.
    unfold mk_match. simpl.
    rewrite length_app, length_rev, rev_app_distr, rev_involutive, <- app_assoc.
    split_and!; try done; try lia. by rewrite <- Haft.
  - apply IH. unfold subject. rewrite Hbef. simpl.
    by rewrite !rev_app_distr, !rev_involutive, <- !app_assoc.
Qed.

Lemma finditer_MatchedAt p s : Forall (MatchedAt p s) (finditer p s).
Proof. eapply Run_MatchedAt; [apply matches_upto_run | done]. Qed.

Lemma slice_app (a l b : str) : slice (a ++ l ++ b) (length a) (length a + length l) = l.
Proof.
  unfold slice. rewrite drop_app_length.
  replace (length a + length l - length a) with (length l) by lia.
  by rewrite take_app_length.
Qed.

(** *** The shape of a compatibility block *)

Lemma m_lazy_group fl n cs mx r bef aft g k res :
  m fl (Seq (Group n (Rep cs 0 mx false)) r) (bef, aft) g k = Some res →
  ∃ l aft', aft = l ++ aft'
    ∧ m fl r (rev l ++ bef, aft')
        (<[Nat.pred n := Some (length bef, length (rev l ++ bef))]> g) k = Some res
    ∧ ∀ l1 l2, l = l1 ++ l2 → l2 ≠ [] →
        m fl r (rev l1 ++ bef, l2 ++ aft')
          (<[Nat.pred n := Some (length bef, length (rev l1 ++ bef))]> g) k = None.
Proof. simpl. intros H. by apply rep_lazy_first in H. Qed.

Lemma m_Seq fl r1 r2 c g k :
  m fl (Seq r1 r2) c g k = m fl r1 c g (λ c1 g1, m fl r2 c1 g1 k).
Proof. done. Qed.

Lemma slice_mid (s a l b : str) i j :
  s = a ++ l ++ b → i = length a → j = length a + length l → slice s i j = l.
Proof. intros -> -> ->. apply slice_app. Qed.

Ltac lengths :=
  unfold pos; cbn [fst snd]; rewrite ?length_app, ?length_rev; cbn [length]; lia.

Lemma not_in_NoneOf fl a (l : str) :
  Forall (λ x, cset_mem fl (NoneOf [Ch a]) x = true) l → a ∉ l.
Proof.
  intros H Hin. rewrite Forall_forall in H. specialize (H _ Hin).
  simpl in H. by rewrite Ascii.eqb_refl in H.
Qed.

Lemma compat_shape pre post adv c' g' :
  match_here match_compatibility (rev pre, post) adv = Some (c', g') →
  ∃ ws1 tag ws2 body ws3 rest i1 j1 i2 j2,
    post = ws1 ++ OPEN_MARKER ++ tag ++ txt ")" ++ ws2 ++ [NL] ++ body
             ++ ws3 ++ CLOSE_MARKER ++ rest
    ∧ c'.2 = rest
    ∧ pos c' + length rest = length pre + length post
    ∧ g' = [Some (i1, j1); Some (i2, j2)]
    ∧ slice (pre ++ post) i1 j1 = tag
    ∧ slice (pre ++ post) i2 j2 = body
    ∧ tag ≠ [] ∧ (NL ∉ tag)
    ∧ ¬ occurs CLOSE_MARKER body.
Proof.
  unfold match_here, match_compatibility. cbn [p_re p_flags]. intros H.
  change (m F_DOTALL
            (Seq (Cat [ star (OneOf [Ch SP; Ch TAB]); Lit OPEN_MARKER;
                        Group 1 (plus_lazy (NoneOf [Ch NL]));
                        Lit (txt ")"); star (One Space); Lit [NL] ])
                 (Seq (Group 2 (Rep Dot 0 None false))
                      (Seq (star (OneOf [Ch SP; Ch TAB])) (Lit CLOSE_MARKER))))
            (rev pre, post) [None; None] (accept (length (rev pre)) adv) = Some (c', g')) in H.
  rewrite m_Seq in H. apply m_sound in H as ([bef6 aft6] & g6 & HM & H).
  apply m_lazy_group in H as (body & aft7 & -> & H & Hmin).
  apply m_sound in H as ([bef8 aft8] & g8 & HM2 & Hacc).
  unfold accept in Hacc. destruct (adv && _) eqn:Eadv in Hacc; [done|].
  injection Hacc as <- <-.
  cbn [Matches Cat star plus_lazy] in HM, HM2.
  break; cursors.
  match goal with
  | |- ∃ _ _ _ _ _ _ _ _ _ _, ?ws1 ++ _ ++ ?tag ++ _ ++ ?ws2 ++ _ ++ ?body ++ ?ws3 ++ _ ++ ?rest = _ ∧ _ =>
      exists ws1, tag, ws2, body, ws3, rest; rename ws1 into ws1', tag into tag', ws2 into ws2',
        ws3 into ws3', rest into rest'
  end.
  eexists _, _, _, _. split_and!; [done | done | lengths | done | | | | |].
  - eapply (slice_mid _ (pre ++ ws1' ++ OPEN_MARKER)); [by rewrite <- !app_assoc | lengths | lengths].
  - eapply (slice_mid _ (pre ++ ws1' ++ OPEN_MARKER ++ tag' ++ txt ")" ++ ws2' ++ [NL]));
      [by rewrite <- !app_assoc | lengths | lengths].
  - intros ->. simpl in *. lia.
  - by eapply not_in_NoneOf.
  - intros (a & b & ->).
    assert (CLOSE_MARKER ++ b ≠ []) as Hne by done.
    specialize (Hmin a (CLOSE_MARKER ++ b) eq_refl Hne).
    rewrite <- app_assoc in Hmin.
    match type of Hmin with
    | m ?fl ?r ?c ?g ?k = None =>
        assert (is_Some (m fl r c g k)) as [x Hx]; [|rewrite Hmin in Hx; done]
    end.
    eapply (m_complete _ _ _ [] (rev CLOSE_MARKER ++ _, _) []).
    + cbn [Matches star]. eexists (_, _), _. split.
      * exists []. by split_and!.
      * by split.
    + intros g1. unfold accept.
      match goal with
      | |- is_Some (if adv && (?a =? ?b) then _ else _) =>
          replace (a =? b) with false; [rewrite andb_false_r; eauto|]
      end.
      symmetry. apply Nat.eqb_neq. unfold pos. cbn [fst snd].
      rewrite ?length_app, ?length_rev. change (length CLOSE_MARKER) with 18. lia.
Qed.

Lemma compat_match s mo :
  MatchedAt match_compatibility s mo →
  ∃ a tag body b,
    s = a ++ CLOSE_MARKER ++ b
    ∧ m_end mo = length a + length CLOSE_MARKER
    ∧ group mo 1 = Some tag ∧ group mo 2 = Some body
    ∧ tag ≠ [] ∧ (NL ∉ tag) ∧ ¬ occurs CLOSE_MARKER body.
Proof.
  intros (pre & post & adv & c' & -> & Hs & Hst & Hend & Hm).
  apply compat_shape in Hm
    as (ws1 & tag & ws2 & body & ws3 & rest & i1 & j1 & i2 & j2
        & Hpost & Hrest & Hpos & Hg & Htag & Hbody & Hne & Hnl & Hocc).
  exists (pre ++ ws1 ++ OPEN_MARKER ++ tag ++ txt ")" ++ ws2 ++ [NL] ++ body ++ ws3),
    tag, body, rest.
  unfold group. rewrite Hg, Hs. cbn [lookup list_lookup Nat.pred].
  rewrite Htag, Hbody. split_and!; try done.
  - rewrite Hpost. by rewrite <- !app_assoc.
  - rewrite Hend. rewrite Hpost in Hpos. revert Hpos.
    rewrite !length_app. lia.
Qed.

(** * Text after the last close marker *)

Section Extension.
Variable suf : str.
Variable fl : flags.





End Extension.

Lemma scan_unfold p bef aft adv :
  scan p bef aft adv =
  match match_here p (bef, aft) adv with
  | Some res => Some (length bef, res)
  | None =>
      match aft with
      | [] => None
      | a :: aft' => scan p (a :: bef) aft' false
      end
  end.
Proof. by destruct aft. Qed.

Lemma Run_det p s limit c adv ms1 ms2 :
  Run p s limit c adv ms1 → Run p s limit c adv ms2 → ms1 = ms2.
Proof.
  intros H1. revert ms2.
  induction H1 as [limit c adv Hl|limit c adv Hl Hs|limit c adv r ms Hl Hs _ IH];
    intros ms2 H2; inversion H2; subst; try congruence.
  assert (r0 = r) as -> by congruence. f_equal. by apply IH.
Qed.








(** *** A dangling open marker *)

Section Dangling.
Variable suf : str.
Hypothesis suf_at : ∃ rest, suf = "@"%char :: rest.
Hypothesis suf_open : ¬ occurs CLOSE_MARKER suf.


Lemma m_Lit fl s bef aft g k :
  m fl (Lit s) (bef, aft) g k =
  match strip_prefix s aft with
  | Some aft' => k (rev s ++ bef, aft') g
  | None => None
  end.
Proof. done. Qed.









End Dangling.

(** ** The claims *)

(** C1 (as claimed).  The parse of the P2 docstring is not the block
    sequence that the specification gives: the code returns three parts,
    not two. *)
Lemma C1_claimed_blocks_differ : parse_md_docstring P2_docstring ≠ Ok P2_claimed.
Proof.
  intros H.
  apply (f_equal (λ r, match r with Ok d => length (docstring_parts d) | _ => 0 end)) in H.
  vm_compute in H. discriminate.
Qed.

(** C1 (amended).  For the P2 docstring the parse yields brief
    ["Computes max."] and exactly the parts [Prose ""], the title block
    [Args] with leading text ["\n"] and items [("x", "input value.\n")],
    [("y", "another.\n")], and [Prose "\nDone.\n"]: the text before the
    title is kept as an empty part, and the pieces keep their line breaks. *)
Theorem C1_parse_P2 : parse_md_docstring P2_docstring = Ok P2_parsed.
Proof. vm_compute. reflexivity. Qed.

(** C2.  The fencing pass is not idempotent: it puts fences around an
    interactive example, and applied to its own output it fences the
    example, which now stands between fences, a second time. *)
Theorem C2_fenced_example_fenced_again :
  _AddDoctestFences plain_example = fenced_example
  ∧ _AddDoctestFences fenced_example = twice_fenced_example
  ∧ _AddDoctestFences (_AddDoctestFences plain_example)
    ≠ _AddDoctestFences plain_example.
Proof.
  assert (_AddDoctestFences plain_example = fenced_example) as H1
    by (vm_compute; reflexivity).
  assert (_AddDoctestFences fenced_example = twice_fenced_example) as H2
    by (vm_compute; reflexivity).
  split_and!; [exact H1 | exact H2 |]. rewrite H1, H2. vm_compute. discriminate.
Qed.

(** C3 (as claimed).  An indented title line at the start of the text
    meets the boundary condition of the specification, but the segmenter
    finds no boundary in the text. *)
Lemma C3_indented_title_not_a_boundary :
  spec_title_boundary indented_title 0
  ∧ split_step indented_title = Ok ([Prose indented_title], None).
Proof.
  split.
  - exists [], [], (txt "  "), "A"%char, (txt "rgs"), [], [], (txt "  x: 1").
    split_and!; try (vm_compute; reflexivity); [by left | simpl; lia].
  - vm_compute. reflexivity.
Qed.

(** C3 (amended).  In every round of the segmenter's loop, a title block
    is cut at position [i] of the text that is left exactly when [i] is the
    first position with a title boundary: at the start of the text, after a
    line break that starts the text, or after two line breaks, there is an
    upper-case letter followed by at most 20 white-space or word
    characters, white space, a colon, white space and a line break.  No
    white space may stand between the line breaks and the upper-case
    letter. *)
Theorem C3_title_boundary (docstring : str) (i : nat) :
  (∃ before b rest,
     split_step docstring = Ok ([Prose before; Block b], Some rest)
     ∧ length before = i)
  ↔ (title_boundary docstring i ∧ ∀ j, j < i → ¬ title_boundary docstring j).
Proof.
  destruct (scan BLOCK_RE [] docstring false) as [r|] eqn:E.
  - pose proof (BLOCK_RE_scan_Some _ _ E) as [Hb Hmin].
    destruct (split_step_Some _ _ E) as [tb Hstep].
    pose proof (scan_BLOCK_RE_end _ _ E) as [Hle _].
    assert (length (take r.1 docstring) = r.1) as Hlen
      by (rewrite length_take; lia).
    split.
    + intros (before & b & rest & H & <-). rewrite Hstep in H.
      injection H as <- _ _. by rewrite Hlen.
    + intros [Hi Hleast]. exists (take r.1 docstring), tb, (drop (pos r.2.1) docstring).
      split; [done|]. rewrite Hlen.
      destruct (Nat.lt_trichotomy r.1 i) as [Hlt|[Heq|Hgt]]; [|done|].
      * by destruct (Hleast _ Hlt).
      * by destruct (Hmin _ Hgt).
  - rewrite (split_step_None _ E). rewrite BLOCK_RE_scan_None in E. split.
    + by intros (before & b & rest & H & _).
    + intros [Hi _]. by destruct (E i).
Qed.

(** C4 (as claimed).  A docstring with the generated-file phrase and a
    compatibility block: the mapping that is returned is not empty. *)
Lemma C4_generated_keeps_notes :
  contains GENERATED_BY generated_with_note = true
  ∧ ∃ d, parse_md_docstring generated_with_note = Ok d
         ∧ compatibility d !! txt "numpy" = Some (lines ["Same as np.max."; ""]).
Proof.
  split; [vm_compute; reflexivity|].
  eexists. split; [vm_compute; reflexivity|]. vm_compute. reflexivity.
Qed.

(** C4 (amended).  The Compatibility Extractor runs before the check for
    the generated-file phrase.  When the text that the extractor leaves
    contains the phrase, the brief is empty and there are no parts, and the
    mapping is the one that the extractor has returned. *)
Theorem C4_suppression_after_extraction (raw_docstring : str) :
  let doc := join [NL] (filter (λ line, re_match atat_re line = None)
                               (split_on NL raw_docstring)) in
  contains GENERATED_BY (_handle_compatibility doc).1 = true →
  parse_md_docstring raw_docstring
  = Ok {| brief := []; docstring_parts := [];
          compatibility := (_handle_compatibility doc).2 |}.
Proof.
  intros doc H. unfold parse_md_docstring. fold doc.
  destruct (_handle_compatibility doc) as [docstring notes]. simpl in H.
  by rewrite H.
Qed.

Lemma C4_suppression_witness :
  parse_md_docstring generated_with_note
  = Ok {| brief := []; docstring_parts := [];
          compatibility :=
            (_handle_compatibility
               (join [NL] (filter (λ line, re_match atat_re line = None)
                                  (split_on NL generated_with_note)))).2 |}.
Proof.
  apply (C4_suppression_after_extraction generated_with_note).
  vm_compute. reflexivity.
Defined.

(** C5.  For every content of a title block, the pieces that are left
    after the leading text has been taken off the split at the item
    boundaries are even in number, so the assertion of [_pairs] holds; and
    [split_string] returns a list of parts for every docstring: neither
    the assertion nor any other failure is reached. *)
Theorem C5_pairing_never_fails :
  (∀ content, ∃ text rest items,
      texts (re_split ITEM_RE content 0) = Ok (text :: rest)
      ∧ Nat.Even (length rest) ∧ _pairs rest = Ok items)
  ∧ (∀ docstring, ∃ parts, split_string docstring = Ok parts).
Proof.
  split.
  - apply ITEM_RE_split.
  - intros docstring. by apply split_string_loop_total.
Qed.

(** C6 (as claimed).  The empty text has no title boundary, and the
    segmenter returns no block for it, not one. *)
Lemma C6_empty_text_no_block :
  (∀ i, ¬ title_boundary [] i) ∧ split_string [] = Ok [].
Proof.
  split; [|done]. by apply BLOCK_RE_scan_None.
Qed.

(** C6 (amended).  For every text without a title boundary the segmenter
    returns exactly one part, the text itself, when the text is not empty,
    and no part when it is empty. *)
Theorem C6_prose_only (docstring : str) :
  (∀ i, ¬ title_boundary docstring i) →
  split_string docstring
  = Ok (match docstring with [] => [] | _ :: _ => [Prose docstring] end).
Proof.
  intros H. apply BLOCK_RE_scan_None in H.
  destruct docstring as [|a s]; [done|].
  unfold split_string. simpl length. cbn [split_string_loop].
  by rewrite (split_step_None _ H).
Qed.

Lemma C6_prose_only_witness :
  split_string (txt "Plain text.") = Ok [Prose (txt "Plain text.")].
Proof.
  apply (C6_prose_only (txt "Plain text.")).
  apply BLOCK_RE_scan_None. vm_compute. reflexivity.
Defined.

(** C7.  When two compatibility blocks of a text carry the same tag and no
    later block carries it, the mapping has the body of the second block
    for that tag. *)
Theorem C7_last_tag_wins (doc : str) (i j : nat) (fi fj : Match) :
  finditer match_compatibility doc !! i = Some fi →
  finditer match_compatibility doc !! j = Some fj →
  i < j →
  group_text fi 1 = group_text fj 1 →
  (∀ k fk, j < k → finditer match_compatibility doc !! k = Some fk →
           group_text fk 1 ≠ group_text fj 1) →
  (_handle_compatibility doc).2 !! group_text fj 1 = Some (group_text fj 2).
Proof.
  intros _ Hj _ _ Hlater. simpl. by apply (fold_add_note_last _ _ j).
Qed.

Lemma C7_last_tag_wins_witness :
  (_handle_compatibility two_notes).2 !! txt "TensorFlow" = Some (lines ["second"; ""]).
Proof.
  pose (ms := finditer match_compatibility two_notes).
  assert (∃ fi fj, ms = [fi; fj] ∧ group_text fi 1 = txt "TensorFlow"
                   ∧ group_text fj 1 = txt "TensorFlow"
                   ∧ group_text fj 2 = lines ["second"; ""])
    as (fi & fj & Hms & Hi & Hj & Hb).
  { eexists _, _. split; [vm_compute; reflexivity|]. by vm_compute. }
  rewrite <- Hj, <- Hb.
  apply (C7_last_tag_wins two_notes 0 1 fi fj); fold ms; rewrite ?Hms; try done.
  - lia.
  - congruence.
  - intros k fk Hk Hl. apply lookup_lt_Some in Hl. simpl in Hl. lia.
Defined.

(** C8 (as claimed).  The body that is stored for tag [a] holds an open
    marker. *)
Lemma C8_body_with_open_marker :
  (_handle_compatibility nested_open).2 !! txt "a"
    = Some (lines ["@compatibility(b)"; "foo"; ""])
  ∧ contains OPEN_MARKER (lines ["@compatibility(b)"; "foo"; ""]) = true.
Proof. split; vm_compute; reflexivity. Qed.

(** C8 (amended).  No body in the mapping that the Compatibility Extractor
    returns contains the close marker [@end_compatibility]. *)
Theorem C8_no_close_marker_in_body (doc tag body : str) :
  (_handle_compatibility doc).2 !! tag = Some body →
  contains CLOSE_MARKER body = false.
Proof.
  simpl. intros H. apply fold_add_note_from in H as [H|(f & Hin & _ & Hbody)]; [done|].
  pose proof (finditer_MatchedAt match_compatibility doc) as HM.
  rewrite Forall_forall in HM. apply HM in Hin.
  apply compat_match in Hin as (a & t & b & rest & _ & _ & _ & Hg & _ & _ & Hocc).
  unfold group_text in Hbody. rewrite Hg in Hbody. simpl in Hbody. subst b.
  by apply contains_false.
Qed.

Lemma C8_no_close_marker_witness :
  contains CLOSE_MARKER (lines ["@compatibility(b)"; "foo"; ""]) = false.
Proof.
  apply (C8_no_close_marker_in_body nested_open (txt "a")).
  vm_compute. reflexivity.
Defined.




(** C10.  There is a text for which the segmenter returns a title block
    whose title contains a line break. *)
Theorem C10_title_over_two_lines :
  ∃ docstring parts b,
    split_string docstring = Ok parts ∧ Block b ∈ parts ∧ NL ∈ title b.
Proof.
  exists two_line_title. eexists _, _. split; [vm_compute; reflexivity|].
  split.
  - apply list_elem_of_In. right. left. reflexivity.
  - apply list_elem_of_In. vm_compute. right. left. reflexivity.
Qed.

(** * Further properties *)

(** * Pairing *)

Lemma _pairs_interleave {A} (ps : list (A * A)) : _pairs (interleave ps) = Ok ps.
Proof.
  unfold _pairs.
  assert (length (interleave ps) = 2 * length ps) as Hlen.
  { induction ps as [|[a b] ps IH]; simpl; [done|]. rewrite IH. lia. }
  rewrite Hlen. replace (2 * length ps) with (length ps * 2) by lia.
  rewrite Nat.Div0.mod_mul. simpl. f_equal. clear Hlen.
  induction ps as [|[a b] ps IH]; [done|].
  change (interleave ((a, b) :: ps)) with (a :: b :: interleave ps).
  change (every_other (a :: b :: interleave ps)) with (a :: every_other (interleave ps)).
  change (skipn 1 (a :: b :: interleave ps)) with (b :: interleave ps).
  replace (every_other (b :: interleave ps))
    with (b :: every_other (skipn 1 (interleave ps)))
    by (by destruct ps as [|[a' b'] ps]).
  simpl. by rewrite IH.
Qed.

Lemma interleave_even {A} (items : list A) n :
  length items = 2 * n → ∃ ps, items = interleave ps.
Proof.
  revert items. induction n as [|n IH]; intros items Hlen.
  - destruct items; [by exists [] | done].
  - destruct items as [|a [|b items]]; simpl in Hlen; try lia.
    destruct (IH items) as [ps ->]; [lia|]. by exists ((a, b) :: ps).
Qed.

(** X15.  [_pairs] returns the pairs [ps] exactly for the list that lays the
    pairs out one after the other: pairing and flattening are inverse to each
    other. *)
Theorem X15_pairs_round_trip {A} (items : list A) ps : _pairs items = Ok ps ↔ items = interleave ps.
Proof.
  split; [|intros ->; apply _pairs_interleave].
  intros H. pose proof H as H'. unfold _pairs in H'.
  destruct (length items mod 2 =? 0) eqn:E; [|done].
  apply Nat.eqb_eq in E.
  destruct (interleave_even items (length items / 2)) as [ps' ->].
  { pose proof (Nat.div_mod_eq (length items) 2). lia. }
  rewrite _pairs_interleave in H. by injection H as ->.
Qed.

(** * The parts that [split_string] returns *)

Ltac lengths' :=
  unfold pos; cbn [fst snd];
  repeat (rewrite length_app || rewrite length_rev); cbn [length]; lia.

Lemma BLOCK_RE_title s mo :
  MatchedAt BLOCK_RE s mo → ∃ t, group mo 1 = Some t ∧ title_shape t.
Proof.
  intros (pre & post & adv & c' & -> & Hs & _ & _ & Hm).
  apply match_here_sound in Hm as [H _].
  unfold BLOCK_RE in H. cbn [p_re p_flags Cat Alts] in H.
  cbn [Matches TITLE_RE star star_lazy] in H.
  unfold group. rewrite Hs.
  break; cursors.
  all: match goal with H : m_marks _ = _ |- _ => rewrite H; clear H end.
  all: change (no_marks _) with ([None; None] : marks).
  all: cbn [lookup list_lookup insert list_insert Nat.pred].
  all: eexists; split; [reflexivity|].
  all: match goal with
       | |- title_shape (slice ?s (pos (?b1, _)) (pos (rev ?tail ++ rev [?u] ++ ?b1, _))) =>
           erewrite (slice_mid s (rev b1) ([u] ++ tail));
             [ exists u, tail
             | rewrite ?rev_app_distr, ?rev_involutive, <- ?app_assoc; reflexivity
             | lengths' | lengths' ]
       end.
  all: match goal with
       | Hu : cset_mem _ (OneOf [rg _ _]) _ = true,
         Ht : Forall _ ?tail, Hw : within (Some 20) (length ?tail) |- _ =>
           split_and!;
             [ done | by rewrite <- (upper_mem F_DOTALL) | exact Hw
             | by apply (Forall_forallb _ _ _ (title_char_mem F_DOTALL)) ]
       end.
Qed.

Lemma name_char_mem (cs : cset) :
  cs ∈ [One (ch "*"); One (ch "'"); One (Ch DQUOTE); One Word;
        OneOf [Word; ch "."; ch "'"; Ch DQUOTE]] →
  ∀ a, cset_mem F_MULTILINE cs a = true → is_name_char a = true.
Proof.
  intros Hcs a. unfold is_name_char.
  repeat (apply elem_of_cons in Hcs as [->|Hcs]); [..|by apply elem_of_nil in Hcs];
    cbn [cset_mem citem_mem existsb ch];
    destruct (Ascii.eqb a "*"), (Ascii.eqb a "'"), (Ascii.eqb a DQUOTE),
      (is_word a), (Ascii.eqb a "."); done.
Qed.

Lemma forallb_name_chars cs l :
  cs ∈ [One (ch "*"); One (ch "'"); One (Ch DQUOTE); One Word;
        OneOf [Word; ch "."; ch "'"; Ch DQUOTE]] →
  Forall (λ a, cset_mem F_MULTILINE cs a = true) l →
  forallb is_name_char l = true.
Proof.
  intros Hcs H. apply forallb_forall. intros a Ha.
  rewrite Forall_forall in H. apply (name_char_mem cs Hcs), H.
  by apply list_elem_of_In.
Qed.

Lemma ITEM_RE_name s mo :
  MatchedAt ITEM_RE s mo → ∃ name, group mo 1 = Some name ∧ name_shape name.
Proof.
  intros (pre & post & adv & c' & -> & Hs & _ & _ & Hm).
  apply match_here_sound in Hm as [H _].
  unfold ITEM_RE in H. cbn [p_re p_flags Cat] in H.
  cbn [Matches star star_lazy opt] in H.
  unfold group. rewrite Hs.
  break; cursors.
  match goal with H : m_marks _ = _ |- _ => rewrite H; clear H end.
  change (no_marks _) with ([None] : marks).
  cbn [lookup list_lookup insert list_insert Nat.pred].
  eexists; split; [reflexivity|].
  match goal with
  | |- name_shape (slice ?s (pos (?b1, _))
                     (pos (rev ?l5 ++ rev [?w] ++ rev ?l4 ++ rev ?l3 ++ rev ?l2 ++ rev ?l1 ++ ?b1, _))) =>
      erewrite (slice_mid s (rev b1) (l1 ++ l2 ++ l3 ++ l4 ++ [w] ++ l5));
        [ | rewrite ?rev_involutive, <- ?app_assoc; reflexivity | lengths' | lengths' ]
  end.
  split.
  - intros E%(f_equal length). revert E. rewrite !length_app. simpl. lia.
  - rewrite !forallb_app. simpl.
    repeat match goal with
    | H : Forall (λ a, cset_mem _ ?cs a = true) ?l |- _ =>
        apply (forallb_name_chars cs) in H;
          [rewrite H | repeat (first [by left | right])]
    end.
    match goal with
    | H : cset_mem _ (One Word) _ = true |- _ =>
        apply (name_char_mem (One Word)) in H;
          [by rewrite H | repeat (first [by left | right])]
    end.
Qed.

Lemma splice_item_texts s ms : ∀ last,
  Forall (λ mo, is_Some (group mo 1)) ms →
  texts (splice s last ms Some (λ mo, [group mo 1]))
  = Ok (match ms with
        | [] => skipn last s
        | mo :: _ => slice s last (m_start mo)
        end :: interleave (item_pairs s ms)).
Proof.
  induction ms as [|mo ms IH]; intros last H; [done|].
  apply Forall_cons in H as [[name Hname] Hms].
  cbn [splice app texts item_pairs interleave].
  rewrite Hname, (IH _ Hms). unfold group_text. rewrite Hname. by destruct ms.
Qed.

(** The items of a title block are the groups of the matches of ITEM_RE in
    the dedented content, each with the text that follows it. *)
Lemma split_step_block s r :
  scan BLOCK_RE [] s false = Some r →
  ∃ t content text,
    group (mk_match s r) 1 = Some t ∧ title_shape t
    ∧ split_step s
      = Ok ([Prose (take r.1 s);
             Block {| title := t; text := text;
                      items := item_pairs content (finditer ITEM_RE content) |}],
            Some (drop (pos r.2.1) s)).
Proof.
  intros H. unfold split_step. rewrite re_split_once, H.
  pose proof (Run_Found _ _ _ _ _ _ (matches_upto_run BLOCK_RE (Some 1) s) eq_refl) as HF.
  pose proof (Run_MatchedAt _ _ _ _ _ _ (matches_upto_run BLOCK_RE (Some 1) s) eq_refl) as HM.
  rewrite matches_upto_1, H in HF, HM.
  apply Forall_cons in HF as [HF _]. apply Forall_cons in HM as [HM _].
  destruct (BLOCK_RE_title _ _ HM) as (t & Ht & Hshape).
  destruct (Found_group _ _ _ 2 HF) as [content Hc]; [simpl; lia | done |].
  change (ngroups (p_re BLOCK_RE)) with 2. cbn [seq map app].
  rewrite Ht, Hc. cbn [texts]. rewrite !bind_Ok.
  set (content' := textwrap.dedent content).
  unfold re_split. change (ngroups (p_re ITEM_RE)) with 1. cbn [seq map].
  fold (finditer ITEM_RE content').
  rewrite splice_item_texts.
  - rewrite bind_Ok, _pairs_interleave, bind_Ok. eauto 10.
  - eapply Forall_impl; [apply (finditer_Found ITEM_RE)|].
    intros mo Hmo. by apply (Found_group ITEM_RE content').
Qed.

Lemma item_pairs_names s ms :
  Forall (λ mo, name_shape (group_text mo 1)) ms →
  Forall (λ item, name_shape item.1) (item_pairs s ms).
Proof.
  induction 1 as [|mo ms Hmo _ IH]; simpl; [by apply Forall_nil|].
  by apply Forall_cons.
Qed.

Lemma ITEM_RE_items content :
  Forall (λ item, name_shape item.1) (item_pairs content (finditer ITEM_RE content)).
Proof.
  apply item_pairs_names.
  eapply Forall_impl; [apply (finditer_MatchedAt ITEM_RE)|].
  intros mo Hmo. destruct (ITEM_RE_name _ _ Hmo) as (name & Hg & Hn).
  unfold group_text. by rewrite Hg.
Qed.

Lemma split_string_loop_shape fuel : ∀ acc s parts,
  split_string_loop fuel acc s = Ok parts →
  ∃ l last,
    parts = acc ++ prose_block_pairs l ++ last
    ∧ (last = [] ∨ ∃ p, last = [Prose p])
    ∧ Forall (λ pb, block_shape pb.2) l.
Proof.
  induction fuel as [|fuel IH]; intros acc s parts H.
  - destruct s; [|done]. injection H as <-. exists [], []. rewrite !app_nil_r.
    split_and!; [done | by left | by apply Forall_nil].
  - destruct s as [|a s].
    { injection H as <-. exists [], []. rewrite !app_nil_r.
      split_and!; [done | by left | by apply Forall_nil]. }
    cbn [split_string_loop] in H.
    destruct (scan BLOCK_RE [] (a :: s) false) as [r|] eqn:E.
    + destruct (split_step_block _ _ E) as (t & content & text & _ & Ht & Hstep).
      rewrite Hstep, bind_Ok in H. cbn [fst snd] in H.
      apply IH in H as (l & last & -> & Hlast & Hl).
      eexists ((_, _) :: l), last. rewrite <- app_assoc. split_and!; [done | done |].
      apply Forall_cons. split; [|done]. split; [done|]. apply ITEM_RE_items.
    + rewrite (split_step_None _ E), bind_Ok in H. cbn [fst snd] in H.
      injection H as <-. exists [], [Prose (a :: s)].
      split_and!; [done | eauto | by apply Forall_nil].
Qed.

(** X17.  For every docstring, [split_string] returns prose and title blocks
    in turn, starting with prose, with at most one more prose part at the end;
    every title is an upper-case letter followed by at most 20 white-space or
    word characters, and every item name is non-empty and made of stars,
    quotes, word characters and dots. *)
Theorem X17_parts_alternate s :
  ∃ l last,
    split_string s = Ok (prose_block_pairs l ++ last)
    ∧ (last = [] ∨ ∃ p, last = [Prose p])
    ∧ Forall (λ pb, block_shape pb.2) l.
Proof.
  destruct (split_string_loop_total (length s) [] s) as [parts H]; [done|].
  pose proof H as (l & last & -> & Hlast & Hl)%split_string_loop_shape.
  by exists l, last.
Qed.

(** * More on the compatibility extractor *)

Lemma re_sub_no_match p repl s : finditer p s = [] → re_sub p repl s = s.
Proof. intros H. unfold re_sub. rewrite H. simpl. by rewrite app_nil_r. Qed.

Lemma compat_no_close doc :
  ¬ occurs CLOSE_MARKER doc → finditer match_compatibility doc = [].
Proof.
  intros Hno. pose proof (finditer_MatchedAt match_compatibility doc) as H.
  destruct (finditer match_compatibility doc) as [|mo ms]; [done|].
  apply Forall_cons in H as [H _].
  apply compat_match in H as (a & tag & body & b & -> & _).
  destruct Hno. by exists a, b.
Qed.

(** X13.  A text without the close marker is returned as it is, with an empty
    mapping. *)
Theorem X13_no_close_marker_no_change doc :
  contains CLOSE_MARKER doc = false → _handle_compatibility doc = (doc, ∅).
Proof.
  intros H%contains_false%compat_no_close.
  unfold _handle_compatibility, re_delete. by rewrite re_sub_no_match, H.
Qed.

Lemma X13_no_close_marker_no_change_witness :
  _handle_compatibility (lines ["@compatibility(numpy)"; "never closed"])
  = (lines ["@compatibility(numpy)"; "never closed"], ∅).
Proof.
  apply (X13_no_close_marker_no_change (lines ["@compatibility(numpy)"; "never closed"])).
  vm_compute. reflexivity.
Defined.

Lemma compat_tag s mo :
  MatchedAt match_compatibility s mo →
  ∃ tag, group mo 1 = Some tag ∧ tag ≠ [] ∧ (NL ∉ tag)
         ∧ occurs (OPEN_MARKER ++ tag ++ txt ")") s.
Proof.
  intros (pre & post & adv & c' & -> & Hs & _ & _ & Hm).
  apply compat_shape in Hm
    as (ws1 & tag & ws2 & body & ws3 & rest & i1 & j1 & i2 & j2
        & -> & _ & _ & Hg & Htag & _ & Hne & Hnl & _).
  exists tag. unfold group. rewrite Hg, Hs. cbn [lookup list_lookup Nat.pred].
  rewrite Htag. split_and!; try done.
  exists (pre ++ ws1), (ws2 ++ [NL] ++ body ++ ws3 ++ CLOSE_MARKER ++ rest).
  by rewrite <- !app_assoc.
Qed.

(** X14.  Every key of the mapping that [_handle_compatibility] returns is a
    non-empty text without a line feed that stands in the docstring between
    the open marker and a closing parenthesis. *)
Theorem X14_tags_of_the_mapping doc tag body :
  (_handle_compatibility doc).2 !! tag = Some body →
  tag ≠ [] ∧ (NL ∉ tag) ∧ occurs (OPEN_MARKER ++ tag ++ txt ")") doc.
Proof.
  simpl. intros H. apply fold_add_note_from in H as [H|(f & Hin & Htag & _)]; [done|].
  pose proof (finditer_MatchedAt match_compatibility doc) as HM.
  rewrite Forall_forall in HM. apply HM in Hin.
  apply compat_tag in Hin as (t & Hg & Hne & Hnl & Hocc).
  unfold group_text in Htag. rewrite Hg in Htag. simpl in Htag. by subst t.
Qed.

Lemma X14_tags_of_the_mapping_witness :
  txt "TensorFlow" ≠ [] ∧ (NL ∉ txt "TensorFlow")
  ∧ occurs (OPEN_MARKER ++ txt "TensorFlow" ++ txt ")") two_notes.
Proof.
  apply (X14_tags_of_the_mapping two_notes (txt "TensorFlow") (lines ["second"; ""])).
  vm_compute. reflexivity.
Defined.

(** * Lines *)

Lemma split_on_sep_free sep s : Forall (λ l, sep ∉ l) (split_on sep s).
Proof.
  induction s as [|a s IH]; simpl.
  - apply Forall_cons. split; [apply not_elem_of_nil | by apply Forall_nil].
  - destruct (Ascii.eqb_spec a sep) as [->|Hne].
    + apply Forall_cons. split; [apply not_elem_of_nil | done].
    + destruct (split_on sep s) as [|l ls]; [|apply Forall_cons in IH as [Hl Hls]].
      * apply Forall_cons. split; [|by apply Forall_nil].
        intros [->|Hin%elem_of_nil]%elem_of_cons; done.
      * apply Forall_cons. split; [|done].
        intros [->|Hin]%elem_of_cons; done.
Qed.

Lemma split_on_nonempty sep s : split_on sep s ≠ [].
Proof. induction s as [|a s IH]; simpl; [done|]. by repeat case_match. Qed.

Lemma split_on_free sep l : sep ∉ l → split_on sep l = [l].
Proof.
  induction l as [|a l IH]; [done|]. intros [Ha Hl]%not_elem_of_cons.
  cbn [split_on]. destruct (Ascii.eqb_spec a sep) as [->|_]; [done|].
  by rewrite (IH Hl).
Qed.

Lemma split_on_app_sep sep l rest :
  sep ∉ l → split_on sep (l ++ sep :: rest) = l :: split_on sep rest.
Proof.
  induction l as [|a l IH]; cbn [app split_on].
  - intros _. by rewrite Ascii.eqb_refl.
  - intros [Ha Hl]%not_elem_of_cons.
    destruct (Ascii.eqb_spec a sep) as [->|_]; [done|]. by rewrite (IH Hl).
Qed.

Lemma split_on_join sep ls :
  ls ≠ [] → Forall (λ l, sep ∉ l) ls → split_on sep (join [sep] ls) = ls.
Proof.
  induction ls as [|l ls IH]; intros Hne Hfree; [done|].
  apply Forall_cons in Hfree as [Hl Hls].
  destruct ls as [|l' ls]; [by apply split_on_free|].
  change (join [sep] (l :: l' :: ls)) with (l ++ sep :: join [sep] (l' :: ls)).
  rewrite split_on_app_sep by done. by rewrite IH.
Qed.

(** * [parse_md_docstring] *)

(** X18.  [parse_md_docstring] returns a result for every text, and the brief
    of the result has no line feed. *)
Theorem X18_brief_is_one_line raw_docstring :
  ∃ d, parse_md_docstring raw_docstring = Ok d ∧ NL ∉ brief d.
Proof.
  unfold parse_md_docstring.
  destruct (_handle_compatibility _) as [docstring notes].
  set (doc := if contains GENERATED_BY docstring then [] else docstring).
  destruct (split_string_loop_total (length (join [NL] (tl (split_on NL doc)))) []
              (join [NL] (tl (split_on NL doc)))) as [parts Hparts]; [done|].
  unfold split_string. rewrite Hparts, bind_Ok. eexists. split; [done|]. simpl.
  pose proof (split_on_sep_free NL doc) as H.
  destruct (split_on NL doc) as [|l ls]; [apply not_elem_of_nil|].
  by apply Forall_cons in H as [H _].
Qed.

Lemma atat_name_mem a :
  cset_mem NOFLAGS (OneOf [rg "a" "z"; rg "A" "Z"; ch "_"; ch "."; rg "0" "9"]) a
  = is_atat_name_char a.
Proof.
  unfold is_atat_name_char. cbn [cset_mem citem_mem existsb ch rg].
  by rewrite orb_false_r, <- !orb_assoc.
Qed.

Lemma sp_mem a : cset_mem NOFLAGS (One (Ch SP)) a = Ascii.eqb SP a.
Proof. simpl. apply Ascii.eqb_sym. Qed.

Ltac atat_fin :=
  first [ done | simpl; lia
        | by apply (Forall_forallb _ _ _ sp_mem)
        | by apply (Forall_forallb _ _ _ atat_name_mem)
        | split; simpl; by rewrite ?app_nil_r ].

Lemma atat_re_match line :
  NL ∉ line → is_Some (re_match atat_re line) ↔ atat_line line.
Proof.
  intros Hnl. unfold re_match. rewrite fmap_is_Some. split.
  - intros [[c' g'] H]. apply match_here_sound in H as [H _].
    unfold atat_re in H. cbn [p_re p_flags Cat] in H. cbn [Matches star plus] in H.
    break; cursors.
    match goal with
    | H : at_eol _ (_, ?rest) = true |- _ =>
        assert (rest = []) as ->
    end.
    { match goal with H : at_eol _ _ = true |- _ => revert H end.
      unfold at_eol. cbn [fst snd]. destruct aft as [|a rest]; [done|].
      intros [Ha _]%andb_true_iff. apply Ascii.eqb_eq in Ha as ->.
      destruct Hnl. rewrite !elem_of_app. do 4 right. by left. }
    match goal with
    | |- atat_line (?sp1 ++ _ ++ ?name ++ ?sp2 ++ []) => exists sp1, name, sp2
    end.
    rewrite app_nil_r.
    repeat match goal with
    | H : Forall _ _ |- _ =>
        first [ rewrite (Forall_forallb _ _ _ sp_mem) in H
              | rewrite (Forall_forallb _ _ _ atat_name_mem) in H ]
    end.
    split_and!; try done. intros ->. simpl in *. lia.
  - intros (sp1 & name & sp2 & -> & Hsp1 & Hne & Hname & Hsp2).
    eapply (match_here_complete atat_re _
              (rev sp2 ++ rev name ++ rev (txt "@@") ++ rev sp1, [])).
    unfold atat_re. cbn [p_re p_flags Cat]. cbn [Matches star plus].
    assert (∀ l (c c' : cursor), c.2 = l ++ c'.2 → c'.1 = rev l ++ c.1 →
                              Consumes l c c') as HC by (by split).
    assert (1 ≤ length name) by (destruct name; [done | simpl; lia]).
    exists (rev sp1, txt "@@" ++ name ++ sp2), (no_marks atat_re). split.
    { exists sp1. split_and!; atat_fin. }
    exists (rev (txt "@@") ++ rev sp1, name ++ sp2), (no_marks atat_re).
    split; [split; [by apply HC | done] |].
    exists (rev name ++ rev (txt "@@") ++ rev sp1, sp2), (no_marks atat_re). split.
    { exists name. split_and!; atat_fin. }
    exists (rev sp2 ++ rev name ++ rev (txt "@@") ++ rev sp1, []), (no_marks atat_re).
    split.
    { exists sp2. split_and!; atat_fin. }
    by split_and!.
Qed.

Lemma atat_line_no_NL line : atat_line line → NL ∉ line.
Proof.
  intros (sp1 & name & sp2 & -> & Hsp1 & _ & Hname & Hsp2).
  rewrite forallb_forall in Hsp1, Hname, Hsp2.
  rewrite !elem_of_app. intros [H|[H|[H|H]]].
  - apply list_elem_of_In, Hsp1 in H. done.
  - apply list_elem_of_In in H. simpl in H. by destruct H as [H|[H|[]]].
  - apply list_elem_of_In, Hname in H. done.
  - apply list_elem_of_In, Hsp2 in H. done.
Qed.

Lemma atat_filter_insert (l1 l2 : list str) (line : str) :
  Forall (λ l, NL ∉ l) (l1 ++ l2) → atat_line line →
  join [NL] (filter (λ l, re_match atat_re l = None) (split_on NL (join [NL] (l1 ++ line :: l2))))
  = join [NL] (filter (λ l, re_match atat_re l = None) (split_on NL (join [NL] (l1 ++ l2)))).
Proof.
  intros Hfree Hat. pose proof (atat_line_no_NL _ Hat) as Hnl.
  apply Forall_app in Hfree as [H1 H2].
  rewrite split_on_join;
    [| by destruct l1 | apply Forall_app; split; [done | by apply Forall_cons] ].
  rewrite filter_app, filter_cons.
  destruct (decide (re_match atat_re line = None)) as [E|_].
  { apply (atat_re_match _ Hnl) in Hat as [x Hx]. congruence. }
  rewrite <- filter_app.
  destruct (decide (l1 ++ l2 = [])) as [E|E].
  - rewrite E. done.
  - rewrite split_on_join; [done | done | by apply Forall_app].
Qed.

(** X20.  A dropped line leaves no trace: the result for a docstring with such
    a line among its lines is the result for the docstring without the line.
    *)
Theorem X20_dropped_lines_are_invisible (l1 l2 : list str) (line : str) :
  Forall (λ l, NL ∉ l) (l1 ++ l2) → atat_line line →
  parse_md_docstring (join [NL] (l1 ++ line :: l2))
  = parse_md_docstring (join [NL] (l1 ++ l2)).
Proof.
  intros Hfree Hat. unfold parse_md_docstring.
  by rewrite (atat_filter_insert l1 l2 line Hfree Hat).
Qed.

Lemma X20_dropped_lines_are_invisible_witness :
  parse_md_docstring (join [NL] ([txt "Brief."] ++ txt "  @@tf.abs" :: [txt "More."]))
  = parse_md_docstring (join [NL] ([txt "Brief."] ++ [txt "More."])).
Proof.
  apply (X20_dropped_lines_are_invisible [txt "Brief."] [txt "More."] (txt "  @@tf.abs")).
  - by apply (bool_decide_unpack _).
  - exists (txt "  "), (txt "tf.abs"), []. by split_and!.
Defined.

(** * Paths and names *)

Lemma join_split_on sep s : join [sep] (split_on sep s) = s.
Proof.
  induction s as [|a s IH]; [done|]. simpl.
  destruct (Ascii.eqb a sep) eqn:E.
  - apply Ascii.eqb_eq in E as ->.
    pose proof (split_on_nonempty sep s) as Hne.
    destruct (split_on sep s) as [|l ls] eqn:Es; [done|].
    simpl in *. by rewrite IH.
  - destruct (split_on sep s) as [|l ls]; [by destruct s|].
    destruct ls; simpl in *; by rewrite <- IH.
Qed.

Lemma join_replace a b ls :
  Forall (λ l, a ∉ l) ls →
  join [b] ls = replace_char a b (join [a] ls).
Proof.
  assert (Hfree : ∀ l, a ∉ l → replace_char a b l = l).
  { induction l as [|x l IH]; [done|]. intros [Hx Hl]%not_elem_of_cons. simpl.
    rewrite (IH Hl). destruct (Ascii.eqb x a) eqn:E; [|done].
    by apply Ascii.eqb_eq in E. }
  induction 1 as [|l ls Hl _ IH]; [done|].
  destruct ls as [|l' ls]; [by rewrite Hfree|].
  change (join [b] (l :: l' :: ls)) with (l ++ [b] ++ join [b] (l' :: ls)).
  change (join [a] (l :: l' :: ls)) with (l ++ [a] ++ join [a] (l' :: ls)).
  unfold replace_char in *. rewrite !map_app, <- IH, Hfree by done.
  simpl. by rewrite Ascii.eqb_refl.
Qed.

Lemma split_on_app_free sep (s leaf : str) :
  sep ∉ leaf → split_on sep (s ++ sep :: leaf) = split_on sep s ++ [leaf].
Proof.
  intros Hleaf. induction s as [|a s IH]; simpl.
  - by rewrite Ascii.eqb_refl, split_on_free.
  - destruct (Ascii.eqb a sep); rewrite IH; [done|].
    pose proof (split_on_nonempty sep s).
    by destruct (split_on sep s).
Qed.

Lemma last_snoc_str (l : list str) x : last (l ++ [x]) = Some x.
Proof. apply last_snoc. Qed.

Lemma removelast_snoc (l : list str) x : removelast (l ++ [x]) = l.
Proof. apply removelast_last. Qed.

Lemma split_on_single sep (s : str) : sep ∉ s ↔ ∃ l, split_on sep s = [l].
Proof.
  split.
  - intros H. exists s. by apply split_on_free.
  - intros [l Hl]. pose proof (split_on_sep_free sep s) as Hf.
    rewrite <- (join_split_on sep s), Hl. rewrite Hl in Hf.
    apply Forall_cons in Hf as [Hf _]. exact Hf.
Qed.

Lemma documentation_path_page full_name :
  ∃ page, documentation_path full_name false = Returns page.
Proof.
  unfold documentation_path. pose proof (split_on_nonempty "." full_name).
  destruct (split_on "." full_name); [done|]. simpl. eauto.
Qed.

(** X4.  The fragment link of [parent.leaf], for a [leaf] without a dot, is
    the page link of [parent] followed by [#leaf]. *)
Theorem X4_fragment_link_is_parent_page (parent leaf : str) :
  "."%char ∉ leaf →
  ∃ page, documentation_path parent false = Returns page
        ∧ documentation_path (parent ++ txt "." ++ leaf) true
          = Returns (page ++ txt "#" ++ leaf).
Proof.
  intros Hleaf. unfold documentation_path.
  change (parent ++ txt "." ++ leaf) with (parent ++ "."%char :: leaf).
  rewrite (split_on_app_free _ _ _ Hleaf).
  unfold init_and_last. rewrite last_snoc_str, removelast_snoc.
  pose proof (split_on_nonempty "." parent).
  destruct (split_on "." parent) as [|a p]; [done|]. simpl. eauto.
Qed.

Lemma X4_fragment_link_is_parent_page_witness :
  ∃ page, documentation_path (txt "tf.nn") false = Returns page
        ∧ documentation_path (txt "tf.nn" ++ txt "." ++ txt "relu") true
          = Returns (page ++ txt "#" ++ txt "relu").
Proof.
  apply (X4_fragment_link_is_parent_page (txt "tf.nn") (txt "relu")).
  by apply (bool_decide_unpack _).
Defined.

(** X3.  [documentation_path] raises exactly when a fragment link is asked for
    a name without a dot, and then it is the TypeError of [posixpath.join]
    called without a component; a page link is computed for every name. *)
Theorem X3_documentation_path_raises full_name is_fragment e :
  documentation_path full_name is_fragment = Raises e
  ↔ is_fragment = true ∧ ("."%char ∉ full_name) ∧ e = TypeError.
Proof.
  destruct is_fragment.
  - unfold documentation_path, init_and_last.
    pose proof (split_on_nonempty "." full_name) as Hne.
    destruct (split_on "." full_name) as [|l ls] eqn:E using rev_ind; [done|].
    clear IHls. rewrite last_snoc_str, removelast_snoc.
    destruct ls as [|a p]; simpl.
    + split; [intros [= <-] | by intros (_ & _ & ->)]. split_and!; try done.
      apply split_on_single. eauto.
    + split; [done|]. intros (_ & [x Hx]%split_on_single & _).
      rewrite Hx in E. by destruct p.
  - destruct (documentation_path_page full_name) as [page ->].
    split; [done | by intros [? _]].
Qed.

Lemma startswith_char (s : str) a :
  startswith s [a] = match s with x :: _ => Ascii.eqb a x | [] => false end.
Proof. destruct s as [|x s]; [done|]. unfold startswith. cbn [strip_prefix]. by destruct (Ascii.eqb a x). Qed.

Lemma startswith_free (x : str) : "/"%char ∉ x → startswith x (txt "/") = false.
Proof.
  change (txt "/") with ["/"%char]. rewrite startswith_char.
  destruct x as [|y x]; [done|]. intros Hx.
  destruct (Ascii.eqb "/" y) eqn:Ey; [|done]. apply Ascii.eqb_eq in Ey as <-.
  destruct Hx. by left.
Qed.

Lemma endswith_free (x : str) : "/"%char ∉ x → endswith x (txt "/") = false.
Proof.
  intros Hx. unfold endswith. change (rev (txt "/")) with (txt "/").
  apply startswith_free. intros H. apply Hx.
  by apply list_elem_of_In, in_rev, list_elem_of_In.
Qed.

Lemma endswith_app (x y : str) : y ≠ [] → endswith (x ++ y) (txt "/") = endswith y (txt "/").
Proof.
  intros Hy. unfold endswith. change (rev (txt "/")) with ["/"%char].
  rewrite rev_app_distr, !startswith_char.
  destruct (rev y) as [|a r] eqn:E; [|done].
  by apply (f_equal (@rev _)) in E; rewrite rev_involutive in E.
Qed.

Lemma join_snoc (sep : str) (q : list str) : ∀ x b,
  join sep (x :: q ++ [b]) = join sep (x :: q) ++ sep ++ b.
Proof.
  induction q as [|y q IHq]; intros x b; [done|].
  change (join sep (x :: (y :: q) ++ [b]))
    with (x ++ sep ++ join sep (y :: q ++ [b])).
  rewrite IHq. change (join sep (x :: y :: q))
    with (x ++ sep ++ join sep (y :: q)).
  by rewrite <- !app_assoc.
Qed.

Lemma fold_join_component (p : list str) : ∀ a,
  a ≠ [] → "/"%char ∉ a →
  Forall (λ b, b ≠ [] ∧ "/"%char ∉ b) p →
  fold_left join_component p a = join (txt "/") (a :: p).
Proof.
  assert (Hends : ∀ x : str, "/"%char ∉ x → x ≠ [] → endswith x (txt "/") = false).
  { intros x Hx Hne. by apply endswith_free. }
  assert (Hstarts : ∀ x : str, "/"%char ∉ x → startswith x (txt "/") = false).
  { intros x Hx. by apply startswith_free. }
  induction p as [|b p IH] using rev_ind; intros a Ha Hs Hall; [done|].
  apply Forall_app in Hall as [Hall [[Hb Hbs] _]%Forall_cons].
  rewrite fold_left_app. cbn [fold_left]. rewrite IH by done.
  rewrite (join_snoc (txt "/") p a b).
  unfold join_component. rewrite (Hstarts b Hbs).
  assert (join (txt "/") (a :: p) ≠ []
          ∧ endswith (join (txt "/") (a :: p)) (txt "/") = false) as [Hne He].
  { clear IH. revert a Ha Hs. induction p as [|c p IHp]; intros a Ha Hs.
    - split; [done | by apply Hends].
    - apply Forall_cons in Hall as [[Hc Hcs] Hall].
      destruct (IHp Hall c Hc Hcs) as [IH1 IH2].
      change (join (txt "/") (a :: c :: p)) with (a ++ (txt "/" ++ join (txt "/") (c :: p))).
      split; [by destruct a|].
      rewrite endswith_app by done. by rewrite endswith_app. }
  rewrite He, orb_false_r. by rewrite bool_decide_eq_false_2.
Qed.

(** X5.  For a name that has no slash and no empty component (no dot at either
    end, no two dots in a row), the page link is the name with every dot
    replaced by a slash, followed by [.md]. *)
Theorem X5_page_link_replaces_dots full_name :
  "/"%char ∉ full_name → [] ∉ split_on "." full_name →
  documentation_path full_name false
  = Returns (replace_char "." "/" full_name ++ txt ".md").
Proof.
  intros Hs Hne. unfold documentation_path.
  pose proof (split_on_sep_free "." full_name) as Hfree.
  replace (replace_char "." "/" full_name)
    with (join (txt "/") (split_on "." full_name))
    by (rewrite <- (join_split_on "." full_name) at 2; by apply join_replace).
  assert (Forall (λ b : str, b ≠ [] ∧ "/"%char ∉ b) (split_on "." full_name)) as Hall.
  { apply Forall_forall. intros b Hb. split; [by intros -> |].
    intros Hin. apply Hs. rewrite <- (join_split_on "." full_name).
    clear -Hb Hin. induction (split_on "." full_name) as [|l ls IH]; [by inversion Hb|].
    destruct ls as [|l' ls].
    - by apply list_elem_of_singleton in Hb as ->.
    - change (join ["."%char] (l :: l' :: ls)) with (l ++ ["."%char] ++ join ["."%char] (l' :: ls)).
      rewrite !elem_of_app. apply elem_of_cons in Hb as [->|Hb]; auto. }
  pose proof (split_on_nonempty "." full_name) as Hnil.
  destruct (split_on "." full_name) as [|a p]; [done|].
  apply Forall_cons in Hall as [[Ha Has] Hall]. cbn [posixpath_join mbind outcome_bind].
  by rewrite fold_join_component.
Qed.

Lemma X5_page_link_replaces_dots_witness :
  documentation_path (txt "tf.nn.relu") false
  = Returns (replace_char "." "/" (txt "tf.nn.relu") ++ txt ".md").
Proof.
  apply (X5_page_link_replaces_dots (txt "tf.nn.relu"));
    by apply (bool_decide_unpack _).
Defined.

Lemma rsplit1_nonempty sep s : rsplit1 sep s ≠ [].
Proof.
  destruct s as [|a s]; [done|]. simpl.
  destruct (rsplit1 sep s) as [|h [|t ts]]; try done. by destruct (Ascii.eqb a sep).
Qed.

Lemma rsplit1_free sep s : sep ∉ s → rsplit1 sep s = [s].
Proof.
  induction s as [|a s IH]; [done|]. intros [Ha Hs]%not_elem_of_cons.
  simpl. rewrite (IH Hs). destruct (Ascii.eqb a sep) eqn:E; [|done].
  by apply Ascii.eqb_eq in E.
Qed.

Lemma rsplit1_split sep (parent leaf : str) :
  sep ∉ leaf → rsplit1 sep (parent ++ sep :: leaf) = [parent; leaf].
Proof.
  intros Hleaf. induction parent as [|a s IH]; simpl.
  - by rewrite (rsplit1_free _ _ Hleaf), Ascii.eqb_refl.
  - by rewrite IH.
Qed.

Section IndexFacts.
Context {py_object : Type} (isclass : py_object → bool).

(** X1.  For a name [parent.leaf] whose last component [leaf] has no dot,
    [is_class_attr] looks [parent] up in the index: it raises KeyError when
    [parent] is not a key, and otherwise tells whether the object stored for
    [parent] is a class. *)
Theorem X1_class_attr_looks_up_parent (parent leaf : str) (index : gmap str py_object) :
  "."%char ∉ leaf →
  is_class_attr isclass (parent ++ txt "." ++ leaf) index
  = match index !! parent with
    | Some obj => Returns (isclass obj)
    | None => Raises KeyError
    end.
Proof.
  intros Hleaf. unfold is_class_attr.
  change (parent ++ txt "." ++ leaf) with (parent ++ "."%char :: leaf).
  rewrite (rsplit1_split _ _ _ Hleaf).
  destruct (index !! parent) as [obj|]; [|done]. by destruct (isclass obj).
Qed.

(** X2.  For a name without a dot, [rsplit] gives the name back, so
    [is_class_attr] looks the name itself up: a top-level class counts as its
    own class attribute, and a name that is not in the index raises KeyError.
    *)
Theorem X2_class_attr_of_undotted_name (name : str) (index : gmap str py_object) :
  "."%char ∉ name →
  is_class_attr isclass name index
  = match index !! name with
    | Some obj => Returns (isclass obj)
    | None => Raises KeyError
    end.
Proof.
  intros Hname. unfold is_class_attr. rewrite (rsplit1_free _ _ Hname).
  destruct (index !! name) as [obj|]; [|done]. by destruct (isclass obj).
Qed.
End IndexFacts.

Lemma X2_class_attr_of_undotted_name_witness :
  is_class_attr (λ b : bool, b) (txt "Module") {[ txt "Module" := true ]}
  = match ({[ txt "Module" := true ]} : gmap str bool) !! txt "Module" with
    | Some obj => Returns obj
    | None => Raises KeyError
    end.
Proof.
  apply (X2_class_attr_of_undotted_name (λ b : bool, b) (txt "Module")).
  by apply (bool_decide_unpack _).
Defined.

Lemma X1_class_attr_looks_up_parent_witness :
  is_class_attr (λ b : bool, b) (txt "tf.Module" ++ txt "." ++ txt "call")
    {[ txt "tf.Module" := true ]}
  = match ({[ txt "tf.Module" := true ]} : gmap str bool) !! txt "tf.Module" with
    | Some obj => Returns obj
    | None => Raises KeyError
    end.
Proof.
  apply (X1_class_attr_looks_up_parent (λ b : bool, b) (txt "tf.Module") (txt "call")).
  by apply (bool_decide_unpack _).
Defined.

(** * Patterns that delete to the end of the line *)

Lemma Consumes_inj l l' c c' : Consumes l c c' → Consumes l' c c' → l = l'.
Proof. intros [H1 _] [H2 _]. rewrite H1 in H2. by apply app_inv_tail in H2. Qed.

Lemma Consumes_at l bef aft : Consumes l (bef, l ++ aft) (rev l ++ bef, aft).
Proof. by split. Qed.

Section Frame.
Variable fl : flags.

(** A match of a plain pattern is a match of the same text anywhere. *)
Lemma Matches_frame r : plain r = true → ∀ c g c' g' l bef2 aft2 g2,
  Matches fl r c g c' g' → Consumes l c c' →
  ∃ g2', Matches fl r (bef2, l ++ aft2) g2 (rev l ++ bef2, aft2) g2'.
Proof.
  induction r as [|cs|s|r1 IH1 r2 IH2|r1 IH1 r2 IH2|cs mn mx gr|n r IH|r IH| |];
    intros Hp c g c' g' l bef2 aft2 g2 HM HC; simpl in HM, Hp |- *; try done.
  - destruct HM as [-> _]. rewrite (Consumes_inj _ _ _ _ HC (Consumes_nil c)).
    by exists g2.
  - destruct HM as (a & HC' & Hin & _). rewrite (Consumes_inj _ _ _ _ HC HC').
    exists g2, a. split_and!; try done.
  - destruct HM as (HC' & _). rewrite (Consumes_inj _ _ _ _ HC HC').
    exists g2. split; [apply Consumes_at | done].
  - apply andb_true_iff in Hp as [Hp1 Hp2].
    destruct HM as (c1 & g1 & HM1 & HM2).
    destruct (Matches_consumes _ _ _ _ _ _ HM1) as [l1 HC1].
    destruct (Matches_consumes _ _ _ _ _ _ HM2) as [l2 HC2].
    rewrite (Consumes_inj _ _ _ _ HC (Consumes_app _ _ _ _ _ HC1 HC2)).
    destruct (IH1 Hp1 _ _ _ _ _ bef2 (l2 ++ aft2) g2 HM1 HC1) as [g21 H1].
    destruct (IH2 Hp2 _ _ _ _ _ (rev l1 ++ bef2) aft2 g21 HM2 HC2) as [g22 H2].
    exists g22, (rev l1 ++ bef2, l2 ++ aft2), g21.
    rewrite rev_app_distr, <- !app_assoc. by split.
  - apply andb_true_iff in Hp as [Hp1 Hp2]. destruct HM as [HM|HM].
    + destruct (IH1 Hp1 _ _ _ _ _ bef2 aft2 g2 HM HC) as [g2' H]. exists g2'. by left.
    + destruct (IH2 Hp2 _ _ _ _ _ bef2 aft2 g2 HM HC) as [g2' H]. exists g2'. by right.
  - destruct HM as (l0 & HC' & Hall & Hmn & Hmx & _).
    rewrite (Consumes_inj _ _ _ _ HC HC').
    exists g2, l0. split_and!; try done.
  - destruct HM as (g1 & HM & _).
    destruct (IH Hp _ _ _ _ _ bef2 aft2 g2 HM HC) as [g2' H].
    eexists _, g2'. by split.
Qed.

Lemma Matches_one_line r : one_line fl r = true → ∀ c g c' g' l,
  Matches fl r c g c' g' → Consumes l c c' → NL ∉ l.
Proof.
  induction r as [|cs|s|r1 IH1 r2 IH2|r1 IH1 r2 IH2|cs mn mx gr|n r IH|r IH| |];
    intros Hp c g c' g' l HM HC; simpl in HM, Hp.
  - destruct HM as [-> _]. rewrite (Consumes_inj _ _ _ _ HC (Consumes_nil c)).
    apply not_elem_of_nil.
  - destruct HM as (a & HC' & Hin & _). rewrite (Consumes_inj _ _ _ _ HC HC').
    intros Ha%list_elem_of_singleton. subst a. by rewrite Hin in Hp.
  - destruct HM as (HC' & _). rewrite (Consumes_inj _ _ _ _ HC HC').
    intros Hin%list_elem_of_In. rewrite forallb_forall in Hp.
    apply Hp in Hin. by rewrite Ascii.eqb_refl in Hin.
  - apply andb_true_iff in Hp as [Hp1 Hp2].
    destruct HM as (c1 & g1 & HM1 & HM2).
    destruct (Matches_consumes _ _ _ _ _ _ HM1) as [l1 HC1].
    destruct (Matches_consumes _ _ _ _ _ _ HM2) as [l2 HC2].
    rewrite (Consumes_inj _ _ _ _ HC (Consumes_app _ _ _ _ _ HC1 HC2)).
    rewrite elem_of_app. intros [H|H]; [by eapply IH1 | by eapply IH2].
  - apply andb_true_iff in Hp as [Hp1 Hp2].
    destruct HM as [HM|HM]; [by eapply IH1 | by eapply IH2].
  - destruct HM as (l0 & HC' & Hall & _).
    rewrite (Consumes_inj _ _ _ _ HC HC').
    intros Hin. rewrite Forall_forall in Hall. apply Hall in Hin.
    by rewrite Hin in Hp.
  - destruct HM as (g1 & HM & _). by eapply IH.
  - destruct HM as (c1 & _ & ->).
    rewrite (Consumes_inj _ _ _ _ HC (Consumes_nil c)). apply not_elem_of_nil.
  - destruct HM as (_ & -> & _).
    rewrite (Consumes_inj _ _ _ _ HC (Consumes_nil c)). apply not_elem_of_nil.
  - destruct HM as (_ & -> & _).
    rewrite (Consumes_inj _ _ _ _ HC (Consumes_nil c)). apply not_elem_of_nil.
Qed.

Lemma occurs_app_l (lit a b : str) : occurs lit a → occurs lit (a ++ b).
Proof. intros (x & y & ->). exists x, (y ++ b). by rewrite <- !app_assoc. Qed.

Lemma occurs_app_r (lit a b : str) : occurs lit b → occurs lit (a ++ b).
Proof. intros (x & y & ->). exists (a ++ x), y. by rewrite <- !app_assoc. Qed.

Lemma Matches_requires lit r : requires lit r = true → ∀ c g c' g' l,
  Matches fl r c g c' g' → Consumes l c c' → occurs lit l.
Proof.
  induction r as [|cs|s|r1 IH1 r2 IH2|r1 IH1 r2 IH2|cs mn mx gr|n r IH|r IH| |];
    intros Hp c g c' g' l HM HC; simpl in HM, Hp; try done.
  - destruct HM as (HC' & _). rewrite (Consumes_inj _ _ _ _ HC HC').
    by apply contains_occurs.
  - destruct HM as (c1 & g1 & HM1 & HM2).
    destruct (Matches_consumes _ _ _ _ _ _ HM1) as [l1 HC1].
    destruct (Matches_consumes _ _ _ _ _ _ HM2) as [l2 HC2].
    rewrite (Consumes_inj _ _ _ _ HC (Consumes_app _ _ _ _ _ HC1 HC2)).
    apply orb_true_iff in Hp as [Hp|Hp].
    + apply occurs_app_l. by eapply IH1.
    + apply occurs_app_r. by eapply IH2.
  - apply andb_true_iff in Hp as [Hp1 Hp2].
    destruct HM as [HM|HM]; [by eapply IH1 | by eapply IH2].
  - destruct HM as (g1 & HM & _). by eapply IH.
Qed.
End Frame.

(** A pattern that needs [lit] finds nothing in a text without it. *)
Lemma finditer_requires p lit s :
  requires lit (p_re p) = true → ¬ occurs lit s → finditer p s = [].
Proof.
  intros Hreq Hno. pose proof (finditer_Found p s) as HF.
  destruct (finditer p s) as [|mo ms]; [done|].
  apply Forall_cons in HF as [(pre & l & post & -> & _ & _ & _ & HM) _].
  destruct Hno. apply occurs_app_r, occurs_app_l.
  eapply Matches_requires; [done | exact HM |]. by split.
Qed.

(** A greedy repetition without upper bound stops at the longest run after
    which the rest succeeds. *)
Lemma rep_greedy_max {A} (p : ascii → bool) (k : str → str → option A) aft :
  ∀ mn bef x,
  rep true p mn None bef aft k = Some x →
  ∃ l aft', aft = l ++ aft' ∧ Forall (λ a, p a = true) l
    ∧ k (rev l ++ bef) aft' = Some x
    ∧ ∀ l2 aft2, aft' = l2 ++ aft2 → l2 ≠ [] → Forall (λ a, p a = true) l2 →
        k (rev l2 ++ rev l ++ bef) aft2 = None.
Proof.
  induction aft as [|a aft IH]; intros mn bef x H.
  - exists [], []. destruct mn; simpl in H; [|done].
    split_and!; try done. intros l2 aft2 Hl. by destruct l2.
  - simpl in H.
    assert (Hstop : mn = 0 → k bef (a :: aft) = Some x →
      (p a = true → rep true p 0 None (a :: bef) aft k = None) →
      ∃ l aft', a :: aft = l ++ aft' ∧ Forall (λ a, p a = true) l
        ∧ k (rev l ++ bef) aft' = Some x
        ∧ ∀ l2 aft2, aft' = l2 ++ aft2 → l2 ≠ [] → Forall (λ a, p a = true) l2 →
            k (rev l2 ++ rev l ++ bef) aft2 = None).
    { intros -> Hk Hnone. exists [], (a :: aft). split_and!; try done.
      intros [|b l2] aft2 Hl Hne Hall; [done|]. injection Hl as <- ->.
      apply Forall_cons in Hall as [Hb Hall]. specialize (Hnone Hb).
      destruct (k (rev (a :: l2) ++ [] ++ bef) aft2) eqn:Ek; [|done].
      assert (is_Some (rep true p 0 None (a :: bef) (l2 ++ aft2) k)) as [y Hy].
      { apply rep_complete; [done | lia | done |].
        simpl in Ek. rewrite <- app_assoc in Ek. simpl in Ek. by rewrite Ek. }
      congruence. }
    destruct (p a) eqn:Ep; simpl in H.
    + destruct (rep true p (Nat.pred mn) None (a :: bef) aft k) as [y|] eqn:E.
      * injection H as ->.
        destruct (IH _ _ _ E) as (l & aft' & -> & Hall & Hk & Hmax).
        exists (a :: l), aft'. simpl. rewrite <- !app_assoc. simpl.
        split_and!; try done. by apply Forall_cons.
      * destruct mn; [|done]. apply Hstop; auto.
    + destruct mn; [|done]. apply Hstop; auto. congruence.
Qed.

Lemma accepting_accept st adv : accepting st (accept st adv).
Proof.
  split.
  - intros c g res. unfold accept. by destruct (adv && (pos c =? st)); [|intros [= <-]].
  - intros c g Hlt. unfold accept.
    replace (pos c =? st) with false by (symmetry; apply Nat.eqb_neq; lia).
    rewrite andb_false_r. eauto.
Qed.

Lemma m_to_eol fl r : to_eol r = true → DOTALL fl = false → ∀ c g k st res,
  accepting st k → st ≤ pos c → m fl r c g k = Some res → at_line_end res.1 = true.
Proof.
  intros Hr Hdot.
  induction r as [|cs|s|r1 IH1 r2 IH2|r1 IH1 r2 IH2|cs mn mx gr|n r IH|r IH| |];
    intros c g k st res Hk Hst H; simpl in Hr; try done.
  - rewrite m_Seq in H. apply m_sound in H as (c1 & g1 & HM & H).
    eapply (IH2 Hr _ _ _ st); [done | | exact H].
    apply Matches_min_len in HM. lia.
  - apply andb_true_iff in Hr as [Hr1 Hr2]. simpl in H.
    destruct (m fl r1 c g k) as [y|] eqn:E.
    + injection H as ->. by eapply IH1.
    + by eapply IH2.
  - destruct cs; try done. destruct mx; [done|]. destruct gr; [|done].
    simpl in H. apply rep_greedy_max in H as (l & aft' & Haft & Hall & Hkl & Hmax).
    destruct Hk as [Hk1 Hk2]. rewrite (Hk1 _ _ _ Hkl). unfold at_line_end. simpl.
    destruct aft' as [|a aft2]; [done|].
    destruct (Ascii.eqb a NL) eqn:Ea; [done|].
    assert (Hn : k (rev [a] ++ rev l ++ c.1, aft2) g = None).
    { apply (Hmax [a] aft2 eq_refl); [done|].
      apply Forall_cons. split; [simpl; by rewrite Hdot, Ea | by apply Forall_nil]. }
    destruct (Hk2 (rev [a] ++ rev l ++ c.1, aft2) g) as [y Hy]; [|congruence].
    unfold pos in *. simpl. rewrite length_app, length_rev. lia.
  - simpl in H. eapply (IH Hr c g _ st); [| done | exact H].
    destruct Hk as [Hk1 Hk2]. split; intros; eauto.
Qed.

Lemma match_here_eol p c adv c' g' :
  to_eol (p_re p) = true → DOTALL (p_flags p) = false →
  match_here p c adv = Some (c', g') → at_line_end c' = true.
Proof.
  intros Hr Hdot H. unfold match_here in H.
  by apply (m_to_eol _ _ Hr Hdot _ _ _ (pos c) _ (accepting_accept _ _) (le_n _)) in H.
Qed.

Lemma match_here_complete_adv p c c' g' adv :
  Matches (p_flags p) (p_re p) c (no_marks p) c' g' → pos c < pos c' →
  is_Some (match_here p c adv).
Proof.
  intros HM Hlt. unfold match_here. eapply m_complete; [exact HM|].
  intros g1. by apply accepting_accept.
Qed.

Lemma app_prefix_free {A} (a : A) (l post x y : list A) :
  l ++ post = x ++ a :: y → a ∉ l → ∃ z, x = l ++ z.
Proof.
  revert x. induction l as [|b l IH]; intros x H Hl; [by exists x|].
  apply not_elem_of_cons in Hl as [Hb Hl].
  destruct x as [|b' x]; simpl in H; injection H as -> H; [done|].
  destruct (IH _ H Hl) as [z ->]. by exists z.
Qed.

Lemma app_split_free {A} (a : A) (x y pre l post : list A) :
  x ++ a :: y = pre ++ l ++ post → a ∉ l →
  (∃ z, x = pre ++ l ++ z) ∨ (∃ z, pre = x ++ a :: z ∧ y = z ++ l ++ post).
Proof.
  revert pre. induction x as [|b x IH]; intros pre H Hl.
  - destruct pre as [|b pre]; simpl in H.
    + left. symmetry in H. destruct (app_prefix_free a l post [] y H Hl) as [z Hz].
      exists []. simpl. by destruct l.
    + injection H as <- ->. right. by exists pre.
  - destruct pre as [|b' pre]; simpl in H.
    + left. symmetry in H.
      destruct (app_prefix_free a l post (b :: x) y H Hl) as [z Hz]. by exists z.
    + injection H as <- H. destruct (IH _ H Hl) as [[z ->]|[z [-> ->]]].
      * left. by exists z.
      * right. by exists z.
Qed.

Section Deletion.
Variable p : pattern.
Hypothesis Hplain : plain (p_re p) = true.
Hypothesis Hone : one_line (p_flags p) (p_re p) = true.
Hypothesis Hmin : 1 ≤ min_len (p_re p).
Hypothesis Heol : to_eol (p_re p) = true.
Hypothesis Hdot : DOTALL (p_flags p) = false.

Lemma Matches_matchable c c' g' l :
  Matches (p_flags p) (p_re p) c (no_marks p) c' g' → Consumes l c c' → matchable p l.
Proof.
  intros HM HC.
  destruct (Matches_frame _ _ Hplain _ _ _ _ _ [] [] (no_marks p) HM HC) as [g2 H].
  exists g2. by rewrite !app_nil_r in H.
Qed.

Lemma matchable_inv l : matchable p l → l ≠ [] ∧ NL ∉ l.
Proof.
  intros [g' HM]. split.
  - apply Matches_min_len in HM. unfold pos in HM. simpl in HM.
    rewrite length_rev in HM. intros ->. simpl in HM. lia.
  - eapply Matches_one_line; [exact Hone | exact HM |].
    split; simpl; by rewrite app_nil_r.
Qed.

Lemma matchable_at l bef aft adv :
  matchable p l → is_Some (match_here p (bef, l ++ aft) adv).
Proof.
  intros Hl. destruct (matchable_inv _ Hl) as [Hne _]. destruct Hl as [g' HM].
  destruct (Matches_frame _ _ Hplain _ _ _ _ l bef aft (no_marks p) HM) as [g2 H].
  { split; simpl; by rewrite app_nil_r. }
  eapply match_here_complete_adv; [exact H|].
  unfold pos. simpl. rewrite length_app, length_rev. destruct l; [done | simpl; lia].
Qed.

Lemma Run_delete s limit c adv ms :
  Run p s limit c adv ms → limit = None → subject c = s →
  match_free p (concat (splice s (pos c) ms id (λ _, [[]])))
  ∧ (c.2 = [] → concat (splice s (pos c) ms id (λ _, [[]])) = [])
  ∧ (∀ rest, c.2 = NL :: rest →
       ∃ o, concat (splice s (pos c) ms id (λ _, [[]])) = NL :: o).
Proof.
  induction 1 as [limit c adv Hl|limit c adv Hl Hs|limit c adv r ms Hl Hs _ IH];
    intros -> Hsub; [done | |].
  - destruct c as [bef aft]. unfold subject, pos in *. simpl in *. subst s.
    rewrite <- (length_rev bef), drop_app_length, app_nil_r. unfold id.
    split_and!; eauto.
    intros pre l post -> Hm.
    pose proof (scan_None _ _ _ _ Hs pre (l ++ post) eq_refl) as Hnone.
    destruct (matchable_at l (rev pre ++ bef) post (adv && bool_decide (pre = [])) Hm)
      as [x Hx]. congruence.
  - destruct c as [bef aft], r as [st [c' g']]. simpl in *.
    pose proof Hs as Hs'.
    apply scan_Some in Hs as (gap & aft1 & -> & -> & Hm & Hleft).
    pose proof (match_here_eol _ _ _ _ _ Heol Hdot Hm) as Hend.
    apply match_here_sound in Hm as [HM _].
    destruct (Matches_consumes _ _ _ _ _ _ HM) as [lm HC].
    destruct (matchable_inv _ (Matches_matchable _ _ _ _ HM HC)) as [Hne Hnl].
    destruct c' as [bef' aft']. destruct HC as [HC1 HC2]. simpl in HC1, HC2.
    unfold subject in Hsub. simpl in Hsub. subst.
    destruct IH as (IH1 & IH2 & IH3); [done | |].
    { unfold subject. simpl.
      by rewrite !rev_app_distr, !rev_involutive, <- !app_assoc. }
    unfold pos in *. simpl in *.
    replace (slice (rev bef ++ gap ++ lm ++ aft') (length bef) (length bef + length gap))
      with gap.
    2:{ symmetry. rewrite <- (length_rev bef). apply slice_app. }
    set (out' := concat (splice _ _ ms id _)) in *.
    change (id gap) with gap.
    assert (Hout : out' = [] ∨ ∃ o, out' = NL :: o).
    { unfold at_line_end in Hend. simpl in Hend. destruct aft' as [|a aft2].
      - left. by apply IH2.
      - right. apply Ascii.eqb_eq in Hend as ->. by eapply IH3. }
    assert (Hgap : ∀ pre l z, gap = pre ++ l ++ z → ¬ matchable p l).
    { intros pre l z -> Hmat.
      specialize (Hleft pre (l ++ z) eq_refl).
      destruct (matchable_inv _ Hmat) as [Hlne _].
      rewrite <- !app_assoc in Hleft.
      destruct (matchable_at l (rev pre ++ bef) (z ++ lm ++ aft')
                  (adv && bool_decide (pre = [])) Hmat) as [x Hx].
      rewrite Hleft in Hx; [done|]. by destruct l. }
    split_and!.
    + intros pre l post Heq Hmat.
      destruct (matchable_inv _ Hmat) as [Hlne Hlnl].
      destruct Hout as [Ho|[o Ho]]; rewrite Ho in Heq.
      * rewrite app_nil_r in Heq. by eapply (Hgap pre l post).
      * destruct (app_split_free _ _ _ _ _ _ Heq Hlnl) as [[z Hz]|[z [Hz1 Hz2]]].
        -- by eapply Hgap.
        -- eapply (IH1 (NL :: z) l post); [|done]. rewrite Ho, Hz2. done.
    + intros Hnil. destruct gap, lm; done.
    + intros rest Hrest. destruct gap as [|a gap].
      * destruct lm as [|a lm]; [done|]. injection Hrest as -> _.
        destruct Hnl. by left.
      * injection Hrest as -> _. eauto.
Qed.

(** What is left after the deletion has no match of the pattern. *)
Lemma delete_match_free s : match_free p (re_delete p s).
Proof.
  destruct (Run_delete s None ([], s) false (finditer p s)) as [H _];
    [apply matches_upto_run | done | done | done].
Qed.

Lemma match_free_finditer t : match_free p t → finditer p t = [].
Proof.
  intros Hfree. pose proof (finditer_Found p t) as HF.
  destruct (finditer p t) as [|mo ms]; [done|].
  apply Forall_cons in HF as [(pre & l & post & -> & _ & _ & _ & HM) _].
  destruct (Hfree pre l post eq_refl).
  eapply Matches_matchable; [exact HM | by split].
Qed.

Lemma delete_idempotent s : re_delete p (re_delete p s) = re_delete p s.
Proof.
  unfold re_delete at 1. apply re_sub_no_match, match_free_finditer, delete_match_free.
Qed.
End Deletion.

(** * The clean-up of a raw docstring *)

Ltac side := first [ done | by apply Forall_nil | simpl; lia ].

Lemma TODO_matchable : matchable TODO_RE (txt "TODO").
Proof.
  exists (no_marks TODO_RE). unfold TODO_RE. cbn [p_re p_flags Cat].
  cbn [Matches opt star].
  exists ([], txt "TODO"), (no_marks TODO_RE). split.
  { exists []. split_and!; side. }
  exists ([], txt "TODO"), (no_marks TODO_RE). split.
  { exists []. split_and!; side. }
  exists (rev (txt "TODO"), []), (no_marks TODO_RE). split; [done|].
  exists []. split_and!; side.
Qed.

(** X7.  The text that [_StripTODOs] returns never contains TODO, whatever the
    input: each match runs to the end of its line, so the texts on both sides
    of a removed match cannot join into a new TODO. *)
Theorem X7_no_TODO_is_left s : ¬ occurs (txt "TODO") (_StripTODOs s).
Proof.
  intros (a & b & H).
  refine (delete_match_free TODO_RE eq_refl eq_refl _ eq_refl eq_refl
            s a (txt "TODO") b H TODO_matchable).
  simpl. lia.
Qed.

Lemma Matches_anycase fl (w s : str) :
  Forall2 same_letter w s → ∀ bef aft g,
  Matches fl (Cat (map (λ a, Set_ (OneOf [Ch a; Ch (swapcase a)])) s))
    (bef, w ++ aft) g (rev w ++ bef, aft) g.
Proof.
  induction 1 as [|a b w s Hab Hws IH]; intros bef aft g; [done|].
  assert (Hset : Matches fl (Set_ (OneOf [Ch b; Ch (swapcase b)]))
                   (bef, a :: w ++ aft) g (a :: bef, w ++ aft) g).
  { exists a. split_and!; try done. cbn [cset_mem citem_mem existsb].
    destruct Hab as [->| ->]; rewrite Ascii.eqb_refl; by rewrite ?orb_true_r. }
  destruct Hws as [|a' b' w s Hab' Hws].
  - exact Hset.
  - change (Matches fl (Seq (Set_ (OneOf [Ch b; Ch (swapcase b)]))
                          (Cat (map (λ a, Set_ (OneOf [Ch a; Ch (swapcase a)])) (b' :: s))))
              (bef, (a :: a' :: w) ++ aft) g (rev (a :: a' :: w) ++ bef, aft) g).
    exists (a :: bef, (a' :: w) ++ aft), g. split; [exact Hset|].
    specialize (IH (a :: bef) aft g).
    replace (rev (a :: a' :: w) ++ bef) with (rev (a' :: w) ++ a :: bef); [done|].
    change (rev (a :: a' :: w)) with (rev (a' :: w) ++ [a]). by rewrite <- app_assoc.
Qed.

Lemma directive_matchable l : directive l → matchable STRIP_RE l.
Proof.
  intros (sp & w & -> & Hsp & Hw). exists (<[0 := Some (length (txt "#" ++ sp), length (txt "#" ++ sp ++ w))]> (no_marks STRIP_RE)).
  unfold STRIP_RE. cbn [p_re p_flags Cat]. cbn [Matches star_lazy star].
  exists (rev (txt "#"), sp ++ w ++ txt ":"), (no_marks STRIP_RE). split; [done|].
  exists (rev sp ++ rev (txt "#"), w ++ txt ":"), (no_marks STRIP_RE). split.
  { exists sp. split_and!;
      first [ done | simpl; lia | by apply (Forall_forallb _ _ _ sp_mem) ]. }
  exists (rev w ++ rev sp ++ rev (txt "#"), txt ":"), (<[0 := Some (length (txt "#" ++ sp), length (txt "#" ++ sp ++ w))]> (no_marks STRIP_RE)). split.
  { exists (no_marks STRIP_RE). split.
    - destruct Hw as [Hw|Hw]; [left|right]; by apply Matches_anycase.
    - unfold pos. cbn [fst snd Nat.pred]. do 2 f_equal. f_equal.
      + rewrite !length_app, !length_rev. simpl. lia.
      + rewrite !length_app, !length_rev. simpl. lia. }
  exists (rev (txt ":") ++ rev w ++ rev sp ++ rev (txt "#"), []), (<[0 := Some (length (txt "#" ++ sp), length (txt "#" ++ sp ++ w))]> (no_marks STRIP_RE)).
  split.
  { split; [|done]. split; [done|]. cbn [fst snd]. done. }
  exists []. split_and!; try side.
  split; cbn [fst snd]; [done|]. by rewrite !rev_app_distr, <- !app_assoc.
Qed.

(** X8.  The text that [_StripPylintAndPyformat] returns never contains a
    directive, that is a hash sign, any number of spaces, the word pylint or
    pyformat in any mix of upper and lower case, and a colon. *)
Theorem X8_no_directive_is_left s l :
  directive l → ¬ occurs l (_StripPylintAndPyformat s).
Proof.
  intros Hl (a & b & H).
  refine (delete_match_free STRIP_RE eq_refl eq_refl _ eq_refl eq_refl
            s a l b H (directive_matchable l Hl)).
  simpl. lia.
Qed.

Lemma X8_no_directive_is_left_witness :
  ¬ occurs (txt "# PyLint:")
      (_StripPylintAndPyformat (txt "x = 1  # PyLint: disable=invalid-name")).
Proof.
  apply (X8_no_directive_is_left (txt "x = 1  # PyLint: disable=invalid-name")
           (txt "# PyLint:")).
  exists [SP], (txt "PyLint"). split_and!; [reflexivity | reflexivity |].
  left. repeat constructor; first [ by left | by right ].
Defined.

(** X9.  [_StripPylintAndPyformat] is idempotent: a second pass finds nothing
    to remove. *)
Theorem X9_strip_directives_idempotent s :
  _StripPylintAndPyformat (_StripPylintAndPyformat s) = _StripPylintAndPyformat s.
Proof. apply delete_idempotent; try done. simpl. lia. Qed.

(** *** Plain text *)

Lemma splitlines_unix s : unix_lines s = true → splitlines (s ++ [NL]) = split_on NL s.
Proof.
  induction s as [|a s IH]; [done|]. intros [Ha Hs]%andb_true_iff.
  specialize (IH Hs). cbn [app splitlines split_on].
  destruct (is_linebreak a) eqn:Eb; simpl in Ha.
  - rewrite Ha. apply Ascii.eqb_eq in Ha as ->.
    change (Ascii.eqb NL CR) with false. cbv iota. by rewrite IH.
  - destruct (Ascii.eqb a NL) eqn:Ea.
    { apply Ascii.eqb_eq in Ea as ->. done. }
    by rewrite IH.
Qed.

Lemma split_on_elem sep (s l : str) a : l ∈ split_on sep s → a ∈ l → a ∈ s.
Proof.
  revert l. induction s as [|x s IH]; intros l; simpl.
  - by intros ->%list_elem_of_singleton.
  - destruct (Ascii.eqb x sep).
    + intros [->|Hl]%elem_of_cons Ha; [by apply elem_of_nil in Ha|].
      right. by eapply IH.
    + pose proof (split_on_nonempty sep s) as Hne.
      destruct (split_on sep s) as [|l0 ls]; [done|].
      intros [->|Hl]%elem_of_cons Ha.
      * apply elem_of_cons in Ha as [->|Ha]; [by left|].
        right. apply (IH l0); [by left | done].
      * right. apply (IH l); [by right | done].
Qed.

Lemma occurs_char a (s : str) : occurs [a] s ↔ a ∈ s.
Proof.
  split.
  - intros (x & y & ->). rewrite !elem_of_app. right. left. by left.
  - intros (x & y & ->)%list_elem_of_split. by exists x, y.
Qed.

Lemma occurs_snoc (lit s : str) a : a ∉ lit → occurs lit (s ++ [a]) → occurs lit s.
Proof.
  intros Ha (x & y & H). destruct y as [|b y] using rev_ind.
  - rewrite app_nil_r in H. destruct lit as [|c lit] using rev_ind.
    + exists s, []. by rewrite app_nil_r.
    + rewrite app_assoc in H. apply app_inj_tail in H as [_ ->].
      destruct Ha. rewrite elem_of_app. right. by left.
  - rewrite !app_assoc in H. apply app_inj_tail in H as [-> _].
    exists x, y. by rewrite app_assoc.
Qed.

Lemma KEYWORD_sub_plain line :
  "#"%char ∉ line → re_sub KEYWORD_H1_RE keyword_repl line = line.
Proof.
  intros H. apply re_sub_no_match, (finditer_requires _ (txt "#")); [done|].
  by rewrite (occurs_char "#" line).
Qed.

Lemma downgrade_lines_plain ls : Forall (λ l : str, "#"%char ∉ l) ls → ∀ b acc,
  (fold_left downgrade_line ls (b, acc)).2 = acc ++ ls.
Proof.
  induction 1 as [|l ls Hl _ IH]; intros b acc; cbn [fold_left]; [by rewrite app_nil_r|].
  assert (∃ b', downgrade_line (b, acc) l = (b', acc ++ [l])) as [b' ->].
  { unfold downgrade_line. rewrite (KEYWORD_sub_plain l Hl).
    destruct (startswith (strip l) (txt "```")), (negb b); eauto. }
  by rewrite IH, <- app_assoc.
Qed.

Lemma DowngradeH1Keywords_plain s :
  "#"%char ∉ s → unix_lines s = true → _DowngradeH1Keywords (s ++ [NL]) = s.
Proof.
  intros Hs Hu. unfold _DowngradeH1Keywords. rewrite (splitlines_unix s Hu).
  pose proof (downgrade_lines_plain (split_on NL s)) as H.
  destruct (fold_left downgrade_line (split_on NL s) (false, [])) as [b new_lines] eqn:E.
  specialize (H ltac:(apply Forall_forall; intros l Hl Ha; apply Hs; by eapply split_on_elem) false []).
  rewrite E in H. simpl in H. subst new_lines. apply join_split_on.
Qed.

(** X6.  The clean-up of [_get_raw_docstring] returns a docstring unchanged
    when it contains no TODO, no hash sign and no triple caret, and its lines
    end with line feeds only: the line feed that is appended before the fences
    are added is the one that [splitlines] and [join] take away again. *)
Theorem X6_plain_docstring_unchanged doc :
  contains (txt "TODO") doc = false → contains (txt "#") doc = false →
  contains (txt ">>>") doc = false → unix_lines doc = true →
  _get_raw_docstring doc = doc.
Proof.
  intros Htodo%contains_false Hhash%contains_false Hcaret%contains_false Hu.
  unfold _get_raw_docstring.
  assert (_StripTODOs doc = doc) as ->.
  { by apply re_sub_no_match, (finditer_requires _ (txt "TODO")). }
  assert (_StripPylintAndPyformat doc = doc) as ->.
  { by apply re_sub_no_match, (finditer_requires _ (txt "#")). }
  assert (_AddDoctestFences (doc ++ [NL]) = doc ++ [NL]) as ->.
  { apply re_sub_no_match, (finditer_requires _ (txt ">>>")); [done|].
    intros H. apply Hcaret. eapply occurs_snoc; [|exact H].
    by apply (bool_decide_unpack _). }
  apply DowngradeH1Keywords_plain; [|done].
  by rewrite <- (occurs_char "#" doc).
Qed.

Lemma X6_plain_docstring_unchanged_witness :
  _get_raw_docstring (lines ["Adds two numbers."; ""; "Gives the sum back."; ""])
  = lines ["Adds two numbers."; ""; "Gives the sum back."; ""].
Proof.
  apply (X6_plain_docstring_unchanged
           (lines ["Adds two numbers."; ""; "Gives the sum back."; ""]));
    vm_compute; reflexivity.
Defined.

(** *** Fenced code *)

Lemma splitlines_app_unix (s t : str) :
  unix_lines s = true → splitlines (s ++ NL :: t) = split_on NL s ++ splitlines t.
Proof.
  induction s as [|a s IH]; [done|]. intros [Ha Hs]%andb_true_iff.
  specialize (IH Hs). cbn [app splitlines split_on].
  destruct (is_linebreak a) eqn:Eb; simpl in Ha.
  - rewrite Ha. apply Ascii.eqb_eq in Ha as ->.
    change (Ascii.eqb NL CR) with false. cbv iota. by rewrite IH.
  - destruct (Ascii.eqb a NL) eqn:Ea.
    { apply Ascii.eqb_eq in Ea as ->. done. }
    rewrite IH. pose proof (split_on_nonempty NL s).
    by destruct (split_on NL s).
Qed.

Lemma splitlines_one (l : str) :
  l ≠ [] → forallb (λ a, negb (is_linebreak a)) l = true → splitlines l = [l].
Proof.
  induction l as [|a l IH]; [done|]. intros _ [Ha Hl]%andb_true_iff.
  cbn [splitlines]. apply negb_true_iff in Ha. rewrite Ha.
  destruct l as [|b l]; [done|]. by rewrite IH.
Qed.

Lemma lstrip_suffix s : ∃ a, s = a ++ lstrip s.
Proof.
  induction s as [|x s [a IH]]; [by exists []|]. simpl.
  destruct (is_space x); [|by exists []].
  exists (x :: a). simpl. by rewrite <- IH.
Qed.

Lemma strip_occurs s : occurs (strip s) s.
Proof.
  unfold strip. destruct (lstrip_suffix s) as [a Ha].
  destruct (lstrip_suffix (rev (lstrip s))) as [b Hb].
  exists a, (rev b). rewrite Ha at 1. f_equal.
  rewrite <- rev_app_distr, <- Hb. by rewrite rev_involutive.
Qed.

Lemma occurs_trans (a b c : str) : occurs a b → occurs b c → occurs a c.
Proof.
  intros (x & y & ->) (u & v & ->). exists (u ++ x), (y ++ v).
  by rewrite <- !app_assoc.
Qed.

Lemma join_occurs sep (l : str) ls : l ∈ ls → occurs l (join sep ls).
Proof.
  induction ls as [|l0 ls IH]; [by intros ?%elem_of_nil|].
  intros [->|Hl]%elem_of_cons.
  - destruct ls as [|l1 ls]; [by exists [], []; rewrite app_nil_r|].
    by exists [], (sep ++ join sep (l1 :: ls)).
  - destruct ls as [|l1 ls]; [by apply elem_of_nil in Hl|].
    change (join sep (l0 :: l1 :: ls)) with (l0 ++ sep ++ join sep (l1 :: ls)).
    by apply occurs_app_r, occurs_app_r, IH.
Qed.

Lemma not_fence_line (body l : str) :
  contains (txt "```") body = false → l ∈ split_on NL body →
  startswith (strip l) (txt "```") = false.
Proof.
  intros Hb%contains_false Hl. destruct (startswith _ _) eqn:E; [|done].
  destruct Hb. apply startswith_true in E as [rest E].
  apply (occurs_trans _ (strip l)); [exists [], rest; by rewrite E|].
  apply (occurs_trans _ l); [apply strip_occurs|].
  rewrite <- (join_split_on NL body). by apply join_occurs.
Qed.

Lemma lstrip_app_keep (u v : str) x :
  is_space x = false → ∃ w, lstrip (u ++ x :: v) = w ++ x :: v.
Proof.
  intros Hx. induction u as [|y u [w IH]]; simpl.
  - rewrite Hx. by exists [].
  - destruct (is_space y); [by exists w|]. by exists (y :: u).
Qed.

Lemma fence_line (lang : str) :
  startswith (strip (txt "```" ++ lang)) (txt "```") = true.
Proof.
  unfold strip. change (lstrip (txt "```" ++ lang)) with (txt "```" ++ lang).
  rewrite rev_app_distr.
  destruct (lstrip_app_keep (rev lang) (txt "``") "`" eq_refl) as [w Hw].
  change (rev (txt "```")) with ("`"%char :: txt "``"). rewrite Hw.
  rewrite rev_app_distr. apply startswith_true. by exists (rev w).
Qed.

Lemma downgrade_code_lines ls : ∀ acc,
  Forall (λ l, startswith (strip l) (txt "```") = false) ls →
  fold_left downgrade_line ls (true, acc) = (true, acc ++ ls).
Proof.
  induction ls as [|l ls IH]; intros acc Hall; cbn [fold_left]; [by rewrite app_nil_r|].
  apply Forall_cons in Hall as [Hl Hall].
  assert (downgrade_line (true, acc) l = (true, acc ++ [l])) as ->.
  { unfold downgrade_line. by rewrite Hl. }
  rewrite IH by done. by rewrite <- app_assoc.
Qed.

Lemma join_cons (sep l : str) ls : ls ≠ [] → join sep (l :: ls) = l ++ sep ++ join sep ls.
Proof. by destruct ls. Qed.

(** X11.  A fenced block, that is a line of three backquotes and a language
    name, a body and a closing line of three backquotes, is returned as it is
    when the body has no three backquotes in a row and its lines end with line
    feeds: headings inside code are left alone. *)
Theorem X11_fenced_code_is_kept (lang body : str) :
  forallb (λ a, negb (is_linebreak a)) lang = true →
  unix_lines body = true → contains (txt "```") body = false →
  _DowngradeH1Keywords (txt "```" ++ lang ++ [NL] ++ body ++ [NL] ++ txt "```")
  = txt "```" ++ lang ++ [NL] ++ body ++ [NL] ++ txt "```".
Proof.
  intros Hlang Hu Hb. unfold _DowngradeH1Keywords.
  set (first := txt "```" ++ lang).
  assert (Hfirst : forallb (λ a, negb (is_linebreak a)) first = true).
  { unfold first. by rewrite forallb_app, Hlang. }
  assert (Hnl : NL ∉ first).
  { intros Hin%list_elem_of_In. rewrite forallb_forall in Hfirst.
    by apply Hfirst in Hin. }
  assert (Hufirst : unix_lines first = true).
  { unfold unix_lines. rewrite forallb_forall in Hfirst. apply forallb_forall.
    intros a Ha. by rewrite (Hfirst a Ha). }
  replace (txt "```" ++ lang ++ [NL] ++ body ++ [NL] ++ txt "```")
    with ((first ++ NL :: body) ++ NL :: txt "```")
    by (unfold first; by rewrite <- !app_assoc).
  rewrite splitlines_app_unix.
  2:{ unfold unix_lines in *. rewrite forallb_app. cbn [forallb].
      by rewrite Hufirst, Hu. }
  rewrite split_on_app_sep by done.
  change (splitlines (txt "```")) with [txt "```"].
  cbn [app fold_left].
  assert (downgrade_line (false, []) first = (true, [first])) as ->.
  { unfold downgrade_line, first. by rewrite fence_line. }
  rewrite fold_left_app, downgrade_code_lines.
  2:{ apply Forall_forall. intros l Hl. by eapply not_fence_line. }
  cbn [fold_left].
  assert (∀ acc, downgrade_line (true, acc) (txt "```") = (false, acc ++ [txt "```"]))
    as -> by done.
  cbn [app]. rewrite join_snoc.
  rewrite join_cons by apply split_on_nonempty.
  rewrite join_split_on. by rewrite <- !app_assoc.
Qed.

Lemma X11_fenced_code_is_kept_witness :
  _DowngradeH1Keywords
    (txt "```" ++ txt "python" ++ [NL] ++ lines ["# Args:"; "x = 1"] ++ [NL] ++ txt "```")
  = txt "```" ++ txt "python" ++ [NL] ++ lines ["# Args:"; "x = 1"] ++ [NL] ++ txt "```".
Proof.
  apply (X11_fenced_code_is_kept (txt "python") (lines ["# Args:"; "x = 1"])); reflexivity.
Defined.

(** *** Headings *)

Lemma rep_greedy_run {A} (p : ascii → bool) (k : str → str → option A) l :
  ∀ mn bef aft' x,
  Forall (λ a, p a = true) l →
  match aft' with [] => True | a :: _ => p a = false end →
  mn ≤ length l →
  k (rev l ++ bef) aft' = Some x →
  rep true p mn None bef (l ++ aft') k = Some x.
Proof.
  induction l as [|a l IH]; intros mn bef aft' x Hall Hnext Hmn Hk.
  - simpl in Hmn. assert (mn = 0) as -> by lia. simpl in Hk |- *.
    destruct aft' as [|b aft']; simpl; [by rewrite Hk|]. by rewrite Hnext.
  - apply Forall_cons in Hall as [Ha Hall]. cbn [app rep]. rewrite Ha.
    cbn [andb can_more dec_max].
    rewrite (IH (Nat.pred mn) (a :: bef) aft' x); try done.
    + simpl in Hmn. lia.
    + simpl in Hk. by rewrite <- app_assoc in Hk.
Qed.

Lemma keyword_tail (ws2 tail : str) bef g :
  forallb is_space ws2 = true →
  m NOFLAGS (Seq (star (One Space)) (opt (One (ch ":")))) (bef, ws2 ++ txt ":" ++ tail) g
    (accept 0 false)
  = Some ((rev (txt ":") ++ rev ws2 ++ bef, tail), g).
Proof.
  intros Hws. rewrite m_Seq. unfold star. cbn [m fst snd].
  apply rep_greedy_run; [by apply (Forall_forallb _ _ _ (space_mem NOFLAGS)) | done | lia |].
  unfold opt. cbn [m fst snd]. change (txt ":" ++ tail) with (":"%char :: tail).
  cbn [rep]. change (cset_mem NOFLAGS (One (ch ":")) ":") with true.
  cbn [andb can_more dec_max Nat.pred].
  destruct tail as [|a tail]; cbn [rep]; [done|].
  by rewrite andb_false_r.
Qed.

Lemma keyword_group kw (k2 : K) bef rest g x :
  kw ∈ KEYWORDS →
  match rest with [] => True | a :: _ => Ascii.eqb a "s" = false end →
  k2 (rev kw ++ bef, rest) (<[1 := Some (length bef, length (rev kw ++ bef))]> g) = Some x →
  m NOFLAGS (Group 2 KEYWORD_ALTS) (bef, kw ++ rest) g k2 = Some x.
Proof.
  intros Hkw Hrest Hk. unfold KEYWORDS in Hkw. cbn [map] in Hkw.
  repeat (apply elem_of_cons in Hkw as [->|Hkw]); [..|by apply elem_of_nil in Hkw].
  all: simpl in Hk.
  all: unfold KEYWORD_ALTS; cbn [Alts m fst snd pos Nat.pred].
  all: rewrite ?m_Lit.
  all: unfold pos; simpl; rewrite ?Hk; try done.
  all: destruct rest as [|a rest]; simpl; rewrite ?Hrest, ?andb_false_r; rewrite ?Hk; done.
Qed.

Lemma keyword_first kw : kw ∈ KEYWORDS → ∃ a kw', kw = a :: kw' ∧ is_space a = false.
Proof.
  intros Hkw. unfold KEYWORDS in Hkw. cbn [map] in Hkw.
  repeat (apply elem_of_cons in Hkw as [->|Hkw]); [..|by apply elem_of_nil in Hkw];
    eexists _, _; by split.
Qed.

Lemma space_not_s a : is_space a = true → Ascii.eqb a "s" = false.
Proof.
  intros Ha. destruct (Ascii.eqb a "s") eqn:E; [|done].
  apply Ascii.eqb_eq in E as ->. done.
Qed.

Lemma m_Seq_Bol fl r aft g k : m fl (Seq Bol r) ([], aft) g k = m fl r ([], aft) g k.
Proof. done. Qed.

Lemma m_Seq_Lit fl s r bef aft g k :
  m fl (Seq (Lit s) r) (bef, s ++ aft) g k = m fl r (rev s ++ bef, aft) g k.
Proof. by rewrite m_Seq, m_Lit, strip_prefix_app. Qed.

Lemma m_Seq_star fl cs r l bef aft' g k x :
  Forall (λ a, cset_mem fl cs a = true) l →
  match aft' with [] => True | a :: _ => cset_mem fl cs a = false end →
  m fl r (rev l ++ bef, aft') g k = Some x →
  m fl (Seq (star cs) r) (bef, l ++ aft') g k = Some x.
Proof.
  intros Hall Hnext Hr.
  change (rep true (cset_mem fl cs) 0 None bef (l ++ aft')
            (λ b a, m fl r (b, a) g k) = Some x).
  apply rep_greedy_run; [done | done | lia | done].
Qed.

Lemma m_Seq_Group_star fl n cs r l bef aft' g k x :
  Forall (λ a, cset_mem fl cs a = true) l →
  match aft' with [] => True | a :: _ => cset_mem fl cs a = false end →
  m fl r (rev l ++ bef, aft') (<[Nat.pred n := Some (length bef, length (rev l ++ bef))]> g) k
  = Some x →
  m fl (Seq (Group n (star cs)) r) (bef, l ++ aft') g k = Some x.
Proof.
  intros Hall Hnext Hr.
  change (rep true (cset_mem fl cs) 0 None bef (l ++ aft')
            (λ b a, m fl r (b, a)
                      (<[Nat.pred n := Some (length bef, length b)]> g) k) = Some x).
  apply rep_greedy_run; [done | done | lia | done].
Qed.

Lemma keyword_match_here indent ws1 kw ws2 tail :
  forallb is_space indent = true → forallb is_space ws1 = true →
  forallb is_space ws2 = true → kw ∈ KEYWORDS →
  match_here KEYWORD_H1_RE ([], indent ++ txt "#" ++ ws1 ++ kw ++ ws2 ++ txt ":" ++ tail) false
  = Some ((rev (txt ":") ++ rev ws2 ++ rev kw ++ rev ws1 ++ rev (txt "#") ++ rev indent, tail),
          [Some (0, length indent);
           Some (length indent + 1 + length ws1, length indent + 1 + length ws1 + length kw)]).
Proof.
  intros Hin Hw1 Hw2 Hkw.
  destruct (keyword_first kw Hkw) as (a & kw' & Ekw & Ha).
  change (m NOFLAGS
            (Seq Bol (Seq (Group 1 (star (One Space)))
               (Seq (Lit (txt "#")) (Seq (star (One Space))
                  (Seq (Group 2 KEYWORD_ALTS)
                       (Seq (star (One Space)) (opt (One (ch ":")))))))))
            ([], indent ++ txt "#" ++ ws1 ++ kw ++ ws2 ++ txt ":" ++ tail)
            [None; None] (accept 0 false) = 
          Some ((rev (txt ":") ++ rev ws2 ++ rev kw ++ rev ws1 ++ rev (txt "#") ++ rev indent, tail),
          [Some (0, length indent);
           Some (length indent + 1 + length ws1, length indent + 1 + length ws1 + length kw)])).
  rewrite m_Seq_Bol.
  apply m_Seq_Group_star;
    [by apply (Forall_forallb _ _ _ (space_mem NOFLAGS)) | done |].
  rewrite m_Seq_Lit.
  apply m_Seq_star;
    [by apply (Forall_forallb _ _ _ (space_mem NOFLAGS))
    | by rewrite Ekw; simpl; rewrite Ha |].
  rewrite m_Seq. apply keyword_group; [done | |].
  { destruct ws2 as [|b ws2]; [done|]. apply andb_true_iff in Hw2 as [Hb _].
    by apply space_not_s. }
  rewrite keyword_tail by done. cbn [Nat.pred].
  rewrite !app_nil_r. do 2 f_equal. cbn [insert list_insert].
  rewrite !length_app, !length_rev. cbn [length txt list_ascii_of_string].
  do 4 f_equal; lia.
Qed.

Lemma Bol_scan_None aft : ∀ bef adv, bef ≠ [] → scan KEYWORD_H1_RE bef aft adv = None.
Proof.
  induction aft as [|a aft IH]; intros [|b bef] adv Hne; try done.
  - rewrite scan_unfold. by rewrite IH.
Qed.

Lemma finditer_single p s r :
  scan p [] s false = Some r →
  scan p r.2.1.1 r.2.1.2 (pos r.2.1 =? r.1) = None →
  finditer p s = [mk_match s r].
Proof.
  intros H1 H2. apply (Run_det p s None ([], s) false); [apply matches_upto_run|].
  eapply Run_step; [done | exact H1 |]. by apply Run_done.
Qed.

Lemma keyword_sub_heading indent ws1 kw ws2 tail :
  forallb is_space indent = true → forallb is_space ws1 = true →
  forallb is_space ws2 = true → kw ∈ KEYWORDS →
  re_sub KEYWORD_H1_RE keyword_repl
    (indent ++ txt "#" ++ ws1 ++ kw ++ ws2 ++ txt ":" ++ tail)
  = indent ++ kw ++ txt ":" ++ tail.
Proof.
  intros Hin Hw1 Hw2 Hkw. unfold re_sub.
  set (line := indent ++ txt "#" ++ ws1 ++ kw ++ ws2 ++ txt ":" ++ tail).
  pose proof (keyword_match_here indent ws1 kw ws2 tail Hin Hw1 Hw2 Hkw) as Hm.
  fold line in Hm.
  erewrite finditer_single; cycle 1.
  { rewrite scan_unfold, Hm. reflexivity. }
  { cbn [fst snd]. by apply Bol_scan_None. }
  cbn [splice mk_match m_start m_end fst snd app concat id].
  unfold keyword_repl, group_text, group. cbn [m_marks m_string mk_match fst snd Nat.pred].
  cbn [lookup list_lookup default].
  rewrite app_nil_r. cbn [length].
  replace (slice line 0 0) with (@nil ascii) by done.
  replace (slice line 0 (length indent)) with indent.
  2:{ unfold line. rewrite slice_0. by rewrite take_app_length. }
  replace (slice line _ _) with kw.
  2:{ symmetry. apply (slice_mid line (indent ++ txt "#" ++ ws1) kw (ws2 ++ txt ":" ++ tail)).
      - unfold line. by rewrite <- !app_assoc.
      - rewrite !length_app. simpl. lia.
      - rewrite !length_app. simpl. lia. }
  replace (drop _ line) with tail.
  2:{ unfold line, pos. cbn [fst].
      replace (indent ++ txt "#" ++ ws1 ++ kw ++ ws2 ++ txt ":" ++ tail)
        with ((indent ++ txt "#" ++ ws1 ++ kw ++ ws2 ++ txt ":") ++ tail)
        by (by rewrite <- !app_assoc).
      rewrite drop_app_length'; [done|].
      rewrite !length_app, !length_rev. simpl. lia. }
  cbn [app]. by rewrite <- !app_assoc.
Qed.

Lemma blank_space l : forallb is_blank l = true → forallb is_space l = true.
Proof.
  rewrite !forallb_forall. intros H a Ha. apply H in Ha.
  by apply andb_true_iff in Ha as [? _].
Qed.

Lemma blank_no_linebreak l :
  forallb is_blank l = true → forallb (λ a, negb (is_linebreak a)) l = true.
Proof.
  rewrite !forallb_forall. intros H a Ha. apply H in Ha.
  by apply andb_true_iff in Ha as [_ ?].
Qed.

Lemma keyword_no_linebreak kw :
  kw ∈ KEYWORDS → forallb (λ a, negb (is_linebreak a)) kw = true.
Proof.
  intros Hkw. unfold KEYWORDS in Hkw. cbn [map] in Hkw.
  by repeat (apply elem_of_cons in Hkw as [->|Hkw]); [..|by apply elem_of_nil in Hkw].
Qed.

Lemma lstrip_spaces l x r :
  forallb is_space l = true → is_space x = false → lstrip (l ++ x :: r) = x :: r.
Proof.
  intros Hl Hx. induction l as [|a l IH]; simpl.
  - by rewrite Hx.
  - apply andb_true_iff in Hl as [Ha Hl]. rewrite Ha. by apply IH.
Qed.

(** X10.  A one-line docstring that is a Keras-style heading, that is white
    space, a hash sign, white space, one of the nine keywords, white space and
    a colon, becomes the leading white space, the keyword and a colon; what
    follows the colon is kept.  The white space around the keyword is dropped.
    *)
Theorem X10_heading_is_downgraded indent ws1 kw ws2 tail :
  forallb is_blank indent = true → forallb is_blank ws1 = true →
  forallb is_blank ws2 = true → kw ∈ KEYWORDS →
  forallb (λ a, negb (is_linebreak a)) tail = true →
  _DowngradeH1Keywords (indent ++ txt "#" ++ ws1 ++ kw ++ ws2 ++ txt ":" ++ tail)
  = indent ++ kw ++ txt ":" ++ tail.
Proof.
  intros Hin Hw1 Hw2 Hkw Htail. unfold _DowngradeH1Keywords.
  rewrite splitlines_one.
  2:{ by destruct indent. }
  2:{ rewrite !forallb_app, Htail, (keyword_no_linebreak kw Hkw).
      by rewrite (blank_no_linebreak indent), (blank_no_linebreak ws1),
        (blank_no_linebreak ws2). }
  cbn [fold_left]. unfold downgrade_line.
  assert (startswith (strip (indent ++ txt "#" ++ ws1 ++ kw ++ ws2 ++ txt ":" ++ tail))
            (txt "```") = false) as ->.
  { unfold strip. change (txt "#" ++ ?r) with ("#"%char :: r).
    rewrite lstrip_spaces by (by apply blank_space || done).
    change (rev ("#"%char :: ?r)) with (rev r ++ ["#"%char]).
    destruct (lstrip_app_keep (rev (ws1 ++ kw ++ ws2 ++ txt ":" ++ tail)) [] "#" eq_refl)
      as [w Hw].
    rewrite Hw, rev_app_distr. done. }
  cbn [negb app join]. by apply keyword_sub_heading; try apply blank_space.
Qed.

Lemma X10_heading_is_downgraded_witness :
  _DowngradeH1Keywords
    (txt "  " ++ txt "#" ++ txt " " ++ txt "Arguments" ++ txt "" ++ txt ":" ++ txt " none")
  = txt "  " ++ txt "Arguments" ++ txt ":" ++ txt " none".
Proof.
  apply (X10_heading_is_downgraded (txt "  ") (txt " ") (txt "Arguments") (txt "") (txt " none"));
    first [ reflexivity | by apply (bool_decide_unpack _) ].
Defined.

(** *** Text before the first fence *)

Lemma downgrade_prose_lines ls : ∀ acc,
  Forall (λ l, startswith (strip l) (txt "```") = false) ls →
  fold_left downgrade_line ls (false, acc)
  = (false, acc ++ map (re_sub KEYWORD_H1_RE keyword_repl) ls).
Proof.
  induction ls as [|l ls IH]; intros acc Hall; cbn [fold_left map]; [by rewrite app_nil_r|].
  apply Forall_cons in Hall as [Hl Hall].
  assert (downgrade_line (false, acc) l
          = (false, acc ++ [re_sub KEYWORD_H1_RE keyword_repl l])) as ->.
  { unfold downgrade_line. by rewrite Hl. }
  rewrite IH by done. by rewrite <- app_assoc.
Qed.

Lemma downgrade_lines_acc ls : ∀ b acc,
  fold_left downgrade_line ls (b, acc)
  = ((fold_left downgrade_line ls (b, [])).1,
     acc ++ (fold_left downgrade_line ls (b, [])).2).
Proof.
  induction ls as [|l ls IH]; intros b acc; cbn [fold_left]; [by rewrite app_nil_r|].
  assert (∃ b' x, ∀ acc, downgrade_line (b, acc) l = (b', acc ++ [x])) as (b' & x & Hx).
  { unfold downgrade_line.
    destruct (startswith (strip l) (txt "```")), (negb b); eauto. }
  rewrite !Hx. rewrite (IH b' (acc ++ [x])), (IH b' ([] ++ [x])).
  cbn [fst snd app]. by rewrite <- app_assoc.
Qed.

Lemma downgrade_lines_length ls : ∀ b acc,
  length (fold_left downgrade_line ls (b, acc)).2 = length acc + length ls.
Proof.
  induction ls as [|l ls IH]; intros b acc; cbn [fold_left]; [simpl; lia|].
  assert (∃ b' x, downgrade_line (b, acc) l = (b', acc ++ [x])) as (b' & x & ->).
  { unfold downgrade_line.
    destruct (startswith (strip l) (txt "```")), (negb b); eauto. }
  rewrite IH, length_app. simpl. lia.
Qed.

Lemma splitlines_nonempty s : s ≠ [] → splitlines s ≠ [].
Proof.
  destruct s as [|a s]; [done|]. intros _. cbn [splitlines].
  destruct (is_linebreak a); [done|]. by destruct (splitlines s).
Qed.

Lemma join_app (sep : str) (xs ys : list str) :
  xs ≠ [] → ys ≠ [] → join sep (xs ++ ys) = join sep xs ++ sep ++ join sep ys.
Proof.
  intros Hx Hy. induction xs as [|x xs IH]; [done|].
  destruct xs as [|x' xs].
  - cbn [app]. by rewrite join_cons.
  - change ((x :: x' :: xs) ++ ys) with (x :: (x' :: xs) ++ ys).
    rewrite join_cons by done. rewrite IH by done.
    rewrite (join_cons sep x (x' :: xs)) by done. by rewrite <- !app_assoc.
Qed.

(** X12.  Text before the first fence is downgraded on its own: when [a] has
    no three backquotes in a row and its lines end with line feeds, the result
    for [a], a line feed and a non-empty [b] is the result for [a] with a line
    feed, a line feed, and the result for [b]. *)
Theorem X12_text_before_first_fence (a b : str) :
  unix_lines a = true → contains (txt "```") a = false → b ≠ [] →
  _DowngradeH1Keywords (a ++ [NL] ++ b)
  = _DowngradeH1Keywords (a ++ [NL]) ++ [NL] ++ _DowngradeH1Keywords b.
Proof.
  intros Hu Hf Hb. unfold _DowngradeH1Keywords.
  change (a ++ [NL] ++ b) with (a ++ NL :: b).
  rewrite (splitlines_app_unix a b Hu), (splitlines_app_unix a [] Hu).
  cbn [splitlines]. rewrite app_nil_r, fold_left_app.
  assert (Hall : Forall (λ l, startswith (strip l) (txt "```") = false) (split_on NL a)).
  { apply Forall_forall. intros l Hl. by eapply not_fence_line. }
  rewrite (downgrade_prose_lines _ [] Hall). cbn [app].
  rewrite downgrade_lines_acc.
  pose proof (downgrade_lines_length (splitlines b) false []) as Hlen.
  destruct (fold_left downgrade_line (splitlines b) (false, [])) as [b' new_lines].
  cbn [fst snd] in *.
  apply join_app.
  - pose proof (split_on_nonempty NL a). by destruct (split_on NL a).
  - pose proof (splitlines_nonempty b Hb). destruct new_lines; [|done].
    destruct (splitlines b); [done | simpl in Hlen; lia].
Qed.

Lemma X12_text_before_first_fence_witness :
  _DowngradeH1Keywords (txt "# Args:" ++ [NL] ++ lines ["```"; "# Args:"; "```"])
  = _DowngradeH1Keywords (txt "# Args:" ++ [NL]) ++ [NL]
    ++ _DowngradeH1Keywords (lines ["```"; "# Args:"; "```"]).
Proof.
  apply (X12_text_before_first_fence (txt "# Args:") (lines ["```"; "# Args:"; "```"]));
    [reflexivity | reflexivity | done].
Defined.

(** * One-line docstrings *)

Lemma handle_compatibility_one_line raw :
  NL ∉ raw → _handle_compatibility raw = (raw, ∅).
Proof.
  intros Hnl. unfold _handle_compatibility, re_delete.
  assert (finditer match_compatibility raw = []) as Hno.
  { apply (finditer_requires _ [NL]); [done|]. by rewrite occurs_char. }
  by rewrite (re_sub_no_match _ _ _ Hno), Hno.
Qed.

(** X21.  A one-line docstring that is not a dropped line and does not hold
    the sentinel phrase is its own brief: there are no parts and no
    compatibility notes. *)
Theorem X21_one_line_docstring raw :
  NL ∉ raw → ¬ atat_line raw → contains GENERATED_BY raw = false →
  parse_md_docstring raw
  = Ok {| brief := raw; docstring_parts := []; compatibility := ∅ |}.
Proof.
  intros Hnl Hat Hgen. unfold parse_md_docstring.
  rewrite (split_on_free _ _ Hnl).
  assert (re_match atat_re raw = None) as Hnone.
  { destruct (re_match atat_re raw) eqn:E; [|done].
    destruct Hat. apply atat_re_match; [done|]. by rewrite E. }
  rewrite filter_cons, decide_True by done. rewrite filter_nil. cbn [join].
  rewrite (handle_compatibility_one_line _ Hnl), Hgen.
  by rewrite (split_on_free _ _ Hnl).
Qed.

Lemma X21_one_line_docstring_witness :
  parse_md_docstring (txt "Computes the sum.")
  = Ok {| brief := txt "Computes the sum."; docstring_parts := []; compatibility := ∅ |}.
Proof.
  apply (X21_one_line_docstring (txt "Computes the sum.")).
  - by apply (bool_decide_unpack _).
  - intros H. apply atat_re_match in H; [|by apply (bool_decide_unpack _)].
    vm_compute in H. by destruct H.
  - vm_compute. reflexivity.
Defined.

(** * The lines that are dropped *)

(** X19.  A line without a line feed is matched by [atat_re], and so left out
    by [parse_md_docstring], exactly when it consists of spaces, two at signs,
    a non-empty name of ASCII letters, digits, underscores and dots, and
    spaces. *)
Theorem X19_lines_that_are_dropped line :
  NL ∉ line → is_Some (re_match atat_re line) ↔ atat_line line.
Proof. apply atat_re_match. Qed.

Lemma X19_lines_that_are_dropped_witness :
  is_Some (re_match atat_re (txt " @@tf.abs ")) ↔ atat_line (txt " @@tf.abs ").
Proof.
  apply (X19_lines_that_are_dropped (txt " @@tf.abs ")).
  by apply (bool_decide_unpack _).
Defined.

(** * Plain docstrings *)

Lemma re_match_requires p lit s :
  requires lit (p_re p) = true → ¬ occurs lit s → re_match p s = None.
Proof.
  intros Hreq Hno. unfold re_match.
  destruct (match_here p ([], s) false) as [[c' g']|] eqn:E; [|done].
  apply match_here_sound in E as [HM _].
  destruct (Matches_consumes _ _ _ _ _ _ HM) as [l HC].
  destruct Hno. pose proof HC as [Hs _]. simpl in Hs. rewrite Hs.
  apply occurs_app_l. by eapply Matches_requires.
Qed.

Lemma filter_all {A} (P : A → Prop) `{∀ x, Decision (P x)} (l : list A) :
  Forall P l → filter P l = l.
Proof.
  induction 1 as [|x l Hx _ IH]; [done|].
  by rewrite filter_cons, decide_True, IH.
Qed.

Lemma split_string_plain s :
  ":"%char ∉ s → split_string s = Ok (match s with [] => [] | _ => [Prose s] end).
Proof.
  intros Hs. destruct s as [|a s]; [done|].
  unfold split_string. simpl length. cbn [split_string_loop].
  rewrite split_step_None; [done|].
  apply BLOCK_RE_scan_None.
  intros i (pre & nl & u & tail & ws1 & ws2 & rest & Heq & _).
  apply Hs. rewrite Heq, !elem_of_app. do 5 right. left. by left.
Qed.

(** X22.  A docstring of a first line and more text, without at sign, without
    colon after the first line and without the sentinel phrase, gives the
    first line as brief and the rest as one prose part, with no compatibility
    notes. *)
Theorem X22_brief_and_prose (first rest : str) :
  NL ∉ first → rest ≠ [] → ("@"%char ∉ first ++ rest) → (":"%char ∉ rest) →
  contains GENERATED_BY (first ++ [NL] ++ rest) = false →
  parse_md_docstring (first ++ [NL] ++ rest)
  = Ok {| brief := first; docstring_parts := [Prose rest]; compatibility := ∅ |}.
Proof.
  intros Hnl Hrest Hat Hcolon Hgen.
  set (raw := first ++ [NL] ++ rest) in *.
  assert (Hraw : "@"%char ∉ raw).
  { unfold raw. rewrite !elem_of_app. rewrite elem_of_app in Hat.
    intros [H|[H|H]]; [tauto | | tauto].
    apply list_elem_of_singleton in H. done. }
  unfold parse_md_docstring.
  rewrite filter_all.
  2:{ apply Forall_forall. intros l Hl.
      apply (re_match_requires _ (txt "@@")); [done|].
      intros (x & y & ->). apply Hraw. eapply split_on_elem; [exact Hl|].
      rewrite !elem_of_app. right. left. by left. }
  rewrite join_split_on.
  assert (_handle_compatibility raw = (raw, ∅)) as ->.
  { unfold _handle_compatibility, re_delete.
    assert (finditer match_compatibility raw = []) as Hno.
    { apply (finditer_requires _ (txt "@")); [done|].
      by rewrite (occurs_char "@" raw). }
    by rewrite (re_sub_no_match _ _ _ Hno), Hno. }
  rewrite Hgen. unfold raw. change (first ++ [NL] ++ rest) with (first ++ NL :: rest).
  rewrite split_on_app_sep by done. cbn [hd tl].
  rewrite join_split_on, (split_string_plain rest Hcolon), bind_Ok.
  by destruct rest.
Qed.

Lemma X22_brief_and_prose_witness :
  parse_md_docstring (txt "Adds two numbers." ++ [NL] ++ lines [""; "The sum is exact."])
  = Ok {| brief := txt "Adds two numbers.";
          docstring_parts := [Prose (lines [""; "The sum is exact."])];
          compatibility := ∅ |}.
Proof.
  apply (X22_brief_and_prose (txt "Adds two numbers.") (lines [""; "The sum is exact."]));
    first [ done | by apply (bool_decide_unpack _) | vm_compute; reflexivity ].
Defined.

(** * Doctest blocks *)

Lemma unbroken_app l1 l2 : unbroken (l1 ++ l2) = true → unbroken l2 = true.
Proof.
  induction l1 as [|a l1 IH]; [done|]. simpl. intros [_ H]%andb_true_iff. auto.
Qed.

Lemma unbroken_NL l1 l2 :
  unbroken (l1 ++ NL :: l2) = true → ∃ b l2', l2 = b :: l2' ∧ is_space b = false.
Proof.
  intros H%unbroken_app. simpl in H. apply andb_true_iff in H as [H _].
  destruct l2 as [|b l2']; [done|]. exists b, l2'. split; [done|].
  by apply negb_true_iff.
Qed.

(** A lazy repetition stops after [l] when the rest succeeds there and
    fails after every shorter run. *)
Lemma rep_lazy_run {A} (p : ascii → bool) (k : str → str → option A) l :
  ∀ bef aft' x,
  Forall (λ a, p a = true) l →
  k (rev l ++ bef) aft' = Some x →
  (∀ l1 l2, l = l1 ++ l2 → l2 ≠ [] → k (rev l1 ++ bef) (l2 ++ aft') = None) →
  rep false p 0 None bef (l ++ aft') k = Some x.
Proof.
  induction l as [|a l IH]; intros bef aft' x Hall Hk Hshort.
  - simpl in Hk |- *. destruct aft'; simpl; by rewrite Hk.
  - apply Forall_cons in Hall as [Ha Hall]. cbn [app rep].
    pose proof (Hshort [] (a :: l) eq_refl ltac:(done)) as H0.
    simpl in H0. rewrite H0, Ha.
    cbn [andb can_more dec_max Nat.pred]. apply IH; [done | |].
    + simpl in Hk. by rewrite <- app_assoc in Hk.
    + intros l1 l2 -> Hne. specialize (Hshort (a :: l1) l2 eq_refl Hne).
      simpl in Hshort. by rewrite <- app_assoc in Hshort.
Qed.

(** The converse of [scan_Some]. *)
Lemma scan_at p gap : ∀ bef aft1 res,
  (∀ l1 l2, gap = l1 ++ l2 → l2 ≠ [] →
     match_here p (rev l1 ++ bef, l2 ++ aft1) false = None) →
  match_here p (rev gap ++ bef, aft1) false = Some res →
  scan p bef (gap ++ aft1) false = Some (length bef + length gap, res).
Proof.
  induction gap as [|a gap IH]; intros bef aft1 res Hleft Hm.
  - rewrite scan_unfold. simpl in Hm |- *. rewrite Hm. by rewrite Nat.add_0_r.
  - rewrite scan_unfold. cbn [app].
    pose proof (Hleft [] (a :: gap) eq_refl ltac:(done)) as H0.
    simpl in H0. rewrite H0.
    rewrite (IH (a :: bef) aft1 res).
    + f_equal. f_equal. simpl. lia.
    + intros l1 l2 -> Hne. specialize (Hleft (a :: l1) l2 eq_refl Hne).
      simpl in Hleft. by rewrite <- app_assoc in Hleft.
    + simpl in Hm. by rewrite <- app_assoc in Hm.
Qed.

Lemma space_not_NL b : is_space b = false → Ascii.eqb NL b = false ∧ Ascii.eqb b NL = false.
Proof.
  intros Hb. split.
  - destruct (Ascii.eqb NL b) eqn:E; [|done]. apply Ascii.eqb_eq in E as <-. done.
  - destruct (Ascii.eqb b NL) eqn:E; [|done]. apply Ascii.eqb_eq in E as ->. done.
Qed.

Lemma caret_end_here bef g st :
  m F_DOTALL CARET_END (bef, [NL]) g (accept st false) = Some ((NL :: bef, []), g).
Proof. done. Qed.

Lemma caret_end_fail bef a rest g k :
  Ascii.eqb NL a = false → m F_DOTALL CARET_END (bef, a :: rest) g k = None.
Proof.
  intros Ha. unfold CARET_END. rewrite m_Seq, m_Lit. cbn [strip_prefix]. by rewrite Ha.
Qed.

Lemma caret_end_fail_NL bef b rest g k :
  is_space b = false → m F_DOTALL CARET_END (bef, NL :: b :: rest) g k = None.
Proof.
  intros Hb. destruct (space_not_NL b Hb) as [H1 H2].
  unfold CARET_END. rewrite (m_Seq_Lit F_DOTALL [NL] _ bef (b :: rest)).
  unfold star_lazy. rewrite m_Seq. cbn [m fst snd rep strip_prefix at_eol].
  rewrite H1, H2. cbn [andb]. rewrite space_mem, Hb. done.
Qed.

Lemma m_Seq_Group_Lit_lazy fl n s cs r l bef aft' g k x :
  Forall (λ a, cset_mem fl cs a = true) l →
  m fl r (rev l ++ rev s ++ bef, aft')
    (<[Nat.pred n := Some (length bef, length (rev l ++ rev s ++ bef))]> g) k = Some x →
  (∀ l1 l2 g', l = l1 ++ l2 → l2 ≠ [] →
     m fl r (rev l1 ++ rev s ++ bef, l2 ++ aft') g' k = None) →
  m fl (Seq (Group n (Seq (Lit s) (star_lazy cs))) r) (bef, s ++ l ++ aft') g k = Some x.
Proof.
  intros Hall Hk Hshort. rewrite m_Seq. cbn [m fst snd]. rewrite strip_prefix_app.
  unfold pos. cbn [fst].
  apply (rep_lazy_run (cset_mem fl cs)
           (λ b a, m fl r (b, a) (<[Nat.pred n := Some (length bef, length b)]> g) k));
    [done | done |].
  intros l1 l2 Hl Hne. by apply Hshort.
Qed.

Lemma caret_match_here pre indent c :
  forallb (Ascii.eqb SP) indent = true → unbroken c = true →
  match_here CARET_BLOCK_RE (rev pre, [NL] ++ indent ++ txt ">>>" ++ c ++ [NL]) false
  = Some ((NL :: rev c ++ rev (txt ">>>") ++ rev indent ++ rev [NL] ++ rev pre, []),
          [Some (length pre + 1, length pre + 1 + length indent);
           Some (length pre + 1 + length indent,
                 length pre + 1 + length indent + 3 + length c)]).
Proof.
  intros Hin Hc.
  change (m F_DOTALL
            (Seq (Lit [NL]) (Seq (Group 1 (star (One (Ch SP))))
               (Seq (Group 2 (Seq (Lit (txt ">>>")) (star_lazy Dot))) CARET_END)))
            (rev pre, [NL] ++ indent ++ txt ">>>" ++ c ++ [NL])
            [None; None] (accept (length (rev pre)) false)
          = Some ((NL :: rev c ++ rev (txt ">>>") ++ rev indent ++ rev [NL] ++ rev pre, []),
                  [Some (length pre + 1, length pre + 1 + length indent);
                   Some (length pre + 1 + length indent,
                         length pre + 1 + length indent + 3 + length c)])).
  rewrite m_Seq_Lit.
  apply m_Seq_Group_star; [| done |].
  { apply (Forall_forallb (Ascii.eqb SP)); [|done]. intros a. apply Ascii.eqb_sym. }
  apply m_Seq_Group_Lit_lazy.
  - apply Forall_forall. by intros a _.
  - rewrite caret_end_here. do 2 f_equal. cbn [Nat.pred insert list_insert].
    rewrite !length_app, !length_rev. cbn [length txt list_ascii_of_string].
    f_equal; [do 2 f_equal; lia | do 3 f_equal; lia].
  - intros l1 l2 g' -> Hne. destruct l2 as [|a l2]; [done|]. cbn [app].
    destruct (Ascii.eqb NL a) eqn:Ea.
    + apply Ascii.eqb_eq in Ea as <-.
      destruct (unbroken_NL _ _ Hc) as (b & l2' & -> & Hb).
      by apply caret_end_fail_NL.
    + by apply caret_end_fail.
Qed.

Lemma caret_prefix_absurd (l2 rest sp Y : str) :
  l2 ≠ [] → ¬ occurs (txt ">>>") l2 →
  Forall (λ a, cset_mem F_DOTALL (One (Ch SP)) a = true) sp →
  l2 ++ NL :: rest = [NL] ++ sp ++ txt ">>>" ++ Y → False.
Proof.
  intros Hne Hno Hsp H. destruct l2 as [|a l2']; [done|].
  injection H as -> H.
  assert ((sp ++ txt ">>>") ++ Y = l2' ++ NL :: rest) as H'
    by (by rewrite <- app_assoc).
  apply app_prefix_free in H' as [z Hz].
  - apply Hno. exists (NL :: sp), z. rewrite Hz. by rewrite <- !app_assoc.
  - rewrite elem_of_app. intros [Hin|Hin].
    + rewrite Forall_forall in Hsp. apply Hsp in Hin. done.
    + revert Hin. by apply (bool_decide_unpack _).
Qed.

Lemma caret_no_match_before l1 l2 rest adv :
  contains (txt ">>>") l2 = false → l2 ≠ [] →
  match_here CARET_BLOCK_RE (rev l1, l2 ++ NL :: rest) adv = None.
Proof.
  intros Hno%contains_false Hne.
  destruct (match_here CARET_BLOCK_RE (rev l1, l2 ++ NL :: rest) adv) as [[c' g']|] eqn:E;
    [exfalso|done].
  apply match_here_sound in E as [HM _].
  unfold CARET_BLOCK_RE in HM. cbn [p_re p_flags Cat] in HM.
  cbn [Matches star star_lazy] in HM.
  destruct HM as (c1 & g1 & [HC1 _] & c2 & g2 & (g2' & (sp & HC2 & Hsp & _) & _)
                  & c3 & g3 & (g3' & (c4 & g4 & [HC4 _] & _) & _) & _).
  destruct c1 as [b1 a1], c2 as [b2 a2], c4 as [b4 a4].
  destruct HC1 as [HC1 _], HC2 as [HC2 _], HC4 as [HC4 _]. simpl in *.
  apply (caret_prefix_absurd l2 rest sp a4 Hne Hno Hsp).
  by rewrite HC1, HC2, HC4.
Qed.

Lemma contains_suffix (lit l1 l2 : str) :
  contains lit (l1 ++ l2) = false → contains lit l2 = false.
Proof.
  rewrite !contains_false. intros H Ho. apply H. by apply occurs_app_r.
Qed.

Lemma caret_block_fenced pre indent c :
  contains (txt ">>>") pre = false → forallb (Ascii.eqb SP) indent = true →
  unbroken c = true →
  _AddDoctestFences (pre ++ [NL] ++ indent ++ txt ">>>" ++ c ++ [NL])
  = pre ++ fence_of indent ++ indent ++ txt ">>>" ++ c ++ fence_of indent.
Proof.
  intros Hpre Hin Hc. unfold _AddDoctestFences, re_sub.
  set (text := pre ++ [NL] ++ indent ++ txt ">>>" ++ c ++ [NL]).
  pose proof (caret_match_here pre indent c Hin Hc) as Hm.
  erewrite finditer_single; cycle 1.
  { unfold text. apply scan_at.
    - intros l1 l2 -> Hne. rewrite app_nil_r.
      apply caret_no_match_before; [by eapply contains_suffix | done].
    - rewrite app_nil_r. exact Hm. }
  { done. }
  cbn [splice mk_match m_start m_end fst snd app concat id length].
  unfold _sub, group_text, group. cbn [m_marks m_string mk_match fst snd Nat.pred].
  cbn [lookup list_lookup default]. cbn [concat Nat.add].
  rewrite slice_0.
  replace (take (length pre) text) with pre by (unfold text; by rewrite take_app_length).
  replace (slice text (length pre + 1) (length pre + 1 + length indent)) with indent.
  2:{ symmetry. apply (slice_mid text (pre ++ [NL]) indent (txt ">>>" ++ c ++ [NL])).
      - unfold text. by rewrite <- !app_assoc.
      - rewrite length_app. simpl. lia.
      - rewrite length_app. simpl. lia. }
  replace (slice text _ _) with (txt ">>>" ++ c).
  2:{ symmetry. apply (slice_mid text (pre ++ [NL] ++ indent) (txt ">>>" ++ c) [NL]).
      - unfold text. by rewrite <- !app_assoc.
      - rewrite !length_app. simpl. lia.
      - rewrite !length_app. simpl. lia. }
  replace (drop _ text) with (@nil ascii).
  2:{ symmetry. apply drop_ge. unfold text, pos. cbn [fst length].
      rewrite !length_app, !length_rev. simpl. lia. }
  unfold fence_of, id. by rewrite !app_nil_r, <- !app_assoc.
Qed.

(** X24.  For a docstring that ends with a doctest, and has no TODO, no hash
    sign and no other triple caret, the clean-up returns the docstring with
    the doctest between two fence lines; the closing fence ends the text. *)
Theorem X24_docstring_ending_in_doctest pre indent c :
  contains (txt "TODO") (pre ++ [NL] ++ indent ++ txt ">>>" ++ c) = false →
  contains (txt "#") (pre ++ [NL] ++ indent ++ txt ">>>" ++ c) = false →
  contains (txt ">>>") pre = false →
  forallb (Ascii.eqb SP) indent = true → unbroken c = true →
  unix_lines (pre ++ [NL] ++ indent ++ txt ">>>" ++ c) = true →
  _get_raw_docstring (pre ++ [NL] ++ indent ++ txt ">>>" ++ c)
  = pre ++ fence_of indent ++ indent ++ txt ">>>" ++ c ++ [NL] ++ indent ++ txt "```".
Proof.
  intros Htodo%contains_false Hhash%contains_false Hpre Hin Hc Hu.
  unfold _get_raw_docstring.
  set (doc := pre ++ [NL] ++ indent ++ txt ">>>" ++ c) in *.
  assert (_StripTODOs doc = doc) as ->.
  { by apply re_sub_no_match, (finditer_requires _ (txt "TODO")). }
  assert (_StripPylintAndPyformat doc = doc) as ->.
  { by apply re_sub_no_match, (finditer_requires _ (txt "#")). }
  replace (doc ++ [NL]) with (pre ++ [NL] ++ indent ++ txt ">>>" ++ c ++ [NL])
    by (unfold doc; by rewrite <- !app_assoc).
  rewrite (caret_block_fenced pre indent c Hpre Hin Hc).
  replace (pre ++ fence_of indent ++ indent ++ txt ">>>" ++ c ++ fence_of indent)
    with ((pre ++ fence_of indent ++ indent ++ txt ">>>" ++ c ++ [NL] ++ indent ++ txt "```")
          ++ [NL])
    by (unfold fence_of; by rewrite <- !app_assoc).
  rewrite (occurs_char "#" doc) in Hhash.
  unfold doc in Hhash, Hu. unfold unix_lines in Hu.
  rewrite !elem_of_app in Hhash. rewrite !forallb_app in Hu.
  apply andb_true_iff in Hu as [Hu1 [_ [Hu2 [_ Hu3]%andb_true_iff]%andb_true_iff]%andb_true_iff].
  apply DowngradeH1Keywords_plain.
  - unfold fence_of. rewrite !elem_of_app.
    assert ("#"%char ∉ [NL]) as H1 by (by apply (bool_decide_unpack _)).
    assert ("#"%char ∉ txt "```") as H2 by (by apply (bool_decide_unpack _)).
    tauto.
  - unfold unix_lines, fence_of. rewrite !forallb_app.
    by rewrite Hu1, Hu2, Hu3.
Qed.

Lemma X24_docstring_ending_in_doctest_witness :
  _get_raw_docstring
    (lines ["Sum."; ""] ++ [NL] ++ txt "  " ++ txt ">>>" ++ lines [" add(1, 2)"; "3"])
  = lines ["Sum."; ""] ++ fence_of (txt "  ") ++ txt "  " ++ txt ">>>"
    ++ lines [" add(1, 2)"; "3"] ++ [NL] ++ txt "  " ++ txt "```".
Proof.
  apply (X24_docstring_ending_in_doctest (lines ["Sum."; ""]) (txt "  ")
           (lines [" add(1, 2)"; "3"])); reflexivity.
Defined.

(** X23.  A doctest that ends the text gets a fence before and after it: when
    the text before it has no triple caret, the caret line is indented by
    spaces only, and no line feed inside the doctest is followed by white
    space or by the end, the block is wrapped in two fence lines with the
    indentation of the caret line, and the text before it is kept. *)
Theorem X23_last_doctest_is_fenced pre indent c :
  contains (txt ">>>") pre = false → forallb (Ascii.eqb SP) indent = true →
  unbroken c = true →
  _AddDoctestFences (pre ++ [NL] ++ indent ++ txt ">>>" ++ c ++ [NL])
  = pre ++ fence_of indent ++ indent ++ txt ">>>" ++ c ++ fence_of indent.
Proof. apply caret_block_fenced. Qed.

Lemma X23_last_doctest_is_fenced_witness :
  _AddDoctestFences
    (lines ["Sum."; ""] ++ [NL] ++ txt "  " ++ txt ">>>" ++ lines [" add(1, 2)"; "3"] ++ [NL])
  = lines ["Sum."; ""] ++ fence_of (txt "  ") ++ txt "  " ++ txt ">>>"
    ++ lines [" add(1, 2)"; "3"] ++ fence_of (txt "  ").
Proof.
  apply (X23_last_doctest_is_fenced (lines ["Sum."; ""]) (txt "  ")
           (lines [" add(1, 2)"; "3"])); reflexivity.
Defined.
